(** * Smart task manager: the priority index and the ordering policy

    A shallow embedding of [SmartTaskManager.h] (class [Task], class
    [AVLTree]) and of the three mutating branches of [main] in [Main.cpp],
    followed by the properties of the specification that were checked
    against them.

    Conventions.
    - C++ [int] and [long] values are integers in [Z]; the ranges of the
      machine types are the predicates [int_range] and [long_range], and
      the one place where the source mixes widths ([computeRemainingHours])
      has its wrap-around written out.  [t.priority++] is the integer
      successor.  Signed overflow of a priority is undefined in C++; it
      takes about 2^31 menu choices to reach (an insertion at the front
      raises every later priority by one and a deletion lowers none), and
      the model leaves it out.
    - A tree node is owned by exactly one parent pointer, so the pointer
      structure under [root] is an inductive tree.  Every node carries its
      address: [idMap] stores addresses, and [search] dereferences them.
    - [std::sort] is library code.  The operations of [main] take it as a
      parameter constrained by the contract of the C++ standard (the result
      is a permutation of the input in which no element is smaller than an
      earlier one); [insertion_sort] is one function that meets it, and
      [libstdcxx_sort], the [std::sort] of libstdc++ (GCC 12,
      [bits/stl_algo.h] and [bits/stl_heap.h]), is another. *)

From Stdlib Require Import ZArith List Lia Permutation Sorted.
From Stdlib Require Import Ascii String DecimalString.
From Stdlib Require Import Reals Lra.
From stdpp Require Import base option list sorting gmap strings.

Open Scope Z_scope.

(** ** Task records ([class Task]) *)

Record Task := mkTask {
  id : string;
  description : string;
  deadlineDetails : string;
  priority : Z;
  category : string;
  status : string;
  remainingHours : Z
}.

Definition set_priority (p : Z) (t : Task) : Task :=
  mkTask (id t) (description t) (deadlineDetails t) p
         (category t) (status t) (remainingHours t).

Definition set_status (s : string) (t : Task) : Task :=
  mkTask (id t) (description t) (deadlineDetails t) (priority t)
         (category t) s (remainingHours t).

Definition INT_MIN : Z := - 2 ^ 31.
Definition INT_MAX : Z := 2 ^ 31 - 1.
Definition int_range (z : Z) : Prop := INT_MIN <= z <= INT_MAX.

(** ** Tree nodes ([struct Node]) *)

Definition ptr := nat.

Inductive Node : Type :=
| nullptr
| mkNode (self : ptr) (task : Task) (key : Z) (left right : Node) (height : Z).

Definition getHeight (node : Node) : Z :=
  match node with
  | nullptr => 0
  | mkNode _ _ _ _ _ h => h
  end.

Definition getBalance (node : Node) : Z :=
  match node with
  | nullptr => 0
  | mkNode _ _ _ l r _ => getHeight l - getHeight r
  end.

Definition updateHeight (node : Node) : Node :=
  match node with
  | nullptr => nullptr
  | mkNode a t k l r _ =>
      mkNode a t k l r (1 + Z.max (getHeight l) (getHeight r))
  end.

(** The rotations relink three pointers; no task is copied, so every node
    keeps its address.  The source dereferences [node->right]
    ([node->left]) without a test; [balance] only rotates towards a side
    whose stored height is at least 2, so the child is there (lemma
    [balance_rotates_nodes]); on a missing child the model returns the node
    as it is. *)
Definition rotateLeft (node : Node) : Node :=
  match node with
  | mkNode a t k l (mkNode b tb kb bl br hb) h =>
      let node' := updateHeight (mkNode a t k l bl h) in
      updateHeight (mkNode b tb kb node' br hb)
  | _ => node
  end.

Definition rotateRight (node : Node) : Node :=
  match node with
  | mkNode a t k (mkNode b tb kb bl br hb) r h =>
      let node' := updateHeight (mkNode a t k br r h) in
      updateHeight (mkNode b tb kb bl node' hb)
  | _ => node
  end.

Definition rotateLeftRight (node : Node) : Node :=
  match node with
  | mkNode a t k l r h => rotateRight (mkNode a t k (rotateLeft l) r h)
  | nullptr => nullptr
  end.

Definition rotateRightLeft (node : Node) : Node :=
  match node with
  | mkNode a t k l r h => rotateLeft (mkNode a t k l (rotateRight r) h)
  | nullptr => nullptr
  end.

Definition node_left (node : Node) : Node :=
  match node with mkNode _ _ _ l _ _ => l | nullptr => nullptr end.

Definition node_right (node : Node) : Node :=
  match node with mkNode _ _ _ _ r _ => r | nullptr => nullptr end.

Definition balance (node : Node) : Node :=
  let balanceFactor := getBalance node in
  if 1 <? balanceFactor then
    if getBalance (node_left node) <? 0
    then rotateLeftRight node
    else rotateRight node
  else if balanceFactor <? -1 then
    if 0 <? getBalance (node_right node)
    then rotateRightLeft node
    else rotateLeft node
  else node.

(** ** Exceptions and the state threaded through the helpers

    [insertHelper] and [deleteHelper] write to [idMap]; [insertHelper]
    allocates.  Both are threaded as a [store].  A computation returns its
    outcome together with the store it leaves behind, also when it throws. *)

Inductive error : Type :=
| DuplicateId            (* "Task with the same ID already exists." *)
| DuplicatePriorityKey   (* "Duplicate priority encountered." *)
| NotFound.              (* "Task ID not found." *)

Inductive outcome (A : Type) : Type :=
| Ok (a : A)
| Throw (e : error).
Arguments Ok {A} a.
Arguments Throw {A} e.

Record store := mkStore {
  st_idMap : gmap string ptr;
  st_next : ptr               (* the address the next [new Node] returns *)
}.

Definition M (A : Type) : Type := store -> outcome A * store.

Definition ret {A} (a : A) : M A := fun st => (Ok a, st).
Definition throw {A} (e : error) : M A := fun st => (Throw e, st).
Definition bind {A B} (m : M A) (f : A -> M B) : M B :=
  fun st =>
    match m st with
    | (Ok a, st') => f a st'
    | (Throw e, st') => (Throw e, st')
    end.

Notation "x <- m ;; k" := (bind m (fun x => k))
  (at level 100, m at next level, right associativity).

(** [new Node(task)] followed by [idMap[task.id] = newNode]. *)
Definition new_node (task : Task) : M Node :=
  fun st =>
    let a := st_next st in
    (Ok (mkNode a task (priority task) nullptr nullptr 1),
     mkStore (<[id task := a]> (st_idMap st)) (S a)).

Definition idMap_erase (i : string) : M unit :=
  fun st => (Ok tt, mkStore (delete i (st_idMap st)) (st_next st)).

Fixpoint insertHelper (node : Node) (task : Task) : M Node :=
  match node with
  | nullptr => new_node task
  | mkNode a t k l r h =>
      if priority task <? k then
        l' <- insertHelper l task ;;
        ret (balance (updateHeight (mkNode a t k l' r h)))
      else if k <? priority task then
        r' <- insertHelper r task ;;
        ret (balance (updateHeight (mkNode a t k l r' h)))
      else throw DuplicatePriorityKey
  end.

Fixpoint findMin (node : Node) : Node :=
  match node with
  | nullptr => nullptr
  | mkNode _ _ _ l _ _ =>
      match l with
      | nullptr => node
      | mkNode _ _ _ _ _ _ => findMin l
      end
  end.

Definition node_task (node : Node) : option Task :=
  match node with mkNode _ t _ _ _ _ => Some t | nullptr => None end.

Definition node_key (node : Node) : option Z :=
  match node with mkNode _ _ k _ _ _ => Some k | nullptr => None end.

(** In the two-children case the node keeps its address and receives the
    payload and key of [minRight]; the recursive call then reaches
    [minRight] itself, erases [minRight->task.id] from [idMap] and frees
    that node. *)
Fixpoint deleteHelper (node : Node) (key : Z) : M Node :=
  match node with
  | nullptr => ret nullptr
  | mkNode a t k l r h =>
      if key <? k then
        l' <- deleteHelper l key ;;
        ret (balance (updateHeight (mkNode a t k l' r h)))
      else if k <? key then
        r' <- deleteHelper r key ;;
        ret (balance (updateHeight (mkNode a t k l r' h)))
      else
        _ <- idMap_erase (id t) ;;
        match l, r with
        | nullptr, _ => ret r
        | _, nullptr => ret l
        | _, mkNode _ _ _ _ _ _ =>
            match findMin r with
            | mkNode _ tm km _ _ _ =>
                r' <- deleteHelper r km ;;
                ret (balance (updateHeight (mkNode a tm km l r' h)))
            | nullptr => ret node
            end
        end
  end.

Fixpoint inOrder (node : Node) : list Task :=
  match node with
  | nullptr => []
  | mkNode _ t _ l r _ => inOrder l ++ t :: inOrder r
  end.

(** ** The index ([class AVLTree]) *)

(** [root] and [idMap], and the allocator: [next] is the address that the
    next [new Node] returns (addresses are not reused in the model).
    [updateTaskStatus] is not called by [main]; it is modelled with the
    vocabulary of the further properties. *)
Record AVLTree := mkAVLTree {
  root : Node;
  idMap : gmap string ptr;
  next : ptr
}.

Definition empty_tree : AVLTree := mkAVLTree nullptr ∅ 0%nat.

(** [root = helper(root, ...)]: the assignment to [root] is reached only
    when the helper returns; when it throws, [root] keeps its value and the
    map is whatever the helper left. *)
Definition assign_root (helper : M Node) (tree : AVLTree) : outcome unit * AVLTree :=
  match helper (mkStore (idMap tree) (next tree)) with
  | (Ok n, st) => (Ok tt, mkAVLTree n (st_idMap st) (st_next st))
  | (Throw e, st) => (Throw e, mkAVLTree (root tree) (st_idMap st) (st_next st))
  end.

Definition insert (task : Task) (tree : AVLTree) : outcome unit * AVLTree :=
  match idMap tree !! id task with
  | Some _ => (Throw DuplicateId, tree)
  | None => assign_root (insertHelper (root tree) task) tree
  end.

(** [clear(root); root = nullptr; idMap.clear();] *)
Definition clear (tree : AVLTree) : AVLTree :=
  mkAVLTree nullptr ∅ (next tree).

Fixpoint insert_each (tasks : list Task) (tree : AVLTree) : outcome unit * AVLTree :=
  match tasks with
  | [] => (Ok tt, tree)
  | t :: rest =>
      match assign_root (insertHelper (root tree) t) tree with
      | (Ok _, tree') => insert_each rest tree'
      | (Throw e, tree') => (Throw e, tree')
      end
  end.

Definition rebuild (tasks : list Task) (tree : AVLTree) : outcome unit * AVLTree :=
  insert_each tasks (clear tree).

(** Following a pointer: the node of the tree that lives at address [a]. *)
Fixpoint deref (node : Node) (a : ptr) : option Node :=
  match node with
  | nullptr => None
  | mkNode b _ _ l r _ =>
      if decide (a = b) then Some node
      else match deref l a with
           | Some n => Some n
           | None => deref r a
           end
  end.

(** [idMap[id]->key].  An address that is in the map but not in the tree
    would be a dangling pointer in the source; [idMap_points_to_live_nodes]
    shows that no reachable index has one, and the model then leaves the
    index as it is. *)
Definition deleteTask (i : string) (tree : AVLTree) : outcome unit * AVLTree :=
  match idMap tree !! i with
  | None => (Throw NotFound, tree)
  | Some a =>
      match deref (root tree) a with
      | Some (mkNode _ _ key _ _ _) => assign_root (deleteHelper (root tree) key) tree
      | _ => (Ok tt, tree)
      end
  end.

(** [&idMap[id]->task], or [None] for the null pointer. *)
Definition search (i : string) (tree : AVLTree) : option Task :=
  match idMap tree !! i with
  | None => None
  | Some a =>
      match deref (root tree) a with
      | Some n => node_task n
      | None => None
      end
  end.

Definition listTasks (tree : AVLTree) : list Task := inOrder (root tree).

(** ** The ordering policy (the branches of [main]) *)

(** 64-bit [long]: the value of an arithmetic result after wrap-around. *)
Definition LONG_MIN : Z := - 2 ^ 63.
Definition LONG_MAX : Z := 2 ^ 63 - 1.
Definition long_range (z : Z) : Prop := LONG_MIN <= z <= LONG_MAX.
Definition to_long (z : Z) : Z := (z + 2 ^ 63) mod 2 ^ 64 - 2 ^ 63.
Definition long_mul (a b : Z) : Z := to_long (a * b).
Definition long_add (a b : Z) : Z := to_long (a + b).

(** [hours] is read only when the three other answers are 0. *)
Definition solicited_hours (years months days hours : Z) : Z :=
  if (years =? 0) && (months =? 0) && (days =? 0) then hours else 0.

Definition computeRemainingHours (years months days hours : Z) : Z :=
  let hours := solicited_hours years months days hours in
  long_add
    (long_add
       (long_add (long_mul (long_mul years 365) 24)
                 (long_mul (long_mul months 30) 24))
       (long_mul days 24))
    hours.

(** [std::to_string] on an [int]. *)
Definition to_string (z : Z) : string := NilZero.string_of_int (Z.to_int z).

Definition deadlineString (years months days hours : Z) : string :=
  let s := (to_string years ++ " year(s), " ++ to_string months ++ " month(s), "
            ++ to_string days ++ " day(s)")%string in
  if (years =? 0) && (months =? 0) && (days =? 0)
  then (s ++ ", " ++ to_string (solicited_hours years months days hours)
          ++ " hour(s)")%string
  else s.

Definition increment_priority (t : Task) : Task :=
  set_priority (priority t + 1) t.

(** The scan [for (auto &t : tasks) if (total < t.remainingHours)
    { newPriority = t.priority; break; }]. *)
Fixpoint first_later (total : Z) (tasks : list Task) (newPriority : Z) : Z :=
  match tasks with
  | [] => newPriority
  | t :: rest =>
      if total <? remainingHours t then priority t
      else first_later total rest newPriority
  end.

(** Lines 118-148 of [Main.cpp]: the rank of the new task and the shifted
    priorities of the existing ones. *)
Definition rankForInsertion (tasks : list Task) (newStatus : string)
    (totalRemainingHours : Z) : Z * list Task :=
  if String.eqb newStatus "complete" then
    match last tasks with
    | Some b => (priority b + 1, tasks)
    | None => (1, tasks)
    end
  else
    match head tasks, last tasks with
    | Some f, Some b =>
        if totalRemainingHours <? remainingHours f then
          (1, map increment_priority tasks)
        else if remainingHours b <=? totalRemainingHours then
          (priority b + 1, tasks)
        else
          let newPriority := first_later totalRemainingHours tasks 1 in
          (newPriority,
           map (fun t => if newPriority <=? priority t
                         then increment_priority t else t) tasks)
    | _, _ => (1, tasks)
    end.

Record InsertInput := mkInsertInput {
  in_id : string;
  in_desc : string;
  in_category : string;
  in_years : Z;
  in_months : Z;
  in_days : Z;
  in_hours : Z      (* the answer to "Enter remaining hours", if asked *)
}.

(** Lines 95-114: status, remaining hours and deadline text of a new task. *)
Definition new_task_fields (inp : InsertInput) : string * Z * string :=
  let status := "incomplete"%string in
  if String.eqb status "incomplete" then
    (status,
     computeRemainingHours (in_years inp) (in_months inp) (in_days inp) (in_hours inp),
     deadlineString (in_years inp) (in_months inp) (in_days inp) (in_hours inp))
  else (status, 0, "N/A"%string).

Definition by_priority (a b : Task) : bool := priority a <? priority b.
Definition by_remainingHours (a b : Task) : bool :=
  remainingHours a <? remainingHours b.

Definition is_incomplete (t : Task) : bool := String.eqb (status t) "incomplete".

(** [t.priority = newPriority++] over the whole list. *)
Fixpoint assign_priorities (newPriority : Z) (tasks : list Task) : list Task :=
  match tasks with
  | [] => []
  | t :: rest => set_priority newPriority t :: assign_priorities (newPriority + 1) rest
  end.

(** The first task with the given id gets the new status ([break] after
    it); [None] is [found == false]. *)
Fixpoint set_first_status (i newStatus : string) (tasks : list Task)
    : option (list Task) :=
  match tasks with
  | [] => None
  | t :: rest =>
      if String.eqb (id t) i then Some (set_status newStatus t :: rest)
      else match set_first_status i newStatus rest with
           | Some rest' => Some (t :: rest')
           | None => None
           end
  end.

Section Shell.

(** [std::sort(first, last, comp)]. *)
Variable std_sort : list Task -> (Task -> Task -> bool) -> list Task.

(** The task that choice 1 builds and the list it hands to [rebuild]. *)
Definition insertion_list (inp : InsertInput) (tasks : list Task)
    : Task * list Task :=
  let '(status, totalRemainingHours, deadlineStr) := new_task_fields inp in
  let '(newPriority, tasks) := rankForInsertion tasks status totalRemainingHours in
  let newTask := mkTask (in_id inp) (in_desc inp) deadlineStr newPriority
                        (in_category inp) status totalRemainingHours in
  (newTask, std_sort (tasks ++ [newTask]) by_priority).

(** Choice 1.  An exception of [rebuild] is not caught in [main]. *)
Definition insert_task (inp : InsertInput) (tree : AVLTree)
    : outcome unit * AVLTree :=
  match search (in_id inp) tree with
  | Some _ => (Ok tt, tree)
  | None => rebuild (snd (insertion_list inp (listTasks tree))) tree
  end.

(** Lines 191-213. *)
Definition renumberOnStatusChange (tasks : list Task) : list Task :=
  let incompleteTasks := filter (fun t => is_incomplete t = true) tasks in
  let completeTasks := filter (fun t => is_incomplete t <> true) tasks in
  assign_priorities 1
    (std_sort incompleteTasks by_remainingHours
       ++ std_sort completeTasks by_priority).

(** [completeAnswer] is what [getYesNoInput] returns: the answer in lower
    case, 'y' or 'n'. *)
Definition new_status (completeAnswer : ascii) : string :=
  if Ascii.eqb completeAnswer "y" then "complete"%string else "incomplete"%string.

(** Choice 2. *)
Definition update_status (i : string) (completeAnswer : ascii) (tree : AVLTree)
    : outcome unit * AVLTree :=
  match search i tree with
  | None => (Ok tt, tree)
  | Some _ =>
      match set_first_status i (new_status completeAnswer) (listTasks tree) with
      | None => (Ok tt, tree)
      | Some tasks => rebuild (renumberOnStatusChange tasks) tree
      end
  end.

(** Choice 3: the exception of [deleteTask] is caught and reported. *)
Definition delete_task (i : string) (tree : AVLTree) : outcome unit * AVLTree :=
  (Ok tt, snd (deleteTask i tree)).

End Shell.

(** Insertion sort: what libstdc++'s [std::sort] runs on ranges of at most
    16 elements (lemma [libstdcxx_sort_small]). *)
Fixpoint sorted_insert (comp : Task -> Task -> bool) (x : Task) (l : list Task)
    : list Task :=
  match l with
  | [] => [x]
  | y :: rest => if comp x y then x :: l else y :: sorted_insert comp x rest
  end.

Definition insertion_sort (l : list Task) (comp : Task -> Task -> bool) : list Task :=
  fold_left (fun acc x => sorted_insert comp x acc) l [].

(** ** [std::sort] of libstdc++ *)

(** [std::__sort] of [bits/stl_algo.h]: an introsort loop that leaves
    ranges of at most 16 elements alone, then one insertion sort over the
    whole range.  A range [first, last) is a list and an iterator is an
    index into it.  The loops that the library calls unguarded stop at an
    element that the order guarantees to be there; at the end of the list
    the model stops, too, where the library would read outside the
    range. *)

Definition comp_at (comp : Task -> Task -> bool) (l : list Task) (i j : nat)
    : bool :=
  match l !! i, l !! j with
  | Some a, Some b => comp a b
  | _, _ => false
  end.

Definition iter_swap (i j : nat) (l : list Task) : list Task :=
  match l !! i, l !! j with
  | Some a, Some b => <[j := a]> (<[i := b]> l)
  | _, _ => l
  end.

Definition move_median_to_first (comp : Task -> Task -> bool) (l : list Task)
    (result a b c : nat) : list Task :=
  if comp_at comp l a b then
    if comp_at comp l b c then iter_swap result b l
    else if comp_at comp l a c then iter_swap result c l
    else iter_swap result a l
  else if comp_at comp l a c then iter_swap result a l
  else if comp_at comp l b c then iter_swap result c l
  else iter_swap result b l.

(** [while (comp(first, pivot)) ++first;] *)
Fixpoint scan_up (comp : Task -> Task -> bool) (l : list Task) (pivot : nat)
    (fuel first : nat) : nat :=
  match fuel with
  | O => first
  | S fuel' =>
      if comp_at comp l first pivot then scan_up comp l pivot fuel' (S first)
      else first
  end.

(** [while (comp(pivot, last)) --last;] *)
Fixpoint scan_down (comp : Task -> Task -> bool) (l : list Task) (pivot : nat)
    (last : nat) : nat :=
  match last with
  | O => O
  | S last' =>
      if comp_at comp l pivot last then scan_down comp l pivot last'
      else last
  end.

(** Every round moves [first] up by at least one, so the length of the
    list is fuel enough. *)
Fixpoint unguarded_partition (comp : Task -> Task -> bool) (fuel : nat)
    (l : list Task) (first last pivot : nat) : nat * list Task :=
  match fuel with
  | O => (first, l)
  | S fuel' =>
      let first := scan_up comp l pivot (length l) first in
      let last := scan_down comp l pivot (last - 1) in
      if (first <? last)%nat
      then unguarded_partition comp fuel' (iter_swap first last l)
             (S first) last pivot
      else (first, l)
  end.

Definition unguarded_partition_pivot (comp : Task -> Task -> bool)
    (l : list Task) : nat * list Task :=
  let mid := (length l / 2)%nat in
  let l := move_median_to_first comp l 0 1 mid (length l - 1) in
  unguarded_partition comp (length l) l 1 (length l) 0.

(** The heap functions of [bits/stl_heap.h] carry the value that is being
    placed in a variable and move elements into the hole it left.  In the
    model the value sits in the hole, so a move into the hole is an
    exchange with the hole. *)
Fixpoint push_heap (comp : Task -> Task -> bool) (fuel : nat) (l : list Task)
    (holeIndex topIndex : nat) : list Task :=
  match fuel with
  | O => l
  | S fuel' =>
      let parent := ((holeIndex - 1) / 2)%nat in
      if (topIndex <? holeIndex)%nat && comp_at comp l parent holeIndex
      then push_heap comp fuel' (iter_swap holeIndex parent l) parent topIndex
      else l
  end.

(** The first loop of [__adjust_heap]; [secondChild] equals [holeIndex]
    whenever its condition is tested. *)
Fixpoint sift_down (comp : Task -> Task -> bool) (fuel : nat) (l : list Task)
    (holeIndex len : nat) : nat * list Task :=
  match fuel with
  | O => (holeIndex, l)
  | S fuel' =>
      if (holeIndex <? (len - 1) / 2)%nat then
        let secondChild := (2 * (holeIndex + 1))%nat in
        let secondChild :=
          if comp_at comp l secondChild (secondChild - 1)
          then (secondChild - 1)%nat else secondChild in
        sift_down comp fuel' (iter_swap holeIndex secondChild l) secondChild len
      else (holeIndex, l)
  end.

Definition adjust_heap (comp : Task -> Task -> bool) (l : list Task)
    (holeIndex len : nat) : list Task :=
  let topIndex := holeIndex in
  let '(hole, l) := sift_down comp len l holeIndex len in
  let '(hole, l) :=
    if Nat.even len && (Z.of_nat hole =? (Z.of_nat len - 2) ÷ 2)
    then let secondChild := (2 * (hole + 1))%nat in
         ((secondChild - 1)%nat, iter_swap hole (secondChild - 1) l)
    else (hole, l) in
  push_heap comp (length l) l hole topIndex.

(** [__pop_heap(first, last, result)] with [first] the start of the list. *)
Definition pop_heap (comp : Task -> Task -> bool) (l : list Task)
    (last result : nat) : list Task :=
  adjust_heap comp (iter_swap 0 result l) 0 last.

Fixpoint make_heap_from (comp : Task -> Task -> bool) (l : list Task)
    (len parent : nat) : list Task :=
  let l := adjust_heap comp l parent len in
  match parent with
  | O => l
  | S parent' => make_heap_from comp l len parent'
  end.

Definition make_heap (comp : Task -> Task -> bool) (l : list Task) (last : nat)
    : list Task :=
  if (last <? 2)%nat then l else make_heap_from comp l last ((last - 2) / 2).

Definition heap_select (comp : Task -> Task -> bool) (l : list Task)
    (middle : nat) : list Task :=
  fold_left
    (fun l i => if comp_at comp l i 0 then pop_heap comp l middle i else l)
    (seq middle (length l - middle))
    (make_heap comp l middle).

Fixpoint sort_heap (comp : Task -> Task -> bool) (l : list Task) (last : nat)
    : list Task :=
  match last with
  | O => l
  | S last' =>
      if (1 <? last)%nat then sort_heap comp (pop_heap comp l last' last') last'
      else l
  end.

Definition partial_sort (comp : Task -> Task -> bool) (l : list Task)
    (middle : nat) : list Task :=
  sort_heap comp (heap_select comp l middle) middle.

Definition S_threshold : nat := 16.

(** [__introsort_loop]: the recursive call sorts [cut, last) and the next
    round of the [while] loop works on [first, cut), both with the
    decremented depth limit. *)
Fixpoint introsort_loop (comp : Task -> Task -> bool) (depth_limit : nat)
    (l : list Task) : list Task :=
  if (S_threshold <? length l)%nat then
    match depth_limit with
    | O => partial_sort comp l (length l)
    | S depth_limit' =>
        let '(cut, l) := unguarded_partition_pivot comp l in
        introsort_loop comp depth_limit' (take cut l)
          ++ introsort_loop comp depth_limit' (drop cut l)
    end
  else l.

(** [__unguarded_linear_insert] on the elements before the position,
    nearest first: the value passes every element it is smaller than. *)
Fixpoint linear_insert_back (comp : Task -> Task -> bool) (val : Task)
    (before : list Task) : list Task :=
  match before with
  | [] => [val]
  | next :: rest =>
      if comp val next then next :: linear_insert_back comp val rest
      else val :: before
  end.

Definition unguarded_linear_insert (comp : Task -> Task -> bool)
    (sorted : list Task) (val : Task) : list Task :=
  rev (linear_insert_back comp val (rev sorted)).

(** The loop of [__insertion_sort] from position [i] on: [sorted] is
    [first, i) and [rest] is [i, last). *)
Definition insertion_sort_from (comp : Task -> Task -> bool)
    (sorted rest : list Task) : list Task :=
  fold_left
    (fun sorted val =>
       match sorted with
       | first :: _ =>
           if comp val first then val :: sorted
           else unguarded_linear_insert comp sorted val
       | [] => [val]
       end)
    rest sorted.

(** [__insertion_sort]. *)
Definition std_insertion_sort (comp : Task -> Task -> bool) (l : list Task)
    : list Task :=
  match l with
  | [] => []
  | first :: rest => insertion_sort_from comp [first] rest
  end.

Definition unguarded_insertion_sort (comp : Task -> Task -> bool)
    (sorted rest : list Task) : list Task :=
  fold_left (unguarded_linear_insert comp) rest sorted.

Definition final_insertion_sort (comp : Task -> Task -> bool) (l : list Task)
    : list Task :=
  if (S_threshold <? length l)%nat then
    unguarded_insertion_sort comp
      (std_insertion_sort comp (take S_threshold l)) (drop S_threshold l)
  else std_insertion_sort comp l.

(** [std::sort(first, last, comp)]; [Nat.log2] is [std::__lg]. *)
Definition libstdcxx_sort (l : list Task) (comp : Task -> Task -> bool)
    : list Task :=
  match l with
  | [] => []
  | _ => final_insertion_sort comp
           (introsort_loop comp (Nat.log2 (length l) * 2) l)
  end.

(** * Vocabulary of the properties *)

(** ** In-order contents of a tree *)

(** The tree read from left to right: keys with tasks ([entries]) and
    addresses with tasks ([cells]). *)

Fixpoint entries (node : Node) : list (Z * Task) :=
  match node with
  | nullptr => []
  | mkNode _ t k l r _ => entries l ++ (k, t) :: entries r
  end.

Definition keys (node : Node) : list Z := map fst (entries node).

Definition entry_of (t : Task) : Z * Task := (priority t, t).

(** Insertion of an entry into a key-ordered list of entries. *)
Fixpoint entry_insert (e : Z * Task) (l : list (Z * Task)) : list (Z * Task) :=
  match l with
  | [] => [e]
  | d :: rest => if fst e <? fst d then e :: l else d :: entry_insert e rest
  end.

Fixpoint cells (node : Node) : list (ptr * Task) :=
  match node with
  | nullptr => []
  | mkNode a t _ l r _ => cells l ++ (a, t) :: cells r
  end.

Definition addrs (node : Node) : list ptr := map fst (cells node).

(** ** Invariants of the tree *)

Definition bst (node : Node) : Prop := StronglySorted Z.lt (keys node).

Definition keyed (node : Node) : Prop :=
  Forall (fun e => fst e = priority (snd e)) (entries node).

(** Every stored height is one more than the larger stored height of the
    children, and the two children differ by at most one. *)
Fixpoint avl (node : Node) : Prop :=
  match node with
  | nullptr => True
  | mkNode _ _ _ l r h =>
      avl l /\ avl r
      /\ h = 1 + Z.max (getHeight l) (getHeight r)
      /\ -1 <= getHeight l - getHeight r <= 1
  end.

Fixpoint tree_height (node : Node) : nat :=
  match node with
  | nullptr => 0%nat
  | mkNode _ _ _ l r _ => S (Nat.max (tree_height l) (tree_height r))
  end.

Fixpoint tree_size (node : Node) : nat :=
  match node with
  | nullptr => 0%nat
  | mkNode _ _ _ l r _ => S (tree_size l + tree_size r)
  end.

Fixpoint every_node (P : Node -> Prop) (node : Node) : Prop :=
  match node with
  | nullptr => True
  | mkNode _ _ _ l r _ => P node /\ every_node P l /\ every_node P r
  end.

(** Left height minus right height, on the heights of the subtrees
    themselves. *)
Definition balance_factor (node : Node) : Z :=
  Z.of_nat (tree_height (node_left node)) - Z.of_nat (tree_height (node_right node)).

Definition node_balanced (node : Node) : Prop :=
  getBalance node = balance_factor node /\ -1 <= balance_factor node <= 1.

(** The node has the child that [rotateRight] ([rotateLeft])
    dereferences. *)
Definition has_left (node : Node) : Prop :=
  match node with mkNode _ _ _ (mkNode _ _ _ _ _ _) _ _ => True | _ => False end.

Definition has_right (node : Node) : Prop :=
  match node with mkNode _ _ _ _ (mkNode _ _ _ _ _ _) _ => True | _ => False end.

Record tree_inv (node : Node) : Prop := mkTreeInv {
  inv_bst : bst node;
  inv_keyed : keyed node;
  inv_avl : avl node
}.

Record map_inv (tree : AVLTree) : Prop := mkMapInv {
  map_nodup : NoDup (addrs (root tree));
  map_below : Forall (fun a => (a < next tree)%nat) (addrs (root tree));
  map_live : forall i a, idMap tree !! i = Some a ->
               exists t, (a, t) ∈ cells (root tree) /\ id t = i
}.

(** ** States and operations of the index *)

(** The states of the index: what a sequence of calls of the public
    operations produces from the empty tree, whether the calls return or
    throw. *)
Inductive reachable : AVLTree -> Prop :=
| reach_empty : reachable empty_tree
| reach_insert task tree :
    reachable tree -> reachable (snd (insert task tree))
| reach_rebuild tasks tree :
    reachable tree -> reachable (snd (rebuild tasks tree))
| reach_deleteTask i tree :
    reachable tree -> reachable (snd (deleteTask i tree)).

Inductive index_op : Type :=
| OpInsert (task : Task)
| OpRebuild (tasks : list Task)
| OpDelete (i : string).

Definition run_op (op : index_op) (tree : AVLTree) : outcome unit * AVLTree :=
  match op with
  | OpInsert task => insert task tree
  | OpRebuild tasks => rebuild tasks tree
  | OpDelete i => deleteTask i tree
  end.

Definition failure_effect (op : index_op) (tree : AVLTree) (e : error)
    (tree' : AVLTree) : Prop :=
  match op with
  | OpInsert task =>
      tree' = tree
      /\ ((e = DuplicateId /\ is_Some (idMap tree !! id task))
          \/ (e = DuplicatePriorityKey /\ priority task ∈ keys (root tree)))
  | OpDelete i => tree' = tree /\ e = NotFound /\ idMap tree !! i = None
  | OpRebuild tasks =>
      e = DuplicatePriorityKey
      /\ exists done t rest,
           tasks = done ++ t :: rest
           /\ rebuild done tree = (Ok tt, tree')
           /\ priority t ∈ map priority done
  end.

(** ** The height bound *)

Fixpoint fib_pair (n : nat) : Z * Z :=
  match n with
  | O => (0, 1)
  | S m => let '(a, b) := fib_pair m in (b, a + b)
  end.

Definition fib (n : nat) : Z := fst (fib_pair n).

(** [h <= ceil (1.44 * log2 (n + 2))] written over the integers:
    [1.44 = 36/25], and [h <= ceil x] is [h - 1 < x], so the bound is
    [25 * (h - 1) < 36 * log2 (n + 2)], that is
    [2 ^ (25 * (h - 1)) < (n + 2) ^ 36]. *)
Definition height_bound (h : nat) (n : nat) : Prop :=
  (1 <= h)%nat -> 2 ^ (25 * (Z.of_nat h - 1)) < (Z.of_nat n + 2) ^ 36.

Definition height_bound_check (h : nat) : bool :=
  2 ^ (25 * (Z.of_nat h - 1)) <? (fib (h + 2) + 1) ^ 36.

(** The bound as the specification writes it, over the reals. *)
Definition log2R (x : R) : R := (ln x / ln 2)%R.
Definition ceiling (x : R) : Z := 1 - up (- x).

(** ** The contract of [std::sort] *)

(** For a comparison [f a < f b]: the result is a permutation of the input
    and no element is smaller than an earlier one.  Nothing is promised
    about the order of elements that compare equal. *)
Definition sort_contract
    (sort : list Task -> (Task -> Task -> bool) -> list Task) : Prop :=
  forall (f : Task -> Z) (l : list Task),
    sort l (fun a b => f a <? f b) ≡ₚ l
    /\ StronglySorted (fun a b => f a <= f b) (sort l (fun a b => f a <? f b)).

(** ** Properties of task lists *)

Definition forget_priority (t : Task) : Task := set_priority 0 t.

Definition key_is_not (key : Z) (e : Z * Task) : Prop := fst e <> key.

#[local] Instance key_is_not_dec key e : Decision (key_is_not key e).
Proof. unfold key_is_not. apply _. Defined.

Definition priority_is_not (key : Z) (t : Task) : Prop := priority t <> key.

#[local] Instance priority_is_not_dec key t : Decision (priority_is_not key t).
Proof. unfold priority_is_not. apply _. Defined.

Definition last_priority (tasks : list Task) : Z :=
  match last tasks with
  | Some b => priority b
  | None => 0
  end.

(** The rank [p] of a new task between the tasks [pre] that keep their
    rank and the tasks [post] that move one rank down. *)
Definition rank_gap (p : Z) (pre post : list Task) : Prop :=
  Forall (fun t => priority t < p) pre
  /\ Forall (fun t => p <= priority t) post
  /\ 1 <= p
  /\ (post = [] -> p = last_priority pre + 1).

(** The rank of the task at position [i] of a list. *)
Definition rank_of (i : nat) : Z := 1 + Z.of_nat i.

(** P1: the priorities are exactly 1..N. *)
Definition dense (tasks : list Task) : Prop :=
  map priority tasks = map rank_of (seq 0 (length tasks)).

(** P2: every incomplete task ranks before every complete one. *)
Definition partitioned (tasks : list Task) : Prop :=
  Forall (fun a =>
    Forall (fun b =>
      is_incomplete a = true -> is_incomplete b <> true -> priority a < priority b)
      tasks) tasks.

#[local] Instance partitioned_dec tasks : Decision (partitioned tasks).
Proof. unfold partitioned. apply _. Defined.

(** The order that [renumberOnStatusChange] establishes between an earlier
    task [a] and a later task [b]: incomplete tasks come first, and among
    incomplete tasks remaining hours do not decrease. *)
Definition policy_order (a b : Task) : Prop :=
  (is_incomplete b = true -> is_incomplete a = true)
  /\ (is_incomplete a = true -> is_incomplete b = true ->
      remainingHours a <= remainingHours b).

Definition ranked_before (a b : Task) : Prop :=
  priority a < priority b /\ policy_order a b.

(** Stability, as the specification words it: for every value of remaining
    hours, the incomplete tasks that have it appear in the same order
    before and after. *)
Definition tie_class (h : Z) (t : Task) : Prop :=
  is_incomplete t = true /\ remainingHours t = h.

#[local] Instance tie_class_dec h t : Decision (tie_class h t).
Proof. unfold tie_class. apply _. Defined.

Definition ties_keep_order (tasks out : list Task) : Prop :=
  forall h, map id (filter (tie_class h) out) = map id (filter (tie_class h) tasks).

(** ** Runs of the menu *)

Inductive choice : Type :=
| ChoiceInsert (inp : InsertInput)
| ChoiceUpdate (i : string) (completeAnswer : ascii)
| ChoiceDelete (i : string).

Definition run_choice (std_sort : list Task -> (Task -> Task -> bool) -> list Task)
    (c : choice) (tree : AVLTree) : outcome unit * AVLTree :=
  match c with
  | ChoiceInsert inp => insert_task std_sort inp tree
  | ChoiceUpdate i a => update_status std_sort i a tree
  | ChoiceDelete i => delete_task i tree
  end.

(** The states of a run of [main] that starts with an empty table.  A
    choice that ends in an uncaught exception ends the run. *)
Inductive session (std_sort : list Task -> (Task -> Task -> bool) -> list Task)
    : AVLTree -> Prop :=
| session_start : session std_sort empty_tree
| session_step c tree tree' :
    session std_sort tree ->
    run_choice std_sort c tree = (Ok tt, tree') ->
    session std_sort tree'.

Record shell_inv (tree : AVLTree) : Prop := mkShellInv {
  shell_bst : bst (root tree);
  shell_keyed : keyed (root tree);
  shell_positive : Forall (fun t => 1 <= priority t) (listTasks tree)
}.

(** What a choice does to the tasks, their priorities left aside. *)
Definition status_effect (c : choice) (tree tree' : AVLTree) : Prop :=
  match c with
  | ChoiceInsert inp =>
      match search (in_id inp) tree with
      | Some _ => tree' = tree
      | None =>
          exists newTask,
            status newTask = "incomplete"%string /\ id newTask = in_id inp
            /\ map forget_priority (listTasks tree')
               ≡ₚ map forget_priority (newTask :: listTasks tree)
      end
  | ChoiceUpdate i a =>
      match search i tree with
      | None => tree' = tree
      | Some _ =>
          exists pre t post,
            listTasks tree = pre ++ t :: post
            /\ id t = i
            /\ Forall (fun u => id u <> i) pre
            /\ map forget_priority (listTasks tree')
               ≡ₚ map forget_priority (pre ++ set_status (new_status a) t :: post)
      end
  | ChoiceDelete i =>
      tree' = tree
      \/ exists key, listTasks tree'
                     = filter (priority_is_not key) (listTasks tree)
  end.

(** ** Sample states and the scenarios of the specification *)

Definition sample_tasks : list Task :=
  [ mkTask "a" "first" "N/A" 1 "home" "incomplete" 5;
    mkTask "b" "second" "N/A" 2 "home" "incomplete" 20;
    mkTask "c" "third" "N/A" 3 "work" "complete" 10 ].

Definition sample_tree : AVLTree := snd (rebuild sample_tasks empty_tree).

Definition duplicate_priority_tasks : list Task :=
  [ mkTask "x" "one" "N/A" 1 "home" "incomplete" 5;
    mkTask "y" "two" "N/A" 1 "home" "incomplete" 7 ].

(** A run of the menu: one task is inserted, marked complete, and then the
    status question is answered with 'n'. *)
Definition one_task : AVLTree :=
  snd (insert_task insertion_sort
         (mkInsertInput "t10" "report" "work" 0 0 0 10) empty_tree).

Definition one_task_done : AVLTree :=
  snd (update_status insertion_sort "t10" "y" one_task).

Definition one_task_reopened : AVLTree :=
  snd (update_status insertion_sort "t10" "n" one_task_done).

Definition hours_input (i : string) (h : Z) : InsertInput :=
  mkInsertInput i "task" "work" 0 0 0 h.

Definition run (c : choice) (tree : AVLTree) : AVLTree :=
  snd (run_choice insertion_sort c tree).

(** A run of the menu with a given [std::sort]. *)
Definition run_all (std_sort : list Task -> (Task -> Task -> bool) -> list Task)
    (choices : list choice) (tree : AVLTree) : AVLTree :=
  fold_left (fun tree c => snd (run_choice std_sort c tree)) choices tree.

(** Seventeen tasks, each entered with 5 remaining hours, in a program
    linked with libstdc++. *)
Definition seventeen_ids : list string :=
  [ "t01"; "t02"; "t03"; "t04"; "t05"; "t06"; "t07"; "t08"; "t09"; "t10";
    "t11"; "t12"; "t13"; "t14"; "t15"; "t16"; "t17" ]%string.

Definition seventeen_ties : AVLTree :=
  run_all libstdcxx_sort
    (map (fun i => ChoiceInsert (hours_input i 5)) seventeen_ids) empty_tree.

(** The same run, continued with choice 2 on the first task, answered
    'n'. *)
Definition seventeen_ties_renumbered : AVLTree :=
  run_all libstdcxx_sort [ChoiceUpdate "t01" "n"] seventeen_ties.

(** Scenario A: tasks with 10, 5 and 20 remaining hours, in this order. *)
Definition scenario_A : AVLTree :=
  run (ChoiceInsert (hours_input "t20" 20))
    (run (ChoiceInsert (hours_input "t5" 5))
       (run (ChoiceInsert (hours_input "t10" 10)) empty_tree)).

(** Scenario B: the 10h task is marked complete. *)
Definition scenario_B : AVLTree := run (ChoiceUpdate "t10" "y") scenario_A.

(** Scenario C: the 20h task is deleted. *)
Definition scenario_C : AVLTree := run (ChoiceDelete "t20") scenario_B.

Definition summary (tree : AVLTree) : list (string * Z * string) :=
  map (fun t => (id t, priority t, status t)) (listTasks tree).

(** One task is inserted and completed, a second one with fewer hours is
    inserted, then a third one with more hours than both. *)
Definition complete_then_insert_before : AVLTree :=
  run (ChoiceInsert (hours_input "t5" 5))
    (run (ChoiceUpdate "t10" "y")
       (run (ChoiceInsert (hours_input "t10" 10)) empty_tree)).

Definition complete_then_insert_after : AVLTree :=
  run (ChoiceInsert (hours_input "t20" 20)) complete_then_insert_before.

(** ** Vocabulary of the further properties *)

(** The conditions under which [balance] calls a rotation, each with the
    child that the rotation dereferences. *)
Definition balance_safe (node : Node) : Prop :=
  (1 < getBalance node ->
     has_left node
     /\ (getBalance (node_left node) < 0 -> has_right (node_left node)))
  /\ (getBalance node < -1 ->
     has_right node
     /\ (0 < getBalance (node_right node) -> has_left (node_right node))).

(** P3: of two incomplete tasks, the one ranked first has no more
    remaining hours than the other. *)
Definition deadline_ordered (tasks : list Task) : Prop :=
  forall a b, a ∈ tasks -> b ∈ tasks ->
    is_incomplete a = true -> is_incomplete b = true ->
    priority a < priority b -> remainingHours a <= remainingHours b.

(** Every task of the tree is recorded in [idMap] under its id, with the
    address of its node. *)
Definition map_full (tree : AVLTree) : Prop :=
  forall a t, (a, t) ∈ cells (root tree) -> idMap tree !! id t = Some a.

(** Two tasks with the same id. *)
Definition shared_id_tasks : list Task :=
  [ mkTask "a" "first" "N/A" 1 "home" "incomplete" 5;
    mkTask "a" "second" "N/A" 2 "home" "incomplete" 20 ].

(** [idMap[id]->task.status = newStatus] (line 189): the write goes to the
    node that the pointer leads to, the one [deref] finds. *)
Fixpoint set_status_at (a : ptr) (newStatus : string) (node : Node) : Node :=
  match node with
  | nullptr => nullptr
  | mkNode b t k l r h =>
      if decide (a = b) then mkNode b (set_status newStatus t) k l r h
      else match deref l a with
           | Some _ => mkNode b t k (set_status_at a newStatus l) r h
           | None => mkNode b t k l (set_status_at a newStatus r) h
           end
  end.

(** [AVLTree::updateTaskStatus] (lines 186-190).  As in [deleteTask], a
    pointer of the map that is not in the tree would be a dangling pointer
    in the source; the model then leaves the tree as it is. *)
Definition updateTaskStatus (i newStatus : string) (tree : AVLTree)
    : outcome unit * AVLTree :=
  match idMap tree !! i with
  | None => (Throw NotFound, tree)
  | Some a =>
      (Ok tt, mkAVLTree (set_status_at a newStatus (root tree))
                        (idMap tree) (next tree))
  end.

(** Eighteen tasks with pairwise different remaining hours, entered in
    no particular order. *)
Definition eighteen_inputs : list (string * Z) :=
  [ ("a", 40); ("b", 12); ("c", 77); ("d", 5); ("e", 63); ("f", 21);
    ("g", 90); ("h", 34); ("i", 8); ("j", 55); ("k", 70); ("l", 16);
    ("m", 48); ("n", 3); ("o", 82); ("p", 27); ("q", 60); ("r", 95) ]%string.

Definition eighteen_tasks : AVLTree :=
  run_all insertion_sort
    (map (fun '(i, h) => ChoiceInsert (hours_input i h)) eighteen_inputs)
    empty_tree.

(** * Properties *)

(** ** In-order contents of a tree *)

Arguments updateHeight : simpl never.
Arguments balance : simpl never.

Lemma inOrder_entries node : inOrder node = map snd (entries node).
Proof.
  induction node as [|a t k l IHl r IHr h]; simpl; [reflexivity|].
  rewrite map_app; simpl. now rewrite IHl, IHr.
Qed.

Lemma entries_updateHeight node : entries (updateHeight node) = entries node.
Proof. destruct node; reflexivity. Qed.

Lemma entries_rotateLeft node : entries (rotateLeft node) = entries node.
Proof.
  destruct node as [|a t k l [|b tb kb bl br hb] h]; simpl; try reflexivity.
  now rewrite <- app_assoc.
Qed.

Lemma entries_rotateRight node : entries (rotateRight node) = entries node.
Proof.
  destruct node as [|a t k [|b tb kb bl br hb] r h]; simpl; try reflexivity.
  now rewrite <- app_assoc.
Qed.

Lemma entries_rotateLeftRight node : entries (rotateLeftRight node) = entries node.
Proof.
  destruct node as [|a t k l r h]; [reflexivity|].
  unfold rotateLeftRight. rewrite entries_rotateRight. simpl.
  now rewrite entries_rotateLeft.
Qed.

Lemma entries_rotateRightLeft node : entries (rotateRightLeft node) = entries node.
Proof.
  destruct node as [|a t k l r h]; [reflexivity|].
  unfold rotateRightLeft. rewrite entries_rotateLeft. simpl.
  now rewrite entries_rotateRight.
Qed.

Lemma entries_balance node : entries (balance node) = entries node.
Proof.
  unfold balance.
  repeat match goal with |- context [if ?b then _ else _] => destruct b end;
    auto using entries_rotateLeft, entries_rotateRight,
               entries_rotateLeftRight, entries_rotateRightLeft.
Qed.

Lemma entries_rebalanced a t k l r h :
  entries (balance (updateHeight (mkNode a t k l r h))) = entries l ++ (k, t) :: entries r.
Proof. now rewrite entries_balance, entries_updateHeight. Qed.

(** ** Search-tree order and the key/priority link *)

Lemma entry_insert_left e d l1 l2 :
  fst e < fst d ->
  entry_insert e (l1 ++ d :: l2) = entry_insert e l1 ++ d :: l2.
Proof.
  intros Hlt. induction l1 as [|c l1 IH]; simpl.
  - apply Z.ltb_lt in Hlt. now rewrite Hlt.
  - destruct (fst e <? fst c); [reflexivity|]. now rewrite IH.
Qed.

Lemma entry_insert_right e d l1 l2 :
  Forall (fun c => fst c < fst e) l1 -> fst d < fst e ->
  entry_insert e (l1 ++ d :: l2) = l1 ++ d :: entry_insert e l2.
Proof.
  intros Hall Hlt. induction Hall as [|c l1 Hc Hall IH]; simpl.
  - destruct (fst e <? fst d) eqn:E; [apply Z.ltb_lt in E; lia|reflexivity].
  - destruct (fst e <? fst c) eqn:E; [apply Z.ltb_lt in E; lia|]. now rewrite IH.
Qed.

Lemma entry_insert_perm e l : entry_insert e l ≡ₚ e :: l.
Proof.
  induction l as [|d l IH]; simpl; [reflexivity|].
  destruct (fst e <? fst d); [reflexivity|].
  rewrite IH. apply perm_swap.
Qed.

Lemma entry_insert_sorted e l :
  StronglySorted Z.lt (map fst l) -> fst e ∉ map fst l ->
  StronglySorted Z.lt (map fst (entry_insert e l)).
Proof.
  induction l as [|d l IH]; simpl; intros Hs Hn.
  - constructor; constructor.
  - apply StronglySorted_cons in Hs as [Hd Hs].
    apply not_elem_of_cons in Hn as [Hne Hn].
    destruct (fst e <? fst d) eqn:E; simpl.
    + apply Z.ltb_lt in E. apply StronglySorted_cons. split.
      * constructor; [exact E|]. eapply Forall_impl; [exact Hd|]. simpl; lia.
      * apply StronglySorted_cons. now split.
    + apply Z.ltb_ge in E. apply StronglySorted_cons. split.
      * rewrite (entry_insert_perm e l). simpl. constructor; [lia|exact Hd].
      * now apply IH.
Qed.

Lemma keys_node a t k l r h :
  keys (mkNode a t k l r h) = keys l ++ k :: keys r.
Proof. unfold keys; simpl. now rewrite map_app. Qed.

Lemma bst_node a t k l r h :
  bst (mkNode a t k l r h) <->
  bst l /\ bst r /\ Forall (fun x => x < k) (keys l) /\ Forall (fun x => k < x) (keys r).
Proof.
  unfold bst. rewrite keys_node, StronglySorted_app, StronglySorted_cons.
  rewrite !Forall_forall. split.
  - intros (H1 & H2 & H3 & H4). repeat split; auto.
    intros x Hx. apply (H1 x k Hx). left.
  - intros (H1 & H2 & H3 & H4). repeat split; auto.
    intros x1 x2 Hx1 Hx2. apply elem_of_cons in Hx2 as [->|Hx2]; [auto|].
    specialize (H3 x1 Hx1). specialize (H4 x2 Hx2). lia.
Qed.

Lemma keys_rebalanced a t k l r h :
  keys (balance (updateHeight (mkNode a t k l r h))) = keys l ++ k :: keys r.
Proof. unfold keys. rewrite entries_rebalanced, map_app. reflexivity. Qed.

(** A throwing [insertHelper] has written nothing. *)
Lemma insertHelper_throw node task st e st' :
  insertHelper node task st = (Throw e, st') ->
  e = DuplicatePriorityKey /\ st' = st /\ priority task ∈ keys node.
Proof.
  revert st e st'.
  induction node as [|a t k l IHl r IHr h]; intros st e st'; simpl.
  - unfold new_node. discriminate.
  - rewrite keys_node.
    destruct (priority task <? k) eqn:E1.
    + unfold bind. destruct (insertHelper l task st) as [[n'|e'] st1] eqn:El.
      * unfold ret. discriminate.
      * intros [= <- <-]. destruct (IHl _ _ _ El) as (-> & -> & Hin).
        repeat split. apply elem_of_app. now left.
    + destruct (k <? priority task) eqn:E2.
      * unfold bind. destruct (insertHelper r task st) as [[n'|e'] st1] eqn:Er.
        -- unfold ret. discriminate.
        -- intros [= <- <-]. destruct (IHr _ _ _ Er) as (-> & -> & Hin).
           repeat split. apply elem_of_app. right. now right.
      * unfold throw. intros [= <- <-]. repeat split.
        apply Z.ltb_ge in E1, E2. assert (priority task = k) as -> by lia.
        apply elem_of_app. right. left.
Qed.

(** A returning [insertHelper] has put the task at its place in key order,
    allocated one node and recorded it under the task's id. *)
Lemma insertHelper_ok node task st n' st' :
  bst node ->
  insertHelper node task st = (Ok n', st') ->
  entries n' = entry_insert (entry_of task) (entries node)
  /\ st' = mkStore (<[id task := st_next st]> (st_idMap st)) (S (st_next st))
  /\ priority task ∉ keys node.
Proof.
  revert st n' st'.
  induction node as [|a t k l IHl r IHr h]; intros st n' st' Hb; simpl.
  - unfold new_node. intros [= <- <-]. repeat split. apply not_elem_of_nil.
  - apply bst_node in Hb as (Hbl & Hbr & Hl & Hr).
    rewrite keys_node.
    destruct (priority task <? k) eqn:E1.
    + apply Z.ltb_lt in E1.
      unfold bind. destruct (insertHelper l task st) as [[l'|e'] st1] eqn:El;
        [|discriminate].
      unfold ret. intros [= <- <-].
      destruct (IHl _ _ _ Hbl El) as (He & -> & Hn).
      rewrite entries_rebalanced, He. repeat split.
      * symmetry. now apply entry_insert_left.
      * rewrite not_elem_of_app, not_elem_of_cons. repeat split; auto; [lia|].
        intros Hin. rewrite Forall_forall in Hr. specialize (Hr _ Hin). lia.
    + destruct (k <? priority task) eqn:E2; [|discriminate].
      apply Z.ltb_lt in E2.
      unfold bind. destruct (insertHelper r task st) as [[r'|e'] st1] eqn:Er;
        [|discriminate].
      unfold ret. intros [= <- <-].
      destruct (IHr _ _ _ Hbr Er) as (He & -> & Hn).
      rewrite entries_rebalanced, He. repeat split.
      * symmetry. apply entry_insert_right; [|exact E2].
        unfold keys in Hl. rewrite Forall_map in Hl.
        eapply Forall_impl; [exact Hl|]. simpl. intros; lia.
      * rewrite not_elem_of_app, not_elem_of_cons. repeat split; auto; [|lia].
        intros Hin. rewrite Forall_forall in Hl. specialize (Hl _ Hin). lia.
Qed.

Lemma insertHelper_bst node task st n' st' :
  bst node -> insertHelper node task st = (Ok n', st') -> bst n'.
Proof.
  intros Hb H. destruct (insertHelper_ok _ _ _ _ _ Hb H) as (He & _ & Hn).
  unfold bst, keys. rewrite He. now apply entry_insert_sorted.
Qed.

Lemma insertHelper_keyed node task st n' st' :
  bst node -> keyed node -> insertHelper node task st = (Ok n', st') -> keyed n'.
Proof.
  intros Hb Hk H. destruct (insertHelper_ok _ _ _ _ _ Hb H) as (He & _ & _).
  unfold keyed. rewrite He, (entry_insert_perm _ _). now constructor.
Qed.

(** [insertHelper] throws exactly when the key is already in the tree. *)
Lemma insertHelper_fresh_key node task st :
  priority task ∉ keys node -> exists n' st', insertHelper node task st = (Ok n', st').
Proof.
  intros Hn. destruct (insertHelper node task st) as [[n'|e] st'] eqn:E; [eauto|].
  apply insertHelper_throw in E as (_ & _ & Hin). contradiction.
Qed.

(** ** Deletion *)

Lemma filter_keeps_all key (l : list (Z * Task)) :
  Forall (fun x => x <> key) (map fst l) -> filter (key_is_not key) l = l.
Proof.
  induction l as [|e l IH]; simpl; intros H; [reflexivity|].
  apply Forall_cons in H as [He H].
  rewrite filter_cons_True by exact He. now rewrite IH.
Qed.

Lemma findMin_head a t k l r h :
  exists b tm km mr hm rest,
    findMin (mkNode a t k l r h) = mkNode b tm km nullptr mr hm
    /\ entries (mkNode a t k l r h) = (km, tm) :: rest.
Proof.
  revert a t k r h.
  induction l as [|a' t' k' l' IHl r' _ h']; intros a t k r h.
  - simpl. eauto 10.
  - destruct (IHl a' t' k' r' h') as (b & tm & km & mr & hm & rest & Hf & He).
    exists b, tm, km, mr, hm, (rest ++ (k, t) :: entries r). split.
    + exact Hf.
    + change (entries (mkNode a t k (mkNode a' t' k' l' r' h') r h))
        with (entries (mkNode a' t' k' l' r' h') ++ (k, t) :: entries r).
      now rewrite He.
Qed.

(** [deleteHelper] always returns; under the search-tree order it removes
    exactly the entry with the given key (none when the key is absent). *)
Lemma deleteHelper_entries node key st :
  bst node ->
  exists n' st',
    deleteHelper node key st = (Ok n', st')
    /\ entries n' = filter (key_is_not key) (entries node)
    /\ st_next st' = st_next st.
Proof.
  revert key st.
  induction node as [|a t k l IHl r IHr h]; intros key st Hb.
  - simpl. unfold ret. eauto.
  - pose proof Hb as Hb'.
    apply bst_node in Hb' as (Hbl & Hbr & Hl & Hr).
    simpl. destruct (key <? k) eqn:E1.
    + apply Z.ltb_lt in E1.
      destruct (IHl key st Hbl) as (l' & st' & Hd & He & Hn).
      unfold bind. rewrite Hd. unfold ret. eexists _, _. split; [reflexivity|].
      split; [|exact Hn].
      rewrite entries_rebalanced, He, filter_app.
      rewrite filter_cons_True by (unfold key_is_not; simpl; lia).
      rewrite (filter_keeps_all key (entries r)); [reflexivity|].
      eapply Forall_impl; [exact Hr|]. simpl; lia.
    + apply Z.ltb_ge in E1. destruct (k <? key) eqn:E2.
      * apply Z.ltb_lt in E2.
        destruct (IHr key st Hbr) as (r' & st' & Hd & He & Hn).
        unfold bind. rewrite Hd. unfold ret. eexists _, _. split; [reflexivity|].
        split; [|exact Hn].
        rewrite entries_rebalanced, He, filter_app.
        rewrite filter_cons_True by (unfold key_is_not; simpl; lia).
        rewrite (filter_keeps_all key (entries l)); [reflexivity|].
        eapply Forall_impl; [exact Hl|]. simpl; lia.
      * apply Z.ltb_ge in E2. assert (key = k) as -> by lia.
        assert (Hfl : filter (key_is_not k) (entries l) = entries l).
        { apply filter_keeps_all. eapply Forall_impl; [exact Hl|]. simpl; lia. }
        assert (Hfr : filter (key_is_not k) (entries r) = entries r).
        { apply filter_keeps_all. eapply Forall_impl; [exact Hr|]. simpl; lia. }
        assert (Hall : filter (key_is_not k) (entries l ++ (k, t) :: entries r)
                       = entries l ++ entries r).
        { rewrite filter_app, Hfl.
          rewrite filter_cons_False by (unfold key_is_not; simpl; lia).
          now rewrite Hfr. }
        rewrite Hall. unfold bind, idMap_erase.
        destruct l as [|al tl kl ll rl hl].
        { unfold ret. eexists _, _. split; [reflexivity|]. split; reflexivity. }
        destruct r as [|ar tr kr lr rr hr].
        { unfold ret. eexists _, _. split; [reflexivity|].
          split; [|reflexivity]. simpl. now rewrite app_nil_r. }
        destruct (findMin_head ar tr kr lr rr hr)
          as (b & tm & km & mr & hm & rest & Hf & He).
        rewrite Hf.
        match goal with |- context [deleteHelper ?n km ?s] =>
          destruct (IHr km s Hbr) as (r' & st' & Hd & Her & Hn) end.
        rewrite Hd. unfold ret. eexists _, _. split; [reflexivity|].
        split; [|exact Hn].
        rewrite entries_rebalanced, Her, He.
        rewrite filter_cons_False by (unfold key_is_not; simpl; lia).
        rewrite filter_keeps_all; [reflexivity|].
        unfold bst, keys in Hbr. rewrite He in Hbr. simpl in Hbr.
        apply StronglySorted_cons in Hbr as [Hlt _].
        eapply Forall_impl; [exact Hlt|]. simpl; lia.
Qed.

Lemma filter_sorted key (l : list (Z * Task)) :
  StronglySorted Z.lt (map fst l) ->
  StronglySorted Z.lt (map fst (filter (key_is_not key) l)).
Proof.
  induction l as [|e l IH]; simpl; intros H; [constructor|].
  apply StronglySorted_cons in H as [He H].
  destruct (decide (key_is_not key e)).
  - rewrite filter_cons_True by assumption. simpl.
    apply StronglySorted_cons. split; [|now apply IH].
    rewrite Forall_forall in *. intros x Hx. apply He.
    apply list_elem_of_fmap in Hx as (y & -> & Hy).
    apply list_elem_of_fmap. exists y. split; [reflexivity|].
    now apply list_elem_of_filter in Hy as [_ Hy].
  - rewrite filter_cons_False by assumption. now apply IH.
Qed.

Lemma deleteHelper_bst node key st n' st' :
  bst node -> deleteHelper node key st = (Ok n', st') -> bst n'.
Proof.
  intros Hb H. destruct (deleteHelper_entries node key st Hb) as (n & s & Hd & He & _).
  rewrite Hd in H. injection H as <- <-.
  unfold bst, keys. rewrite He. now apply filter_sorted.
Qed.

Lemma deleteHelper_keyed node key st n' st' :
  bst node -> keyed node -> deleteHelper node key st = (Ok n', st') -> keyed n'.
Proof.
  intros Hb Hk H. destruct (deleteHelper_entries node key st Hb) as (n & s & Hd & He & _).
  rewrite Hd in H. injection H as <- <-.
  unfold keyed in *. rewrite He. rewrite Forall_forall in *.
  intros x Hx. apply Hk. now apply list_elem_of_filter in Hx as [_ Hx].
Qed.

(** ** Height balance *)

Lemma avl_stored_height node : avl node -> getHeight node = Z.of_nat (tree_height node).
Proof.
  induction node as [|a t k l IHl r IHr h]; simpl; [reflexivity|].
  intros (Hl & Hr & -> & _). rewrite (IHl Hl), (IHr Hr). lia.
Qed.

Lemma avl_height_nonneg node : avl node -> 0 <= getHeight node.
Proof. intros H. rewrite (avl_stored_height _ H). lia. Qed.

Lemma avl_node_height_pos a t k l r h : avl (mkNode a t k l r h) -> 1 <= h.
Proof.
  intros (Hl & Hr & -> & _).
  pose proof (avl_height_nonneg _ Hl). lia.
Qed.

Ltac avl_facts :=
  repeat match goal with
  | H : avl (mkNode _ _ _ _ _ _) |- _ =>
      let Hl := fresh "Hl" in let Hr := fresh "Hr" in
      let Hh := fresh "Hh" in let Hb := fresh "Hb" in
      destruct H as (Hl & Hr & Hh & Hb)
  | H : avl ?n |- _ =>
      lazymatch goal with
      | _ : 0 <= getHeight n |- _ => fail
      | _ => pose proof (avl_height_nonneg _ H)
      end
  end.

(** The rebalancing step of [insertHelper] and [deleteHelper]: children that
    are balanced and differ by at most two give a balanced node. *)
Lemma balance_avl a t k l r h :
  avl l -> avl r -> -2 <= getHeight l - getHeight r <= 2 ->
  avl (balance (updateHeight (mkNode a t k l r h)))
  /\ Z.max (getHeight l) (getHeight r)
       <= getHeight (balance (updateHeight (mkNode a t k l r h)))
       <= 1 + Z.max (getHeight l) (getHeight r)
  /\ (-1 <= getHeight l - getHeight r <= 1 ->
      getHeight (balance (updateHeight (mkNode a t k l r h)))
      = 1 + Z.max (getHeight l) (getHeight r)).
Proof.
  intros Hl Hr Hd. unfold balance, updateHeight.
  cbn [getBalance node_left node_right].
  destruct (Z.ltb_spec 1 (getHeight l - getHeight r)) as [H1|H1].
  - destruct l as [|b tb kb bl br hb]; [avl_facts; simpl in *; lia|].
    cbn [getBalance].
    destruct (Z.ltb_spec (getHeight bl - getHeight br) 0) as [H2|H2].
    + destruct br as [|c tc kc cl cr hc]; [avl_facts; simpl in *; lia|].
      avl_facts. unfold rotateLeftRight, rotateLeft, rotateRight, updateHeight.
      simpl in *. repeat split; try assumption; lia.
    + avl_facts. unfold rotateRight, updateHeight.
      simpl in *. repeat split; try assumption; lia.
  - destruct (Z.ltb_spec (getHeight l - getHeight r) (-1)) as [H3|H3].
    + destruct r as [|b tb kb bl br hb]; [avl_facts; simpl in *; lia|].
      cbn [getBalance].
      destruct (Z.ltb_spec 0 (getHeight bl - getHeight br)) as [H2|H2].
      * destruct bl as [|c tc kc cl cr hc]; [avl_facts; simpl in *; lia|].
        avl_facts. unfold rotateRightLeft, rotateLeft, rotateRight, updateHeight.
        simpl in *. repeat split; try assumption; lia.
      * avl_facts. unfold rotateLeft, updateHeight.
        simpl in *. repeat split; try assumption; lia.
    + avl_facts. simpl. repeat split; try assumption; lia.
Qed.

Lemma insertHelper_avl node task st n' st' :
  avl node -> insertHelper node task st = (Ok n', st') ->
  avl n' /\ getHeight node <= getHeight n' <= getHeight node + 1.
Proof.
  revert st n' st'.
  induction node as [|a t k l IHl r IHr h]; intros st n' st' Ha; simpl.
  - unfold new_node. intros [= <- <-]. simpl. repeat split; lia.
  - destruct Ha as (Hl & Hr & -> & Hb).
    destruct (priority task <? k).
    + unfold bind. destruct (insertHelper l task st) as [[l'|e'] st1] eqn:El;
        [|discriminate].
      unfold ret. intros [= <- <-].
      destruct (IHl _ _ _ Hl El) as (Hl' & Hh).
      destruct (balance_avl a t k l' r (1 + Z.max (getHeight l) (getHeight r)) Hl' Hr)
        as (H1 & H2 & H3); [lia|].
      split; [exact H1|].
      destruct (Z_le_gt_dec (getHeight l' - getHeight r) 1); [rewrite H3|]; lia.
    + destruct (k <? priority task); [|discriminate].
      unfold bind. destruct (insertHelper r task st) as [[r'|e'] st1] eqn:Er;
        [|discriminate].
      unfold ret. intros [= <- <-].
      destruct (IHr _ _ _ Hr Er) as (Hr' & Hh).
      destruct (balance_avl a t k l r' (1 + Z.max (getHeight l) (getHeight r)) Hl Hr')
        as (H1 & H2 & H3); [lia|].
      split; [exact H1|].
      destruct (Z_le_gt_dec (-1) (getHeight l - getHeight r')); [rewrite H3|]; lia.
Qed.

Lemma deleteHelper_avl node key st n' st' :
  avl node -> deleteHelper node key st = (Ok n', st') ->
  avl n' /\ getHeight node - 1 <= getHeight n' <= getHeight node.
Proof.
  revert key st n' st'.
  induction node as [|a t k l IHl r IHr h]; intros key st n' st' Ha; simpl.
  - unfold ret. intros [= <- <-]. simpl. repeat split; lia.
  - destruct Ha as (Hl & Hr & -> & Hb).
    destruct (key <? k).
    + unfold bind. destruct (deleteHelper l key st) as [[l'|e'] st1] eqn:El;
        [|discriminate].
      unfold ret. intros [= <- <-].
      destruct (IHl _ _ _ _ Hl El) as (Hl' & Hh).
      destruct (balance_avl a t k l' r (1 + Z.max (getHeight l) (getHeight r)) Hl' Hr)
        as (H1 & H2 & H3); [lia|].
      split; [exact H1|].
      destruct (Z_le_gt_dec (-1) (getHeight l' - getHeight r)); [rewrite H3|]; lia.
    + destruct (k <? key).
      * unfold bind. destruct (deleteHelper r key st) as [[r'|e'] st1] eqn:Er;
          [|discriminate].
        unfold ret. intros [= <- <-].
        destruct (IHr _ _ _ _ Hr Er) as (Hr' & Hh).
        destruct (balance_avl a t k l r' (1 + Z.max (getHeight l) (getHeight r)) Hl Hr')
          as (H1 & H2 & H3); [lia|].
        split; [exact H1|].
        destruct (Z_le_gt_dec (getHeight l - getHeight r') 1); [rewrite H3|]; lia.
      * unfold bind, idMap_erase.
        destruct l as [|al tl kl ll rl hl].
        { unfold ret. intros [= <- <-]. split; [exact Hr|].
          pose proof (avl_height_nonneg _ Hr). simpl in *. lia. }
        destruct r as [|ar tr kr lr rr hr].
        { unfold ret. intros [= <- <-]. split; [exact Hl|].
          pose proof (avl_height_nonneg _ Hl). simpl in *. lia. }
        destruct (findMin_head ar tr kr lr rr hr)
          as (b & tm & km & mr & hm & rest & Hf & He).
        rewrite Hf.
        match goal with |- context [deleteHelper ?n km ?s] =>
          destruct (deleteHelper n km s) as [[r'|e'] st1] eqn:Er end;
          [|discriminate].
        unfold ret. intros [= <- <-].
        destruct (IHr _ _ _ _ Hr Er) as (Hr' & Hh).
        match goal with |- context [balance (updateHeight (mkNode a tm km ?L r' ?H))] =>
          destruct (balance_avl a tm km L r' H Hl Hr') as (H1 & H2 & H3);
            [simpl in *; lia|];
          split; [exact H1|];
          destruct (Z_le_gt_dec (getHeight L - getHeight r') 1)
        end; [rewrite H3|]; simpl in *; lia.
Qed.

(** [balance] rotates only nodes that have the child the rotation
    dereferences. *)
Lemma balance_rotates_nodes a t k l r h :
  avl l -> avl r ->
  (1 < getBalance (mkNode a t k l r h) ->
     has_left (mkNode a t k l r h) /\ (getBalance l < 0 -> has_right l))
  /\ (getBalance (mkNode a t k l r h) < -1 ->
     has_right (mkNode a t k l r h) /\ (0 < getBalance r -> has_left r)).
Proof.
  intros Hl Hr. split; intros Hb.
  - destruct l as [|b tb kb bl br hb]; [avl_facts; simpl in *; lia|].
    split; [exact I|]. intros H.
    destruct br; [avl_facts; simpl in *; lia|exact I].
  - destruct r as [|b tb kb bl br hb]; [avl_facts; simpl in *; lia|].
    split; [exact I|]. intros H.
    destruct bl; [avl_facts; simpl in *; lia|exact I].
Qed.

(** ** Invariants of the index *)

Lemma tree_inv_nullptr : tree_inv nullptr.
Proof. split; constructor. Qed.

Lemma insertHelper_inv node task st n' st' :
  tree_inv node -> insertHelper node task st = (Ok n', st') -> tree_inv n'.
Proof.
  intros [Hb Hk Ha] H. split.
  - eapply insertHelper_bst; eauto.
  - eapply insertHelper_keyed; eauto.
  - eapply insertHelper_avl; eauto.
Qed.

Lemma deleteHelper_inv node key st n' st' :
  tree_inv node -> deleteHelper node key st = (Ok n', st') -> tree_inv n'.
Proof.
  intros [Hb Hk Ha] H. split.
  - eapply deleteHelper_bst; eauto.
  - eapply deleteHelper_keyed; eauto.
  - eapply deleteHelper_avl; eauto.
Qed.

Lemma assign_root_insertHelper_inv task tree :
  tree_inv (root tree) ->
  tree_inv (root (snd (assign_root (insertHelper (root tree) task) tree))).
Proof.
  intros Hinv. unfold assign_root.
  destruct (insertHelper _ _ _) as [[n'|e] st'] eqn:E; simpl; [|exact Hinv].
  eapply insertHelper_inv; eauto.
Qed.

Lemma insert_inv task tree :
  tree_inv (root tree) -> tree_inv (root (snd (insert task tree))).
Proof.
  intros Hinv. unfold insert.
  destruct (idMap tree !! id task); [exact Hinv|].
  now apply assign_root_insertHelper_inv.
Qed.

Lemma insert_each_inv tasks tree :
  tree_inv (root tree) -> tree_inv (root (snd (insert_each tasks tree))).
Proof.
  revert tree. induction tasks as [|t rest IH]; intros tree Hinv; simpl.
  - exact Hinv.
  - pose proof (assign_root_insertHelper_inv t tree Hinv) as H.
    destruct (assign_root _ _) as [[[]|e] tree']; simpl in *.
    + now apply IH.
    + exact H.
Qed.

Lemma rebuild_inv tasks tree : tree_inv (root (snd (rebuild tasks tree))).
Proof. apply insert_each_inv, tree_inv_nullptr. Qed.

Lemma deleteTask_inv i tree :
  tree_inv (root tree) -> tree_inv (root (snd (deleteTask i tree))).
Proof.
  intros Hinv. unfold deleteTask.
  destruct (idMap tree !! i); [|exact Hinv].
  destruct (deref _ _) as [[|b t key l r h]|]; try exact Hinv.
  unfold assign_root.
  destruct (deleteHelper _ _ _) as [[n'|e] st'] eqn:E; simpl; [|exact Hinv].
  eapply deleteHelper_inv; eauto.
Qed.

Lemma reachable_inv tree : reachable tree -> tree_inv (root tree).
Proof.
  induction 1.
  - apply tree_inv_nullptr.
  - now apply insert_inv.
  - now apply rebuild_inv.
  - now apply deleteTask_inv.
Qed.

(** ** Rebuilding from a list in ascending priority order *)

Lemma entry_insert_last e l :
  Forall (fun c => fst c < fst e) l -> entry_insert e l = l ++ [e].
Proof.
  induction 1 as [|c l Hc _ IH]; simpl; [reflexivity|].
  destruct (fst e <? fst c) eqn:E; [apply Z.ltb_lt in E; lia|]. now rewrite IH.
Qed.

Lemma map_snd_entry_of tasks : map snd (map entry_of tasks) = tasks.
Proof. induction tasks; simpl; congruence. Qed.

Lemma map_fst_entry_of tasks : map fst (map entry_of tasks) = map priority tasks.
Proof. induction tasks; simpl; congruence. Qed.

Lemma insert_each_ascending tasks tree :
  StronglySorted Z.lt (keys (root tree) ++ map priority tasks) ->
  exists tree',
    insert_each tasks tree = (Ok tt, tree')
    /\ entries (root tree') = entries (root tree) ++ map entry_of tasks.
Proof.
  revert tree. induction tasks as [|t rest IH]; intros tree Hs; simpl.
  - exists tree. now rewrite app_nil_r.
  - assert (Hb : bst (root tree)) by (eapply StronglySorted_app_1_l; exact Hs).
    assert (Hlt : Forall (fun x => x < priority t) (keys (root tree))).
    { apply Forall_forall. intros x Hx.
      eapply StronglySorted_app_1_elem_of; [exact Hs|exact Hx|]. simpl. left. }
    assert (Hn : priority t ∉ keys (root tree)).
    { intros Hin. rewrite Forall_forall in Hlt. specialize (Hlt _ Hin). lia. }
    unfold assign_root.
    destruct (insertHelper_fresh_key (root tree) t
                (mkStore (idMap tree) (next tree)) Hn) as (n' & st' & Hi).
    rewrite Hi.
    destruct (insertHelper_ok _ _ _ _ _ Hb Hi) as (He & _ & _).
    rewrite entry_insert_last in He.
    2:{ unfold keys in Hlt. rewrite Forall_map in Hlt. exact Hlt. }
    destruct (IH (mkAVLTree n' (st_idMap st') (st_next st'))) as (tree' & Hr & He').
    + simpl. unfold keys. rewrite He, map_app. simpl.
      rewrite <- app_assoc. exact Hs.
    + exists tree'. split; [exact Hr|].
      rewrite He'. simpl. rewrite He, <- app_assoc. reflexivity.
Qed.

Lemma rebuild_ascending tasks tree :
  StronglySorted Z.lt (map priority tasks) ->
  exists tree', rebuild tasks tree = (Ok tt, tree') /\ listTasks tree' = tasks.
Proof.
  intros Hs. unfold rebuild.
  destruct (insert_each_ascending tasks (clear tree)) as (tree' & Hr & He).
  - exact Hs.
  - exists tree'. split; [exact Hr|].
    unfold listTasks. rewrite inOrder_entries, He. simpl.
    apply map_snd_entry_of.
Qed.

Lemma keyed_priorities node : keyed node -> map priority (inOrder node) = keys node.
Proof.
  unfold keyed, keys. rewrite inOrder_entries.
  induction (entries node) as [|e l IH]; simpl; intros H; [reflexivity|].
  apply Forall_cons in H as [He H]. now rewrite IH, He.
Qed.

(** C7 (P4, round trip).  In an index whose tree is in search-tree order
    (the keys are pairwise different) with every key equal to its task's
    priority, rebuilding from [listTasks()] does not throw and
    [listTasks()] is the same list afterwards, in ascending priority
    order. *)
Theorem rebuild_listTasks_round_trip (tree : AVLTree) :
  bst (root tree) -> keyed (root tree) ->
  exists tree',
    rebuild (listTasks tree) tree = (Ok tt, tree')
    /\ listTasks tree' = listTasks tree
    /\ StronglySorted Z.lt (map priority (listTasks tree')).
Proof.
  intros Hb Hk.
  assert (Hs : StronglySorted Z.lt (map priority (listTasks tree))).
  { unfold listTasks. rewrite (keyed_priorities _ Hk). exact Hb. }
  destruct (rebuild_ascending (listTasks tree) tree Hs) as (tree' & Hr & Hl).
  exists tree'. split; [exact Hr|]. split; [exact Hl|]. now rewrite Hl.
Qed.

Lemma rebuild_listTasks_round_trip_witness :
  exists tree',
    rebuild (listTasks sample_tree) sample_tree = (Ok tt, tree')
    /\ listTasks tree' = listTasks sample_tree
    /\ StronglySorted Z.lt (map priority (listTasks tree')).
Proof.
  apply (rebuild_listTasks_round_trip sample_tree).
  - vm_compute. repeat constructor.
  - vm_compute. repeat constructor.
Defined.

(** ** The height of a balanced tree *)

Lemma fib_step n : fib (S (S n)) = fib (S n) + fib n.
Proof.
  unfold fib. simpl. destruct (fib_pair n) as [a b]. simpl. lia.
Qed.

Lemma fib_nonneg n : 0 <= fib n /\ 0 <= fib (S n).
Proof.
  induction n as [|n [H1 H2]].
  - unfold fib; simpl; lia.
  - split; [exact H2|]. rewrite fib_step. lia.
Qed.

Lemma fib_S_le n : fib n <= fib (S n).
Proof.
  destruct n as [|n]; [unfold fib; simpl; lia|].
  rewrite fib_step. pose proof (fib_nonneg n). lia.
Qed.

Lemma fib_mono n m : (n <= m)%nat -> fib n <= fib m.
Proof.
  induction 1 as [|m _ IH]; [lia|].
  pose proof (fib_S_le m). lia.
Qed.

Lemma tree_size_entries node : tree_size node = length (entries node).
Proof.
  induction node as [|a t k l IHl r IHr h]; simpl; [reflexivity|].
  rewrite length_app. simpl. lia.
Qed.

(** A balanced tree of height [h] has at least [fib (h + 2) - 1] nodes. *)
Lemma avl_min_size node :
  avl node -> fib (tree_height node + 2) <= Z.of_nat (tree_size node) + 1.
Proof.
  induction node as [|a t k l IHl r IHr h]; intros Ha.
  - unfold fib; simpl; lia.
  - destruct Ha as (Hl & Hr & _ & Hb).
    rewrite (avl_stored_height _ Hl), (avl_stored_height _ Hr) in Hb.
    specialize (IHl Hl). specialize (IHr Hr).
    cbn [tree_height tree_size].
    replace (S (Nat.max (tree_height l) (tree_height r)) + 2)%nat
      with (S (S (S (Nat.max (tree_height l) (tree_height r))))) by lia.
    rewrite fib_step.
    destruct (Nat.max_spec (tree_height l) (tree_height r)) as [[Hlt ->]|[Hle ->]].
    + assert (fib (S (tree_height r)) <= fib (tree_height l + 2))
        by (apply fib_mono; lia).
      replace (S (S (tree_height r))) with (tree_height r + 2)%nat by lia. lia.
    + assert (fib (S (tree_height l)) <= fib (tree_height r + 2))
        by (apply fib_mono; lia).
      replace (S (S (tree_height l))) with (tree_height l + 2)%nat by lia. lia.
Qed.

(** Distinct values of a bounded range: there are no more of them than the
    range has. *)
Lemma sorted_range_length lo hi (l : list Z) :
  StronglySorted Z.lt l -> Forall (fun x => lo <= x <= hi) l -> lo <= hi + 1 ->
  Z.of_nat (length l) <= hi - lo + 1.
Proof.
  revert lo. induction l as [|x l IH]; intros lo Hs Hr Hlo; simpl length.
  - simpl. lia.
  - apply StronglySorted_cons in Hs as [Hx Hs].
    apply Forall_cons in Hr as [Hxr Hr].
    assert (Z.of_nat (length l) <= hi - (x + 1) + 1).
    { apply IH; [exact Hs| |lia].
      rewrite Forall_forall in *. intros y Hy.
      specialize (Hx y Hy). specialize (Hr y Hy). lia. }
    lia.
Qed.

Lemma int_keys_size node :
  bst node -> Forall int_range (keys node) ->
  Z.of_nat (tree_size node) <= 2 ^ 32.
Proof.
  intros Hb Hi. rewrite tree_size_entries.
  pose proof (sorted_range_length INT_MIN INT_MAX (keys node) Hb Hi) as H.
  unfold keys in H. rewrite length_map in H.
  unfold INT_MIN, INT_MAX in H. lia.
Qed.

Lemma height_bound_checked :
  forallb height_bound_check (seq 1 46) = true.
Proof. vm_compute. reflexivity. Qed.

Lemma avl_height_bound node :
  tree_inv node -> Forall int_range (keys node) ->
  height_bound (tree_height node) (tree_size node).
Proof.
  intros Hinv Hint Hpos.
  pose proof (int_keys_size _ (inv_bst _ Hinv) Hint) as Hsize.
  pose proof (avl_min_size _ (inv_avl _ Hinv)) as Hfib.
  assert (Hh : (tree_height node < 47)%nat).
  { destruct (le_lt_dec 47 (tree_height node)) as [Hge|]; [|assumption].
    assert (fib 49 <= fib (tree_height node + 2)) by (apply fib_mono; lia).
    assert (fib 49 = 7778742049) by (vm_compute; reflexivity). lia. }
  pose proof height_bound_checked as Hc.
  rewrite forallb_forall in Hc.
  specialize (Hc (tree_height node)).
  assert (Hin : In (tree_height node) (seq 1 46)) by (apply in_seq; lia).
  specialize (Hc Hin). unfold height_bound_check in Hc.
  apply Z.ltb_lt in Hc.
  eapply Z.lt_le_trans; [exact Hc|].
  apply Z.pow_le_mono_l. pose proof (fib_nonneg (tree_height node + 2)). lia.
Qed.

Lemma ceiling_ge x : (x <= IZR (ceiling x))%R.
Proof.
  unfold ceiling. destruct (archimed (- x)) as [_ H].
  rewrite minus_IZR. simpl. lra.
Qed.

Lemma ln_2_pos : (0 < ln 2)%R.
Proof. rewrite <- ln_1. apply ln_increasing; lra. Qed.

Lemma height_bound_ceiling h n :
  height_bound h n ->
  Z.of_nat h <= ceiling (1.44 * log2R (IZR (Z.of_nat n + 2))).
Proof.
  intros Hb.
  assert (Hx : (IZR (Z.of_nat h) - 1 < 1.44 * log2R (IZR (Z.of_nat n + 2)))%R).
  { assert (Hn : (2 <= IZR (Z.of_nat n + 2))%R) by (apply IZR_le; lia).
    pose proof ln_2_pos as H2.
    assert (Hln : (ln 2 <= ln (IZR (Z.of_nat n + 2)))%R).
    { destruct Hn as [Hn| <-]; [left; apply ln_increasing; lra|right; reflexivity]. }
    unfold log2R.
    destruct h as [|h'].
    - assert (0 <= ln (IZR (Z.of_nat n + 2)) / ln 2)%R.
      { apply Rmult_le_pos; [lra|]. left. now apply Rinv_0_lt_compat. }
      set (x := (ln (IZR (Z.of_nat n + 2)) / ln 2)%R) in *. clearbody x.
      change (Z.of_nat 0) with 0. lra.
    - specialize (Hb ltac:(lia)).
      replace (25 * (Z.of_nat (S h') - 1)) with (Z.of_nat (25 * h')) in Hb by lia.
      change 36 with (Z.of_nat 36) in Hb.
      apply IZR_lt in Hb. rewrite <- !pow_IZR in Hb.
      apply ln_increasing in Hb; [|apply pow_lt; lra].
      rewrite !ln_pow in Hb by lra.
      rewrite mult_INR in Hb.
      replace (INR 25) with 25%R in Hb by (simpl; lra).
      replace (INR 36) with 36%R in Hb by (simpl; lra).
      rewrite Nat2Z.inj_succ, succ_IZR, <- INR_IZR_INZ.
      apply Rmult_lt_reg_r with (r := ln 2); [exact H2|].
      replace (1.44 * (ln (IZR (Z.of_nat n + 2)) / ln 2) * ln 2)%R
        with (1.44 * ln (IZR (Z.of_nat n + 2)))%R by (field; lra).
      lra. }
  pose proof (ceiling_ge (1.44 * log2R (IZR (Z.of_nat n + 2)))) as Hc.
  assert (IZR (Z.of_nat h - 1)
          < IZR (ceiling (1.44 * log2R (IZR (Z.of_nat n + 2)))))%R as H.
  { rewrite minus_IZR. lra. }
  apply lt_IZR in H. lia.
Qed.

Lemma avl_every_node_balanced node : avl node -> every_node node_balanced node.
Proof.
  induction node as [|a t k l IHl r IHr h]; simpl; [trivial|].
  intros (Hl & Hr & Hh & Hb). repeat split; auto;
    unfold balance_factor; simpl;
    rewrite <- (avl_stored_height _ Hl), <- (avl_stored_height _ Hr); lia.
Qed.

(** C8 (P6, balance).  After any sequence of [insert], [rebuild] and
    [deleteTask] calls every node's balance factor (the one [getBalance]
    reads from the stored heights, which is the difference of the real
    subtree heights) lies in [-1, 1], and the height of the tree is at most
    [ceil (1.44 * log2 (N + 2))] for [N] live tasks.  The keys are values
    of the C++ type [int]. *)
Theorem reachable_balanced_logarithmic (tree : AVLTree) :
  reachable tree ->
  Forall int_range (keys (root tree)) ->
  every_node node_balanced (root tree)
  /\ Z.of_nat (tree_height (root tree))
     <= ceiling (1.44 * log2R (IZR (Z.of_nat (length (listTasks tree)) + 2))).
Proof.
  intros Hr Hint. pose proof (reachable_inv _ Hr) as Hinv. split.
  - apply avl_every_node_balanced, Hinv.
  - apply height_bound_ceiling.
    unfold listTasks. rewrite inOrder_entries, length_map, <- tree_size_entries.
    now apply avl_height_bound.
Qed.

Lemma reachable_balanced_logarithmic_witness :
  every_node node_balanced (root sample_tree)
  /\ Z.of_nat (tree_height (root sample_tree))
     <= ceiling (1.44 * log2R (IZR (Z.of_nat (length (listTasks sample_tree)) + 2))).
Proof.
  apply (reachable_balanced_logarithmic sample_tree).
  - apply reach_rebuild, reach_empty.
  - replace (keys (root sample_tree)) with [1; 2; 3] by (vm_compute; reflexivity).
    rewrite !Forall_cons, Forall_nil. unfold int_range, INT_MIN, INT_MAX. lia.
Defined.

(** ** Failing operations *)

Lemma deleteHelper_returns node key st :
  exists n' st', deleteHelper node key st = (Ok n', st').
Proof.
  revert key st.
  induction node as [|a t k l IHl r IHr h]; intros key st; simpl.
  - unfold ret. eauto.
  - destruct (key <? k).
    + destruct (IHl key st) as (l' & st' & Hd).
      unfold bind, ret. rewrite Hd. eauto.
    + destruct (k <? key).
      * destruct (IHr key st) as (r' & st' & Hd).
        unfold bind, ret. rewrite Hd. eauto.
      * unfold bind, idMap_erase, ret.
        destruct l as [|al tl kl ll rl hl]; [eauto|].
        destruct r as [|ar tr kr lr rr hr]; [eauto|].
        destruct (findMin_head ar tr kr lr rr hr)
          as (b & tm & km & mr & hm & rest & Hf & _).
        rewrite Hf.
        match goal with |- context [deleteHelper ?n km ?s] =>
          destruct (IHr km s) as (r' & st' & Hd) end.
        rewrite Hd. eauto.
Qed.

Lemma insert_throw task tree e tree' :
  insert task tree = (Throw e, tree') ->
  tree' = tree
  /\ ((e = DuplicateId /\ is_Some (idMap tree !! id task))
      \/ (e = DuplicatePriorityKey /\ priority task ∈ keys (root tree))).
Proof.
  unfold insert. destruct (idMap tree !! id task) as [a|] eqn:Hm.
  - intros [= <- <-]. split; [reflexivity|]. left. eauto.
  - unfold assign_root.
    destruct (insertHelper _ _ _) as [[n'|e'] st'] eqn:E; [discriminate|].
    intros [= <- <-].
    apply insertHelper_throw in E as (-> & -> & Hin).
    split; [destruct tree; reflexivity|]. right. auto.
Qed.

Lemma deleteTask_throw i tree e tree' :
  deleteTask i tree = (Throw e, tree') ->
  tree' = tree /\ e = NotFound /\ idMap tree !! i = None.
Proof.
  unfold deleteTask. destruct (idMap tree !! i) as [a|] eqn:Hm.
  - destruct (deref _ _) as [[|b t key l r h]|]; try discriminate.
    unfold assign_root.
    destruct (deleteHelper_returns (root tree) key (mkStore (idMap tree) (next tree)))
      as (n' & st' & ->). discriminate.
  - intros [= <- <-]. auto.
Qed.

(** A throwing [rebuild] stops in the middle of its loop: the index holds
    the tasks that precede the first one whose priority is already there. *)
Lemma insert_each_throw tasks tree e tree' :
  insert_each tasks tree = (Throw e, tree') ->
  e = DuplicatePriorityKey
  /\ exists done t rest,
       tasks = done ++ t :: rest
       /\ insert_each done tree = (Ok tt, tree')
       /\ priority t ∈ keys (root tree').
Proof.
  revert tree. induction tasks as [|t rest IH]; intros tree; simpl; [discriminate|].
  unfold assign_root.
  destruct (insertHelper _ _ _) as [[n'|e'] st'] eqn:E.
  - intros H. destruct (IH _ H) as (-> & done & t' & rest' & -> & Hd & Hin).
    split; [reflexivity|]. exists (t :: done), t', rest'.
    split; [reflexivity|]. split; [|exact Hin].
    simpl. unfold assign_root. rewrite E. exact Hd.
  - intros [= <- <-]. apply insertHelper_throw in E as (-> & -> & Hin).
    split; [reflexivity|]. exists [], t, rest.
    split; [reflexivity|]. split; [destruct tree; reflexivity|exact Hin].
Qed.

Lemma insert_each_keys tasks tree tree' :
  bst (root tree) ->
  insert_each tasks tree = (Ok tt, tree') ->
  bst (root tree') /\ keys (root tree') ≡ₚ keys (root tree) ++ map priority tasks.
Proof.
  revert tree. induction tasks as [|t rest IH]; intros tree Hb; simpl.
  - intros [= <-]. split; [exact Hb|]. now rewrite app_nil_r.
  - unfold assign_root.
    destruct (insertHelper _ _ _) as [[n'|e'] st'] eqn:E; [|discriminate].
    intros H. destruct (insertHelper_ok _ _ _ _ _ Hb E) as (He & _ & _).
    apply IH in H as [Hb' Hp]; [|simpl; eapply insertHelper_bst; eauto].
    split; [exact Hb'|]. rewrite Hp. simpl.
    unfold keys at 1. rewrite He, (entry_insert_perm _ _). simpl.
    fold (keys (root tree)).
    now rewrite <- Permutation_middle.
Qed.

(** C6, as the code has it.  A failing [insert] (the id is in the map:
    [DuplicateId]; the priority is a key of the tree:
    [DuplicatePriorityKey]) and a failing [deleteTask] (the id is not in
    the map: [NotFound]) leave tree and map as they were.  A failing
    [rebuild] does not: the old contents are gone and the index holds the
    tasks of the list that precede the first repeated priority.  [insert]
    of an id that is in the map always fails with [DuplicateId], and
    [deleteTask] of an id that is not in the map with [NotFound]. *)
Theorem failing_operation_effect (op : index_op) (tree : AVLTree)
    (e : error) (tree' : AVLTree) :
  (run_op op tree = (Throw e, tree') -> failure_effect op tree e tree')
  /\ (forall task, op = OpInsert task -> is_Some (idMap tree !! id task) ->
        run_op op tree = (Throw DuplicateId, tree))
  /\ (forall i, op = OpDelete i -> idMap tree !! i = None ->
        run_op op tree = (Throw NotFound, tree)).
Proof.
  split; [|split].
  - destruct op as [task|tasks|i]; simpl.
    + apply insert_throw.
    + unfold rebuild. intros H.
      apply insert_each_throw in H as (-> & done & t & rest & -> & Hd & Hin).
      split; [reflexivity|]. exists done, t, rest.
      split; [reflexivity|]. split; [exact Hd|].
      apply insert_each_keys in Hd as [_ Hp]; [|constructor].
      rewrite Hp in Hin. exact Hin.
    + apply deleteTask_throw.
  - intros task -> [a Ha]. simpl. unfold insert. now rewrite Ha.
  - intros i -> Hi. simpl. unfold deleteTask. now rewrite Hi.
Qed.

Lemma failing_rebuild_changes_index :
  fst (rebuild duplicate_priority_tasks sample_tree) = Throw DuplicatePriorityKey
  /\ listTasks (snd (rebuild duplicate_priority_tasks sample_tree))
     <> listTasks sample_tree.
Proof. split; [vm_compute; reflexivity|vm_compute; discriminate]. Qed.

Lemma failing_operation_effect_witness :
  failure_effect (OpInsert (mkTask "a" "again" "N/A" 9 "home" "incomplete" 1))
                 sample_tree DuplicateId sample_tree
  /\ failure_effect (OpInsert (mkTask "z" "new" "N/A" 2 "home" "incomplete" 1))
                 sample_tree DuplicatePriorityKey sample_tree
  /\ failure_effect (OpDelete "z") sample_tree NotFound sample_tree
  /\ failure_effect (OpRebuild duplicate_priority_tasks) sample_tree
                 DuplicatePriorityKey
                 (snd (rebuild duplicate_priority_tasks sample_tree)).
Proof.
  split; [|split; [|split]].
  - apply (failing_operation_effect
             (OpInsert (mkTask "a" "again" "N/A" 9 "home" "incomplete" 1))
             sample_tree DuplicateId sample_tree).
    vm_compute. reflexivity.
  - apply (failing_operation_effect
             (OpInsert (mkTask "z" "new" "N/A" 2 "home" "incomplete" 1))
             sample_tree DuplicatePriorityKey sample_tree).
    vm_compute. reflexivity.
  - apply (failing_operation_effect (OpDelete "z") sample_tree NotFound sample_tree).
    vm_compute. reflexivity.
  - apply (failing_operation_effect (OpRebuild duplicate_priority_tasks) sample_tree
             DuplicatePriorityKey
             (snd (rebuild duplicate_priority_tasks sample_tree))).
    vm_compute. reflexivity.
Defined.

(** ** Remaining hours and the new task *)

Lemma to_long_in_range z : long_range z -> to_long z = z.
Proof.
  unfold long_range, LONG_MIN, LONG_MAX, to_long. intros H.
  rewrite Z.mod_small; lia.
Qed.

(** C9.  For [int] answers the sum is computed in [long] without
    wrap-around and equals
    [years*365*24 + months*30*24 + days*24 + h], where [h] is the hours
    answer when years, months and days are all 0, and 0 otherwise. *)
Theorem computeRemainingHours_linear (years months days hours : Z) :
  int_range years -> int_range months -> int_range days -> int_range hours ->
  computeRemainingHours years months days hours
  = years * 365 * 24 + months * 30 * 24 + days * 24
    + (if (years =? 0) && (months =? 0) && (days =? 0) then hours else 0).
Proof.
  unfold int_range, INT_MIN, INT_MAX. intros Hy Hm Hd Hh.
  unfold computeRemainingHours, solicited_hours.
  set (h := if (years =? 0) && (months =? 0) && (days =? 0) then hours else 0).
  assert (Hh' : - 2 ^ 31 <= h <= 2 ^ 31 - 1).
  { subst h. destruct ((years =? 0) && (months =? 0) && (days =? 0)); lia. }
  clearbody h. unfold long_add, long_mul.
  repeat match goal with
  | |- context [to_long ?z] =>
      lazymatch z with
      | context [to_long _] => fail
      | _ => rewrite (to_long_in_range z)
               by (unfold long_range, LONG_MIN, LONG_MAX; lia)
      end
  end.
  reflexivity.
Qed.

Lemma computeRemainingHours_linear_witness :
  computeRemainingHours 1 2 3 4 = 1 * 365 * 24 + 2 * 30 * 24 + 3 * 24 + 0
  /\ computeRemainingHours 0 0 0 4 = 0 * 365 * 24 + 0 * 30 * 24 + 0 * 24 + 4.
Proof.
  split.
  - apply (computeRemainingHours_linear 1 2 3 4);
      unfold int_range, INT_MIN, INT_MAX; lia.
  - apply (computeRemainingHours_linear 0 0 0 4);
      unfold int_range, INT_MIN, INT_MAX; lia.
Defined.

Lemma string_length_append (s1 s2 : string) :
  String.length (s1 ++ s2) = (String.length s1 + String.length s2)%nat.
Proof. induction s1 as [|c s1 IH]; simpl; [reflexivity|]. now rewrite IH. Qed.

Lemma deadlineString_not_sentinel years months days hours :
  deadlineString years months days hours <> "N/A"%string.
Proof.
  intros H. apply (f_equal String.length) in H. revert H.
  unfold deadlineString.
  destruct ((years =? 0) && (months =? 0) && (days =? 0));
    repeat rewrite string_length_append; simpl; lia.
Qed.

(** C10.  The task that choice 1 builds has status ["incomplete"], carries
    the computed remaining hours and the rendered deadline (never the
    ["N/A"] sentinel), and its rank is the one of the incomplete branch of
    [rankForInsertion]: the branch for a new complete task is never taken. *)
Theorem inserted_task_is_incomplete
    (std_sort : list Task -> (Task -> Task -> bool) -> list Task)
    (inp : InsertInput) (tasks : list Task) :
  let newTask := fst (insertion_list std_sort inp tasks) in
  let total := computeRemainingHours (in_years inp) (in_months inp)
                                     (in_days inp) (in_hours inp) in
  new_task_fields inp
    = ("incomplete"%string, total,
       deadlineString (in_years inp) (in_months inp) (in_days inp) (in_hours inp))
  /\ status newTask = "incomplete"%string
  /\ remainingHours newTask = total
  /\ deadlineDetails newTask
     = deadlineString (in_years inp) (in_months inp) (in_days inp) (in_hours inp)
  /\ deadlineDetails newTask <> "N/A"%string
  /\ priority newTask = fst (rankForInsertion tasks "incomplete" total)
  /\ String.eqb (status newTask) "complete" = false
  /\ id newTask = in_id inp.
Proof.
  cbv zeta. unfold insertion_list.
  assert (Hf : new_task_fields inp
    = ("incomplete"%string,
       computeRemainingHours (in_years inp) (in_months inp) (in_days inp) (in_hours inp),
       deadlineString (in_years inp) (in_months inp) (in_days inp) (in_hours inp)))
    by reflexivity.
  rewrite Hf.
  destruct (rankForInsertion tasks "incomplete" _) as [p tasks'] eqn:E.
  simpl. repeat split. apply deadlineString_not_sentinel.
Qed.

(** ** The contract of [std::sort] *)

Lemma sorted_insert_perm comp x l : sorted_insert comp x l ≡ₚ x :: l.
Proof.
  induction l as [|y l IH]; simpl; [reflexivity|].
  destruct (comp x y); [reflexivity|]. rewrite IH. apply perm_swap.
Qed.

Lemma sorted_insert_sorted (f : Task -> Z) x l :
  StronglySorted (fun a b => f a <= f b) l ->
  StronglySorted (fun a b => f a <= f b)
                 (sorted_insert (fun a b => f a <? f b) x l).
Proof.
  induction l as [|y l IH]; simpl; intros Hs.
  - repeat constructor.
  - apply StronglySorted_cons in Hs as [Hy Hs].
    destruct (f x <? f y) eqn:E.
    + apply Z.ltb_lt in E. apply StronglySorted_cons. split.
      * constructor; [lia|]. eapply Forall_impl; [exact Hy|]. simpl; lia.
      * apply StronglySorted_cons. now split.
    + apply Z.ltb_ge in E. apply StronglySorted_cons. split.
      * rewrite (sorted_insert_perm _ x l). constructor; [lia|exact Hy].
      * now apply IH.
Qed.

Lemma insertion_sort_acc (f : Task -> Z) l acc :
  StronglySorted (fun a b => f a <= f b) acc ->
  fold_left (fun acc x => sorted_insert (fun a b => f a <? f b) x acc) l acc
    ≡ₚ l ++ acc
  /\ StronglySorted (fun a b => f a <= f b)
       (fold_left (fun acc x => sorted_insert (fun a b => f a <? f b) x acc) l acc).
Proof.
  revert acc. induction l as [|x l IH]; intros acc Hs; simpl.
  - split; [reflexivity|exact Hs].
  - destruct (IH (sorted_insert (fun a b => f a <? f b) x acc)) as [Hp Hs'].
    + now apply sorted_insert_sorted.
    + split; [|exact Hs']. rewrite Hp, (sorted_insert_perm _ x acc).
      now rewrite <- Permutation_middle.
Qed.

Lemma insertion_sort_contract : sort_contract insertion_sort.
Proof.
  intros f l. unfold insertion_sort.
  destruct (insertion_sort_acc f l []) as [Hp Hs]; [constructor|].
  split; [|exact Hs]. now rewrite Hp, app_nil_r.
Qed.

(** ** The [std::sort] of libstdc++ *)

Lemma insert_perm_cons (l : list Task) j a b :
  l !! j = Some b -> b :: <[j := a]> l ≡ₚ a :: l.
Proof.
  revert j. induction l as [|y l IH]; intros [|j]; simpl; try discriminate.
  - intros [= ->]. apply perm_swap.
  - intros Hj. rewrite perm_swap, (IH _ Hj). apply perm_swap.
Qed.

Lemma iter_swap_perm i j l : iter_swap i j l ≡ₚ l.
Proof.
  unfold iter_swap.
  destruct (l !! i) as [a|] eqn:Hi; [|reflexivity].
  destruct (l !! j) as [b|] eqn:Hj; [|reflexivity].
  revert i j Hi Hj. induction l as [|x l IH]; intros [|i] [|j]; simpl;
    try discriminate.
  - intros [= ->] [= ->]. reflexivity.
  - intros [= ->] Hj. now apply insert_perm_cons.
  - intros Hi [= ->]. now apply insert_perm_cons.
  - intros Hi Hj. apply perm_skip. now apply IH.
Qed.

Lemma move_median_to_first_perm comp l r a b c :
  move_median_to_first comp l r a b c ≡ₚ l.
Proof.
  unfold move_median_to_first.
  repeat match goal with |- context [if ?x then _ else _] => destruct x end;
    apply iter_swap_perm.
Qed.

Lemma unguarded_partition_perm comp fuel l first last pivot :
  snd (unguarded_partition comp fuel l first last pivot) ≡ₚ l.
Proof.
  revert l first last. induction fuel as [|fuel IH]; intros l first last; simpl;
    [reflexivity|].
  destruct (_ <? _)%nat; [|reflexivity].
  rewrite IH. apply iter_swap_perm.
Qed.

Lemma unguarded_partition_pivot_perm comp l :
  snd (unguarded_partition_pivot comp l) ≡ₚ l.
Proof.
  unfold unguarded_partition_pivot. rewrite unguarded_partition_perm.
  apply move_median_to_first_perm.
Qed.

Lemma push_heap_perm comp fuel l hole top : push_heap comp fuel l hole top ≡ₚ l.
Proof.
  revert l hole. induction fuel as [|fuel IH]; intros l hole; simpl;
    [reflexivity|].
  destruct (_ && _); [|reflexivity]. rewrite IH. apply iter_swap_perm.
Qed.

Lemma sift_down_perm comp fuel l hole len :
  snd (sift_down comp fuel l hole len) ≡ₚ l.
Proof.
  revert l hole. induction fuel as [|fuel IH]; intros l hole; simpl;
    [reflexivity|].
  destruct (_ <? _)%nat; [|reflexivity]. rewrite IH. apply iter_swap_perm.
Qed.

Lemma adjust_heap_perm comp l hole len : adjust_heap comp l hole len ≡ₚ l.
Proof.
  unfold adjust_heap.
  pose proof (sift_down_perm comp len l hole len) as H.
  destruct (sift_down comp len l hole len) as [h l1]. simpl in H.
  destruct (_ && _); rewrite push_heap_perm; [|exact H].
  now rewrite iter_swap_perm.
Qed.

Lemma pop_heap_perm comp l last result : pop_heap comp l last result ≡ₚ l.
Proof. unfold pop_heap. rewrite adjust_heap_perm. apply iter_swap_perm. Qed.

Lemma make_heap_perm comp l last : make_heap comp l last ≡ₚ l.
Proof.
  unfold make_heap. destruct (_ <? _)%nat; [reflexivity|].
  generalize ((last - 2) / 2)%nat as parent. intros parent. revert l.
  induction parent as [|parent IH]; intros l; simpl.
  - apply adjust_heap_perm.
  - rewrite IH. apply adjust_heap_perm.
Qed.

Lemma heap_select_perm comp l middle : heap_select comp l middle ≡ₚ l.
Proof.
  unfold heap_select.
  transitivity (make_heap comp l middle); [|apply make_heap_perm].
  generalize (make_heap comp l middle) as h.
  generalize (seq middle (length l - middle)) as idxs.
  induction idxs as [|i idxs IH]; intros h; simpl; [reflexivity|].
  rewrite IH. destruct (comp_at comp h i 0); [apply pop_heap_perm|reflexivity].
Qed.

Lemma sort_heap_perm comp l last : sort_heap comp l last ≡ₚ l.
Proof.
  revert l. induction last as [|last IH]; intros l; simpl; [reflexivity|].
  destruct (_ <? _)%nat; [|reflexivity]. rewrite IH. apply pop_heap_perm.
Qed.

Lemma partial_sort_perm comp l middle : partial_sort comp l middle ≡ₚ l.
Proof. unfold partial_sort. rewrite sort_heap_perm. apply heap_select_perm. Qed.

Lemma introsort_loop_perm comp depth l : introsort_loop comp depth l ≡ₚ l.
Proof.
  revert l. induction depth as [|depth IH]; intros l; simpl.
  - destruct (_ <? _)%nat; [apply partial_sort_perm|reflexivity].
  - destruct (_ <? _)%nat; [|reflexivity].
    pose proof (unguarded_partition_pivot_perm comp l) as H.
    destruct (unguarded_partition_pivot comp l) as [cut l1]. simpl in H.
    rewrite !IH, take_drop. exact H.
Qed.

Lemma linear_insert_back_perm comp val before :
  linear_insert_back comp val before ≡ₚ val :: before.
Proof.
  induction before as [|x l IH]; simpl; [reflexivity|].
  destruct (comp val x); [|reflexivity]. rewrite IH. apply perm_swap.
Qed.

Lemma unguarded_linear_insert_perm comp sorted val :
  unguarded_linear_insert comp sorted val ≡ₚ val :: sorted.
Proof.
  unfold unguarded_linear_insert.
  rewrite <- Permutation_rev, linear_insert_back_perm.
  apply perm_skip. symmetry. apply Permutation_rev.
Qed.

Lemma insertion_sort_from_perm comp sorted rest :
  insertion_sort_from comp sorted rest ≡ₚ sorted ++ rest.
Proof.
  unfold insertion_sort_from. revert sorted.
  induction rest as [|v rest IH]; intros sorted; simpl.
  - now rewrite app_nil_r.
  - rewrite IH. rewrite <- Permutation_middle.
    apply (Permutation_app_tail rest (l' := v :: sorted)).
    destruct sorted as [|f s]; [reflexivity|].
    destruct (comp v f); [reflexivity|apply unguarded_linear_insert_perm].
Qed.

Lemma std_insertion_sort_perm comp l : std_insertion_sort comp l ≡ₚ l.
Proof.
  destruct l as [|x l]; [reflexivity|]. simpl.
  now rewrite insertion_sort_from_perm.
Qed.

Lemma unguarded_insertion_sort_perm comp sorted rest :
  unguarded_insertion_sort comp sorted rest ≡ₚ sorted ++ rest.
Proof.
  unfold unguarded_insertion_sort. revert sorted.
  induction rest as [|v rest IH]; intros sorted; simpl.
  - now rewrite app_nil_r.
  - rewrite IH, unguarded_linear_insert_perm. now rewrite <- Permutation_middle.
Qed.

Lemma final_insertion_sort_perm comp l : final_insertion_sort comp l ≡ₚ l.
Proof.
  unfold final_insertion_sort. destruct (_ <? _)%nat.
  - rewrite unguarded_insertion_sort_perm, std_insertion_sort_perm.
    now rewrite take_drop.
  - apply std_insertion_sort_perm.
Qed.

Section InsertionSorts.

Variable f : Task -> Z.

Lemma strongly_sorted_rev (l : list Task) :
  StronglySorted (fun a b => f b <= f a) l ->
  StronglySorted (fun a b => f a <= f b) (rev l).
Proof.
  induction 1 as [|x l _ IH Hx]; simpl; [constructor|].
  apply StronglySorted_app. split; [|split; [exact IH|repeat constructor]].
  intros x1 x2 Hx1 Hx2. apply list_elem_of_singleton in Hx2 as ->.
  rewrite <- Permutation_rev in Hx1. rewrite Forall_forall in Hx.
  exact (Hx _ Hx1).
Qed.

Lemma strongly_sorted_rev_desc (l : list Task) :
  StronglySorted (fun a b => f a <= f b) l ->
  StronglySorted (fun a b => f b <= f a) (rev l).
Proof.
  induction 1 as [|x l _ IH Hx]; simpl; [constructor|].
  apply StronglySorted_app. split; [|split; [exact IH|repeat constructor]].
  intros x1 x2 Hx1 Hx2. apply list_elem_of_singleton in Hx2 as ->.
  rewrite <- Permutation_rev in Hx1. rewrite Forall_forall in Hx.
  exact (Hx _ Hx1).
Qed.

Lemma linear_insert_back_sorted val before :
  StronglySorted (fun a b => f b <= f a) before ->
  StronglySorted (fun a b => f b <= f a)
    (linear_insert_back (fun a b => f a <? f b) val before).
Proof.
  induction 1 as [|x l Hs IH Hx]; simpl; [repeat constructor|].
  destruct (f val <? f x) eqn:E.
  - apply Z.ltb_lt in E. constructor; [exact IH|].
    rewrite linear_insert_back_perm. constructor; [lia|exact Hx].
  - apply Z.ltb_ge in E. constructor; [now constructor|].
    constructor; [exact E|].
    eapply Forall_impl; [exact Hx|]. simpl. intros; lia.
Qed.

Lemma unguarded_linear_insert_sorted sorted val :
  StronglySorted (fun a b => f a <= f b) sorted ->
  StronglySorted (fun a b => f a <= f b)
    (unguarded_linear_insert (fun a b => f a <? f b) sorted val).
Proof.
  intros Hs. unfold unguarded_linear_insert. apply strongly_sorted_rev.
  apply linear_insert_back_sorted. now apply strongly_sorted_rev_desc.
Qed.

Lemma insertion_sort_from_sorted sorted rest :
  StronglySorted (fun a b => f a <= f b) sorted ->
  StronglySorted (fun a b => f a <= f b)
    (insertion_sort_from (fun a b => f a <? f b) sorted rest).
Proof.
  unfold insertion_sort_from. revert sorted.
  induction rest as [|v rest IH]; intros sorted Hs; simpl; [exact Hs|].
  apply IH. destruct sorted as [|x s]; [repeat constructor|].
  destruct (f v <? f x) eqn:E.
  - apply Z.ltb_lt in E. constructor; [exact Hs|].
    apply StronglySorted_cons in Hs as [Hx _].
    constructor; [lia|].
    eapply Forall_impl; [exact Hx|]. simpl. intros; lia.
  - now apply unguarded_linear_insert_sorted.
Qed.

Lemma std_insertion_sort_sorted l :
  StronglySorted (fun a b => f a <= f b)
    (std_insertion_sort (fun a b => f a <? f b) l).
Proof.
  destruct l as [|x l]; simpl; [constructor|].
  apply insertion_sort_from_sorted. repeat constructor.
Qed.

Lemma final_insertion_sort_sorted l :
  StronglySorted (fun a b => f a <= f b)
    (final_insertion_sort (fun a b => f a <? f b) l).
Proof.
  unfold final_insertion_sort. destruct (_ <? _)%nat;
    [|apply std_insertion_sort_sorted].
  unfold unguarded_insertion_sort.
  generalize (std_insertion_sort_sorted (take S_threshold l)).
  generalize (std_insertion_sort (fun a b => f a <? f b) (take S_threshold l))
    as sorted.
  induction (drop S_threshold l) as [|v rest IH]; intros sorted Hs; simpl;
    [exact Hs|].
  apply IH. now apply unguarded_linear_insert_sorted.
Qed.

End InsertionSorts.

(** The [std::sort] of libstdc++ meets the contract: the introsort loop
    only exchanges elements, and the final insertion sort sorts. *)
Lemma libstdcxx_sort_contract : sort_contract libstdcxx_sort.
Proof.
  intros f l. unfold libstdcxx_sort. destruct l as [|x l]; [split; constructor|].
  split.
  - rewrite final_insertion_sort_perm. apply introsort_loop_perm.
  - apply final_insertion_sort_sorted.
Qed.

(** On ranges of at most 16 elements the [std::sort] of libstdc++ is the
    insertion sort [insertion_sort]: the introsort loop does nothing, and
    on a sorted range the search from the back of [__insertion_sort]
    finds the place that the search from the front finds. *)

Lemma linear_insert_back_stop comp val before x :
  comp val x = false ->
  linear_insert_back comp val (before ++ [x])
  = linear_insert_back comp val before ++ [x].
Proof.
  intros Hx. induction before as [|y l IH]; simpl.
  - now rewrite Hx.
  - destruct (comp val y); [now rewrite IH|reflexivity].
Qed.

Lemma linear_insert_back_pass comp val before rest :
  Forall (fun y => comp val y = true) before ->
  linear_insert_back comp val (before ++ rest)
  = before ++ linear_insert_back comp val rest.
Proof.
  induction 1 as [|y l Hy _ IH]; simpl; [reflexivity|].
  now rewrite Hy, IH.
Qed.

Lemma unguarded_linear_insert_front (f : Task -> Z) sorted val :
  StronglySorted (fun a b => f a <= f b) sorted ->
  unguarded_linear_insert (fun a b => f a <? f b) sorted val
  = sorted_insert (fun a b => f a <? f b) val sorted.
Proof.
  unfold unguarded_linear_insert.
  induction 1 as [|x s _ IH Hx]; simpl; [reflexivity|].
  destruct (f val <? f x) eqn:E.
  - rewrite linear_insert_back_pass.
    + simpl. rewrite E, rev_app_distr, rev_involutive. reflexivity.
    + apply Z.ltb_lt in E.
      apply Forall_forall. intros y Hy. rewrite <- Permutation_rev in Hy.
      rewrite Forall_forall in Hx. specialize (Hx _ Hy). simpl in Hx.
      apply Z.ltb_lt. lia.
  - rewrite linear_insert_back_stop by exact E.
    rewrite rev_app_distr. simpl. now rewrite IH.
Qed.

Lemma std_insertion_sort_front (f : Task -> Z) (l : list Task) :
  std_insertion_sort (fun a b => f a <? f b) l
  = insertion_sort l (fun a b => f a <? f b).
Proof.
  unfold insertion_sort. destruct l as [|x rest]; [reflexivity|].
  simpl. unfold insertion_sort_from.
  assert (Hs : StronglySorted (fun a b => f a <= f b) [x])
    by repeat constructor.
  revert Hs. generalize [x] as sorted.
  induction rest as [|v rest IH]; intros sorted Hs; simpl; [reflexivity|].
  assert (Hstep : match sorted with
                  | [] => [v]
                  | first :: _ =>
                      if f v <? f first then v :: sorted
                      else unguarded_linear_insert
                             (fun a b => f a <? f b) sorted v
                  end
                  = sorted_insert (fun a b => f a <? f b) v sorted).
  { destruct sorted as [|y s]; [reflexivity|]. simpl.
    destruct (f v <? f y) eqn:E; [reflexivity|].
    rewrite (unguarded_linear_insert_front f (y :: s) v Hs). simpl.
    now rewrite E. }
  rewrite Hstep. apply IH. now apply sorted_insert_sorted.
Qed.

Lemma libstdcxx_sort_small (f : Task -> Z) (l : list Task) :
  (length l <= S_threshold)%nat ->
  libstdcxx_sort l (fun a b => f a <? f b)
  = insertion_sort l (fun a b => f a <? f b).
Proof.
  intros Hlen. unfold libstdcxx_sort. destruct l as [|x l]; [reflexivity|].
  assert (Hlt : (S_threshold <? length (x :: l))%nat = false)
    by (apply Nat.ltb_ge; exact Hlen).
  assert (Hloop : forall d, introsort_loop (fun a b => f a <? f b) d (x :: l)
                            = x :: l).
  { intros d. destruct d; simpl; simpl in Hlt; now rewrite Hlt. }
  rewrite Hloop. unfold final_insertion_sort. rewrite Hlt.
  apply std_insertion_sort_front.
Qed.

(** ** Renumbering *)

Lemma assign_priorities_forget p l :
  map forget_priority (assign_priorities p l) = map forget_priority l.
Proof.
  revert p. induction l as [|t l IH]; intros p; simpl; [reflexivity|].
  now rewrite IH.
Qed.

Lemma assign_priorities_priority p l :
  map priority (assign_priorities p l)
  = map (fun i => p + Z.of_nat i) (seq 0 (length l)).
Proof.
  revert p. induction l as [|t l IH]; intros p; simpl; [reflexivity|].
  rewrite IH, <- seq_shift, map_map. f_equal; [lia|].
  apply map_ext. intros; lia.
Qed.

Lemma assign_priorities_bounds p l :
  Forall (fun t => p <= priority t) (assign_priorities p l).
Proof.
  revert p. induction l as [|t l IH]; intros p; simpl; constructor.
  - simpl. lia.
  - eapply Forall_impl; [apply IH|]. simpl; intros; lia.
Qed.

Lemma assign_priorities_ascending p l :
  StronglySorted Z.lt (map priority (assign_priorities p l)).
Proof.
  revert p. induction l as [|t l IH]; intros p; simpl; constructor.
  - apply IH.
  - rewrite Forall_map. eapply Forall_impl; [apply (assign_priorities_bounds (p + 1))|].
    simpl; intros; lia.
Qed.

(** ** Renumbering after a status change *)

Lemma policy_order_complete l :
  Forall (fun t => is_incomplete t <> true) l -> StronglySorted policy_order l.
Proof.
  induction 1 as [|t l Ht Hl IH]; constructor; [exact IH|].
  eapply Forall_impl; [exact Hl|]. simpl. intros b Hb. split; intros; contradiction.
Qed.

Lemma policy_order_incomplete l :
  Forall (fun t => is_incomplete t = true) l ->
  StronglySorted (fun a b => remainingHours a <= remainingHours b) l ->
  StronglySorted policy_order l.
Proof.
  induction 1 as [|t l Ht Hl IH]; intros Hs; constructor.
  - apply IH. now apply StronglySorted_cons in Hs as [_ Hs].
  - apply StronglySorted_cons in Hs as [Hh _].
    eapply Forall_impl; [exact Hh|]. simpl. intros b Hb. split; auto.
Qed.

Lemma forget_priority_policy u u' :
  forget_priority u' = forget_priority u ->
  is_incomplete u' = is_incomplete u /\ remainingHours u' = remainingHours u.
Proof.
  intros H. unfold is_incomplete.
  apply (f_equal status) in H as Hs1.
  apply (f_equal remainingHours) in H as Hs2. simpl in *.
  now rewrite Hs1, Hs2.
Qed.

Lemma ranked_before_head t p l l' :
  Forall (policy_order t) l ->
  Forall (fun x => p + 1 <= priority x) l' ->
  map forget_priority l' = map forget_priority l ->
  Forall (ranked_before (set_priority p t)) l'.
Proof.
  revert l'. induction l as [|u l IHl]; intros l' Ht Hb Hf.
  - destruct l'; [constructor|discriminate].
  - destruct l' as [|u' l']; [discriminate|].
    apply Forall_cons in Ht as [Hu Ht]. apply Forall_cons in Hb as [Hu' Hb].
    cbn [map] in Hf.
    assert (Hfu : forget_priority u' = forget_priority u)
      by exact (f_equal (hd u) Hf).
    assert (Hfl : map forget_priority l' = map forget_priority l)
      by exact (f_equal (@tl Task) Hf).
    constructor; [|now apply IHl].
    split; [simpl; lia|].
    destruct (forget_priority_policy _ _ Hfu) as [Hi Hr].
    unfold policy_order in *. unfold is_incomplete in *. simpl.
    rewrite Hi, Hr. exact Hu.
Qed.

Lemma assign_priorities_ranked p l :
  StronglySorted policy_order l ->
  StronglySorted ranked_before (assign_priorities p l).
Proof.
  revert p. induction l as [|t l IH]; intros p Hs; simpl; constructor.
  - apply IH. now apply StronglySorted_cons in Hs as [_ Hs].
  - apply StronglySorted_cons in Hs as [Ht _].
    apply (ranked_before_head t p l); [exact Ht| |].
    + apply assign_priorities_bounds.
    + apply assign_priorities_forget.
Qed.

Lemma strongly_sorted_pairs {A} (R : relation A) (l : list A) a b :
  StronglySorted R l -> a ∈ l -> b ∈ l -> a = b \/ R a b \/ R b a.
Proof.
  induction 1 as [|x l Hs IH Hx]; intros Ha Hb.
  - now apply elem_of_nil in Ha.
  - rewrite Forall_forall in Hx.
    apply elem_of_cons in Ha as [->|Ha]; apply elem_of_cons in Hb as [->|Hb]; auto.
Qed.

Section Renumbering.

Variable std_sort : list Task -> (Task -> Task -> bool) -> list Task.
Hypothesis std_sort_contract : sort_contract std_sort.

Lemma renumberOnStatusChange_parts tasks :
  exists inc comp,
    renumberOnStatusChange std_sort tasks = assign_priorities 1 (inc ++ comp)
    /\ inc ≡ₚ filter (fun t => is_incomplete t = true) tasks
    /\ comp ≡ₚ filter (fun t => is_incomplete t <> true) tasks
    /\ StronglySorted (fun a b => remainingHours a <= remainingHours b) inc
    /\ StronglySorted (fun a b => priority a <= priority b) comp.
Proof.
  unfold renumberOnStatusChange.
  destruct (std_sort_contract remainingHours
              (filter (fun t => is_incomplete t = true) tasks)) as [Hp1 Hs1].
  destruct (std_sort_contract priority
              (filter (fun t => is_incomplete t <> true) tasks)) as [Hp2 Hs2].
  eexists _, _. split; [reflexivity|]. auto.
Qed.

Lemma filter_partition_perm (tasks : list Task) :
  filter (fun t => is_incomplete t = true) tasks
    ++ filter (fun t => is_incomplete t <> true) tasks ≡ₚ tasks.
Proof.
  induction tasks as [|t l IH]; [reflexivity|].
  destruct (decide (is_incomplete t = true)) as [H|H].
  - rewrite filter_cons_True by exact H.
    rewrite filter_cons_False by tauto. simpl. now rewrite IH.
  - rewrite filter_cons_False by exact H.
    rewrite filter_cons_True by exact H.
    rewrite <- Permutation_middle. now rewrite IH.
Qed.

Lemma renumberOnStatusChange_perm tasks :
  map forget_priority (renumberOnStatusChange std_sort tasks)
    ≡ₚ map forget_priority tasks.
Proof.
  destruct (renumberOnStatusChange_parts tasks)
    as (inc & comp & -> & Hi & Hc & _ & _).
  rewrite assign_priorities_forget. apply Permutation_map.
  rewrite Hi, Hc. apply filter_partition_perm.
Qed.

Lemma renumberOnStatusChange_length tasks :
  length (renumberOnStatusChange std_sort tasks) = length tasks.
Proof.
  rewrite <- (length_map forget_priority), renumberOnStatusChange_perm.
  apply length_map.
Qed.

Lemma renumberOnStatusChange_ranked tasks :
  StronglySorted ranked_before (renumberOnStatusChange std_sort tasks).
Proof.
  destruct (renumberOnStatusChange_parts tasks)
    as (inc & comp & -> & Hi & Hc & Hs & _).
  apply assign_priorities_ranked.
  assert (Hinc : Forall (fun t => is_incomplete t = true) inc).
  { apply Forall_forall. intros t Ht. rewrite Hi in Ht.
    now apply list_elem_of_filter in Ht as [Ht _]. }
  assert (Hcomp : Forall (fun t => is_incomplete t <> true) comp).
  { apply Forall_forall. intros t Ht. rewrite Hc in Ht.
    now apply list_elem_of_filter in Ht as [Ht _]. }
  apply StronglySorted_app. split; [|split].
  - intros a b Ha Hb. rewrite Forall_forall in Hinc, Hcomp.
    split; intros H; [|intros H']; exfalso; eapply Hcomp; eauto.
  - now apply policy_order_incomplete.
  - now apply policy_order_complete.
Qed.

(** C4, as the code has it.  The renumbered list holds the same tasks,
    with priorities 1..N by position; incomplete tasks precede complete
    ones, and of two incomplete tasks the one with the smaller priority
    has no more remaining hours than the other.  The order of incomplete
    tasks with equal remaining hours is whatever [std::sort] returns. *)
Theorem renumberOnStatusChange_sorts (tasks : list Task) :
  let out := renumberOnStatusChange std_sort tasks in
  map priority out = map (fun i => 1 + Z.of_nat i) (seq 0 (length tasks))
  /\ map forget_priority out ≡ₚ map forget_priority tasks
  /\ (forall a b, a ∈ out -> b ∈ out ->
        is_incomplete a = true -> is_incomplete b = true ->
        priority a < priority b -> remainingHours a <= remainingHours b)
  /\ (forall a b, a ∈ out -> b ∈ out ->
        is_incomplete a = true -> is_incomplete b <> true ->
        priority a < priority b).
Proof.
  cbv zeta. split; [|split; [|split]].
  - rewrite <- (renumberOnStatusChange_length tasks).
    destruct (renumberOnStatusChange_parts tasks) as (inc & comp & -> & _).
    rewrite assign_priorities_priority.
    rewrite <- (length_map forget_priority (assign_priorities _ _)).
    now rewrite assign_priorities_forget, length_map.
  - apply renumberOnStatusChange_perm.
  - intros a b Ha Hb Hia Hib Hlt.
    destruct (strongly_sorted_pairs _ _ a b
                (renumberOnStatusChange_ranked tasks) Ha Hb)
      as [->|[[_ [_ H]]|[H _]]]; [lia|auto|lia].
  - intros a b Ha Hb Hia Hib.
    destruct (strongly_sorted_pairs _ _ a b
                (renumberOnStatusChange_ranked tasks) Ha Hb)
      as [->|[[H _]|[_ [H _]]]]; [contradiction|exact H|].
    exfalso. apply Hib. apply H. exact Hia.
Qed.

End Renumbering.

Lemma renumberOnStatusChange_sorts_witness :
  let out := renumberOnStatusChange insertion_sort sample_tasks in
  map priority out = map (fun i => 1 + Z.of_nat i) (seq 0 (length sample_tasks))
  /\ map forget_priority out ≡ₚ map forget_priority sample_tasks
  /\ (forall a b, a ∈ out -> b ∈ out ->
        is_incomplete a = true -> is_incomplete b = true ->
        priority a < priority b -> remainingHours a <= remainingHours b)
  /\ (forall a b, a ∈ out -> b ∈ out ->
        is_incomplete a = true -> is_incomplete b <> true ->
        priority a < priority b).
Proof.
  exact (renumberOnStatusChange_sorts insertion_sort insertion_sort_contract
           sample_tasks).
Defined.

(** Ties do not keep their order under the [std::sort] of libstdc++ once
    more than 16 elements are sorted.  Seventeen tasks are entered with 5
    remaining hours each; choice 1 ranks each behind the earlier ones.
    Choice 2 on the first task, answered 'n', leaves all of them
    incomplete and tied, and the renumbering lists them in another
    order. *)
Lemma unstable_sort_reorders_ties :
  map (fun t => (id t, priority t, status t, remainingHours t))
      (listTasks seventeen_ties)
  = map (fun '(i, p) => (i, p, "incomplete"%string, 5))
        (zip seventeen_ids (map rank_of (seq 0 17)))
  /\ update_status libstdcxx_sort "t01" "n" seventeen_ties
     = (Ok tt, seventeen_ties_renumbered)
  /\ listTasks seventeen_ties_renumbered
     = renumberOnStatusChange libstdcxx_sort (listTasks seventeen_ties)
  /\ map id (listTasks seventeen_ties_renumbered)
     = [ "t09"; "t17"; "t16"; "t15"; "t14"; "t13"; "t12"; "t11"; "t10";
         "t01"; "t08"; "t07"; "t06"; "t05"; "t04"; "t03"; "t02" ]%string
  /\ ~ ties_keep_order (listTasks seventeen_ties)
         (renumberOnStatusChange libstdcxx_sort (listTasks seventeen_ties)).
Proof.
  split; [vm_compute; reflexivity|].
  split; [vm_compute; reflexivity|].
  split; [vm_compute; reflexivity|].
  split; [vm_compute; reflexivity|].
  intros H. specialize (H 5). vm_compute in H. discriminate.
Qed.

(** ** Ranking a new task *)

Lemma first_later_split total tasks d :
  Exists (fun t => total < remainingHours t) tasks ->
  exists pre t post,
    tasks = pre ++ t :: post
    /\ first_later total tasks d = priority t
    /\ total < remainingHours t.
Proof.
  induction tasks as [|x l IH]; intros H; [now apply Exists_nil in H|].
  simpl. destruct (total <? remainingHours x) eqn:E.
  - apply Z.ltb_lt in E. exists [], x, l. auto.
  - apply Z.ltb_ge in E. apply Exists_cons in H as [H|H]; [lia|].
    destruct (IH H) as (pre & t & post & -> & Hf & Ht).
    exists (x :: pre), t, post. auto.
Qed.

Lemma shift_from_split p pre post :
  Forall (fun t => priority t < p) pre ->
  Forall (fun t => p <= priority t) post ->
  map (fun t => if p <=? priority t then increment_priority t else t) (pre ++ post)
  = pre ++ map increment_priority post.
Proof.
  intros Hpre Hpost. rewrite map_app. f_equal.
  - induction Hpre as [|x l Hx _ IH]; simpl; [reflexivity|].
    destruct (p <=? priority x) eqn:E; [apply Z.leb_le in E; lia|]. now rewrite IH.
  - induction Hpost as [|x l Hx _ IH]; simpl; [reflexivity|].
    destruct (p <=? priority x) eqn:E; [|apply Z.leb_gt in E; lia]. now rewrite IH.
Qed.

(** What lines 124-147 compute on a list in ascending priority order with
    priorities from 1: the list is cut in two, the tasks of the second part
    move one rank down, and the new rank is the gap between the parts. *)
Lemma rankForInsertion_split tasks total p tasks' :
  StronglySorted Z.lt (map priority tasks) ->
  Forall (fun t => 1 <= priority t) tasks ->
  rankForInsertion tasks "incomplete" total = (p, tasks') ->
  exists pre post,
    tasks = pre ++ post
    /\ tasks' = pre ++ map increment_priority post
    /\ rank_gap p pre post.
Proof.
  intros Hs Hpos. unfold rankForInsertion, rank_gap.
  change (String.eqb "incomplete" "complete") with false. cbv iota.
  destruct (head tasks) as [f|] eqn:Hf.
  2:{ destruct tasks; [|discriminate]. intros [= <- <-].
      exists [], []. repeat split; try constructor. lia. }
  destruct (last tasks) as [b|] eqn:Hb.
  2:{ apply last_None in Hb. subst tasks. discriminate. }
  pose proof Hb as Hlast.
  apply last_Some in Hb as [init Hinit].
  assert (Hmax : Forall (fun x => priority x < priority b + 1) tasks).
  { subst tasks. rewrite map_app in Hs. simpl in Hs.
    apply Forall_app. split; [|repeat constructor; lia].
    apply Forall_forall. intros x Hx.
    assert (priority x < priority b); [|lia].
    eapply StronglySorted_app_1_elem_of; [exact Hs| |left].
    apply list_elem_of_fmap. eauto. }
  assert (Hbin : b ∈ tasks).
  { subst tasks. apply elem_of_app. right. left. }
  assert (Hbpos : 1 <= priority b).
  { rewrite Forall_forall in Hpos. now apply Hpos. }
  clear Hinit init.
  destruct (total <? remainingHours f) eqn:E1.
  - intros [= <- <-]. exists [], tasks.
    repeat split; try constructor; auto; lia.
  - destruct (remainingHours b <=? total) eqn:E2.
    + intros [= <- <-]. exists tasks, []. rewrite app_nil_r. simpl.
      rewrite app_nil_r. unfold last_priority. rewrite Hlast.
      repeat split; try constructor; auto; lia.
    + apply Z.leb_gt in E2.
      destruct (first_later_split total tasks 1) as (pre & t & post & Ht & Hfl & Hlt).
      { apply Exists_exists. exists b. split; [exact Hbin|exact E2]. }
      rewrite Hfl. intros [= <- <-].
      exists pre, (t :: post).
      assert (Hpre : Forall (fun x => priority x < priority t) pre).
      { rewrite Ht, map_app in Hs. apply Forall_forall. intros x Hx.
        eapply StronglySorted_app_1_elem_of; [exact Hs| |simpl; left].
        apply list_elem_of_fmap. eauto. }
      assert (Hpost : Forall (fun x => priority t <= priority x) (t :: post)).
      { rewrite Ht, map_app in Hs. apply StronglySorted_app_1_r in Hs.
        simpl in Hs. apply StronglySorted_cons in Hs as [Hs _].
        constructor; [lia|]. rewrite Forall_map in Hs.
        eapply Forall_impl; [exact Hs|]. simpl; intros; lia. }
      split; [exact Ht|].
      split; [|split; [exact Hpre|split; [exact Hpost|split; [|discriminate]]]].
      * rewrite Ht at 1. now apply shift_from_split.
      * rewrite Ht in Hpos. apply Forall_app in Hpos as [_ Hp].
        now apply Forall_cons in Hp as [Hp _].
Qed.

Lemma sorted_map_priority (l : list Task) :
  StronglySorted Z.lt (map priority l)
  <-> StronglySorted (fun a b => priority a < priority b) l.
Proof.
  induction l as [|t l IH]; simpl.
  - split; constructor.
  - rewrite !StronglySorted_cons, IH, Forall_map. reflexivity.
Qed.

Lemma strongly_sorted_weaken {A} (R1 R2 : relation A) (l : list A) :
  (forall x y, R1 x y -> R2 x y) -> StronglySorted R1 l -> StronglySorted R2 l.
Proof.
  intros H. induction 1 as [|x l _ IH Hx]; constructor; [exact IH|].
  eapply Forall_impl; [exact Hx|]. auto.
Qed.

(** A list sorted by priority is determined by its elements when their
    priorities are pairwise different. *)
Lemma sorted_by_priority_unique (l1 l2 : list Task) :
  l1 ≡ₚ l2 ->
  StronglySorted (fun a b => priority a <= priority b) l1 ->
  StronglySorted Z.lt (map priority l2) ->
  l1 = l2.
Proof.
  intros Hp H1 H2. apply sorted_map_priority in H2.
  apply (StronglySorted_unique_strong (fun a b => priority a <= priority b));
    [|exact H1| |exact Hp].
  - intros x1 x2 Hx1 Hx2 Hle Hge. rewrite Hp in Hx1.
    destruct (strongly_sorted_pairs _ _ x1 x2 H2 Hx1 Hx2) as [->|[H|H]];
      [reflexivity|lia|lia].
  - eapply strongly_sorted_weaken; [|exact H2]. simpl. intros; lia.
Qed.

Lemma rebuild_ascending_entries tasks tree :
  StronglySorted Z.lt (map priority tasks) ->
  exists tree',
    rebuild tasks tree = (Ok tt, tree')
    /\ entries (root tree') = map entry_of tasks.
Proof.
  intros Hs. unfold rebuild.
  destruct (insert_each_ascending tasks (clear tree)) as (tree' & Hr & He);
    [exact Hs|]. eauto.
Qed.

(** ** The three choices of the menu *)

Lemma shell_inv_ascending tree :
  shell_inv tree -> StronglySorted Z.lt (map priority (listTasks tree)).
Proof.
  intros [Hb Hk _]. unfold listTasks. now rewrite keyed_priorities.
Qed.

Lemma shell_inv_of_entries tree tasks :
  entries (root tree) = map entry_of tasks ->
  StronglySorted Z.lt (map priority tasks) ->
  Forall (fun t => 1 <= priority t) tasks ->
  listTasks tree = tasks /\ shell_inv tree.
Proof.
  intros He Hs Hp.
  assert (Hl : listTasks tree = tasks).
  { unfold listTasks. rewrite inOrder_entries, He. apply map_snd_entry_of. }
  split; [exact Hl|]. split.
  - unfold bst, keys. rewrite He, map_fst_entry_of. exact Hs.
  - unfold keyed. rewrite He. apply Forall_map. simpl.
    apply Forall_forall. reflexivity.
  - now rewrite Hl.
Qed.

Section Choices.

Variable std_sort : list Task -> (Task -> Task -> bool) -> list Task.
Hypothesis std_sort_contract : sort_contract std_sort.

(** Choice 1 on a list in ascending order with priorities from 1: the
    list handed to [rebuild] is the old list with the new task put in at
    its rank and the later tasks moved one rank down. *)
Lemma insertion_list_result inp tasks :
  StronglySorted Z.lt (map priority tasks) ->
  Forall (fun t => 1 <= priority t) tasks ->
  exists pre post,
    tasks = pre ++ post
    /\ snd (insertion_list std_sort inp tasks)
       = pre ++ fst (insertion_list std_sort inp tasks)
             :: map increment_priority post
    /\ rank_gap (priority (fst (insertion_list std_sort inp tasks))) pre post.
Proof.
  intros Hs Hpos. unfold insertion_list.
  change (new_task_fields inp)
    with ("incomplete"%string,
          computeRemainingHours (in_years inp) (in_months inp) (in_days inp) (in_hours inp),
          deadlineString (in_years inp) (in_months inp) (in_days inp) (in_hours inp)).
  cbv iota beta.
  destruct (rankForInsertion tasks "incomplete" _) as [p tasks'] eqn:E.
  destruct (rankForInsertion_split _ _ _ _ Hs Hpos E)
    as (pre & post & -> & -> & Hgap).
  exists pre, post. simpl fst. simpl snd. cbn [priority].
  split; [reflexivity|]. split; [|exact Hgap].
  destruct Hgap as (Hpre & Hpost & Hp & _).
  set (newTask := mkTask _ _ _ p _ _ _).
  destruct (std_sort_contract priority ((pre ++ map increment_priority post) ++ [newTask]))
    as [Hperm Hsorted].
  apply sorted_by_priority_unique; [|exact Hsorted|].
  - rewrite Hperm, <- app_assoc. apply Permutation_app_head.
    now rewrite <- Permutation_cons_append.
  - rewrite map_app. apply StronglySorted_app. rewrite map_app in Hs.
    split; [|split].
    + intros x1 x2 Hx1 Hx2.
      apply list_elem_of_fmap in Hx1 as (t1 & -> & Ht1).
      rewrite Forall_forall in Hpre, Hpost. specialize (Hpre _ Ht1).
      simpl in Hx2. apply elem_of_cons in Hx2 as [->|Hx2]; [exact Hpre|].
      apply list_elem_of_fmap in Hx2 as (t2 & -> & Ht2).
      apply list_elem_of_fmap in Ht2 as (t3 & -> & Ht3).
      specialize (Hpost _ Ht3). simpl. lia.
    + eapply StronglySorted_app_1_l; exact Hs.
    + simpl. apply StronglySorted_cons. split.
      * rewrite map_map, Forall_map. simpl.
        eapply Forall_impl; [exact Hpost|]. simpl; intros; lia.
      * apply StronglySorted_app_1_r in Hs.
        replace (map priority (map increment_priority post))
          with (map (fun x => x + 1) (map priority post))
          by (rewrite !map_map; reflexivity).
        apply (StronglySorted_fmap (fun x => x + 1) Z.lt Z.lt);
          [intros; lia|exact Hs].
Qed.

End Choices.

(** ** The identifier map points to live nodes *)

Lemma inOrder_cells node : inOrder node = map snd (cells node).
Proof.
  induction node as [|a t k l IHl r IHr h]; simpl; [reflexivity|].
  rewrite map_app; simpl. now rewrite IHl, IHr.
Qed.

Lemma cells_updateHeight node : cells (updateHeight node) = cells node.
Proof. destruct node; reflexivity. Qed.

Lemma cells_rotateLeft node : cells (rotateLeft node) = cells node.
Proof.
  destruct node as [|a t k l [|b tb kb bl br hb] h]; simpl; try reflexivity.
  now rewrite <- app_assoc.
Qed.

Lemma cells_rotateRight node : cells (rotateRight node) = cells node.
Proof.
  destruct node as [|a t k [|b tb kb bl br hb] r h]; simpl; try reflexivity.
  now rewrite <- app_assoc.
Qed.

Lemma cells_balance node : cells (balance node) = cells node.
Proof.
  unfold balance.
  repeat match goal with |- context [if ?b then _ else _] => destruct b end;
    try reflexivity; try apply cells_rotateLeft; try apply cells_rotateRight.
  - destruct node as [|a t k l r h]; [reflexivity|].
    unfold rotateLeftRight. rewrite cells_rotateRight. simpl.
    now rewrite cells_rotateLeft.
  - destruct node as [|a t k l r h]; [reflexivity|].
    unfold rotateRightLeft. rewrite cells_rotateLeft. simpl.
    now rewrite cells_rotateRight.
Qed.

Lemma cells_rebalanced a t k l r h :
  cells (balance (updateHeight (mkNode a t k l r h))) = cells l ++ (a, t) :: cells r.
Proof. now rewrite cells_balance, cells_updateHeight. Qed.

Lemma insertHelper_cells node task st n' st' :
  insertHelper node task st = (Ok n', st') ->
  cells n' ≡ₚ (st_next st, task) :: cells node
  /\ st' = mkStore (<[id task := st_next st]> (st_idMap st)) (S (st_next st)).
Proof.
  revert st n' st'.
  induction node as [|a t k l IHl r IHr h]; intros st n' st'; simpl.
  - unfold new_node. intros [= <- <-]. split; reflexivity.
  - destruct (priority task <? k).
    + unfold bind. destruct (insertHelper l task st) as [[l'|e'] st1] eqn:El;
        [|discriminate].
      unfold ret. intros [= <- <-]. destruct (IHl _ _ _ El) as [Hp ->].
      split; [|reflexivity]. rewrite cells_rebalanced, Hp. reflexivity.
    + destruct (k <? priority task); [|discriminate].
      unfold bind. destruct (insertHelper r task st) as [[r'|e'] st1] eqn:Er;
        [|discriminate].
      unfold ret. intros [= <- <-]. destruct (IHr _ _ _ Er) as [Hp ->].
      split; [|reflexivity]. rewrite cells_rebalanced, Hp.
      rewrite <- !Permutation_middle. apply perm_swap.
Qed.

Lemma addrs_node a t k l r h :
  addrs (mkNode a t k l r h) = addrs l ++ a :: addrs r.
Proof. unfold addrs. simpl. now rewrite map_app. Qed.

Lemma addrs_rebalanced a t k l r h :
  addrs (balance (updateHeight (mkNode a t k l r h))) = addrs l ++ a :: addrs r.
Proof. unfold addrs. rewrite cells_rebalanced, map_app. reflexivity. Qed.

Lemma cells_node a t k l r h :
  cells (mkNode a t k l r h) = cells l ++ (a, t) :: cells r.
Proof. reflexivity. Qed.

Lemma deleteHelper_cells node key st n' st' :
  deleteHelper node key st = (Ok n', st') ->
  addrs n' `sublist_of` addrs node
  /\ st_next st' = st_next st
  /\ (forall i c, st_idMap st' !! i = Some c -> st_idMap st !! i = Some c)
  /\ (forall c t, st_idMap st' !! id t = Some c ->
        (c, t) ∈ cells node -> (c, t) ∈ cells n').
Proof.
  revert key st n' st'.
  induction node as [|a t k l IHl r IHr h]; intros key st n' st'.
  - simpl. unfold ret. intros [= <- <-]. repeat split; auto.
  - rewrite addrs_node, cells_node. cbn [deleteHelper].
    destruct (key <? k).
    + unfold bind. destruct (deleteHelper l key st) as [[l'|e'] st1] eqn:El;
        [|discriminate].
      unfold ret. intros [= <- <-].
      destruct (IHl _ _ _ _ El) as (Hs & Hn & Hm & Hc).
      rewrite addrs_rebalanced, cells_rebalanced.
      split; [|split; [exact Hn|split; [exact Hm|]]].
      * apply sublist_app; [exact Hs|reflexivity].
      * intros c u Hu Hin. rewrite elem_of_app in *.
        destruct Hin as [Hin|Hin]; [left; now apply Hc|now right].
    + destruct (k <? key).
      * unfold bind. destruct (deleteHelper r key st) as [[r'|e'] st1] eqn:Er;
          [|discriminate].
        unfold ret. intros [= <- <-].
        destruct (IHr _ _ _ _ Er) as (Hs & Hn & Hm & Hc).
        rewrite addrs_rebalanced, cells_rebalanced.
        split; [|split; [exact Hn|split; [exact Hm|]]].
        -- apply sublist_app; [reflexivity|]. now apply sublist_skip.
        -- intros c u Hu Hin. rewrite elem_of_app, elem_of_cons in *.
           destruct Hin as [Hin|[Hin|Hin]]; auto.
      * unfold bind, idMap_erase.
        assert (Herase : forall i c,
                  delete (id t) (st_idMap st) !! i = Some c ->
                  st_idMap st !! i = Some c /\ i <> id t).
        { intros i c H. apply lookup_delete_Some in H as [Hne H].
          split; [exact H|congruence]. }
        destruct l as [|al tl kl ll rl hl].
        { unfold ret. intros [= <- <-]. cbn [st_idMap st_next].
          split; [apply sublist_cons; reflexivity|]. split; [reflexivity|].
          split; [intros i c H; now apply Herase in H|].
          intros c u Hu Hin. apply Herase in Hu as [_ Hne].
          apply elem_of_cons in Hin as [[= -> ->]|Hin]; [congruence|exact Hin]. }
        destruct r as [|ar tr kr lr rr hr].
        { unfold ret. intros [= <- <-]. cbn [st_idMap st_next].
          split; [apply sublist_inserts_r; reflexivity|].
          split; [reflexivity|].
          split; [intros i c H; now apply Herase in H|].
          intros c u Hu Hin. apply Herase in Hu as [_ Hne].
          apply elem_of_app in Hin as [Hin|Hin]; [exact Hin|].
          apply list_elem_of_singleton in Hin. injection Hin as -> ->. congruence. }
        destruct (findMin_head ar tr kr lr rr hr)
          as (b & tm & km & mr & hm & rest & Hf & _).
        rewrite Hf.
        match goal with |- context [deleteHelper ?n km ?s] =>
          destruct (deleteHelper n km s) as [[r'|e'] st1] eqn:Er end;
          [|discriminate].
        unfold ret. intros [= <- <-].
        destruct (IHr _ _ _ _ Er) as (Hs & Hn & Hm & Hc).
        cbn [st_idMap st_next] in Hn, Hm.
        rewrite addrs_rebalanced, cells_rebalanced.
        split; [|split; [exact Hn|split]].
        -- apply sublist_app; [reflexivity|]. now apply sublist_skip.
        -- intros i c H. apply Hm in H. now apply Herase in H.
        -- intros c u Hu Hin. pose proof (Hm _ _ Hu) as Hu1.
           apply Herase in Hu1 as [_ Hne].
           rewrite elem_of_app, elem_of_cons in *.
           destruct Hin as [Hin|[[= -> ->]|Hin]]; [auto|congruence|auto].
Qed.

Lemma deref_cells node a m :
  deref node a = Some m ->
  exists t, node_task m = Some t /\ (a, t) ∈ cells node.
Proof.
  induction node as [|b t k l IHl r IHr h]; simpl; [discriminate|].
  destruct (decide (a = b)) as [->|Hne].
  - intros [= <-]. exists t. split; [reflexivity|].
    apply elem_of_app. right. left.
  - destruct (deref l a) as [n|] eqn:El.
    + intros [= <-]. destruct (IHl eq_refl) as (u & Hu & Hin).
      exists u. split; [exact Hu|]. apply elem_of_app. now left.
    + intros H. destruct (IHr H) as (u & Hu & Hin).
      exists u. split; [exact Hu|]. apply elem_of_app. right. now right.
Qed.

Lemma deref_outside node a : a ∉ addrs node -> deref node a = None.
Proof.
  induction node as [|b t k l IHl r IHr h]; simpl; [reflexivity|].
  unfold addrs. simpl. rewrite map_app. simpl.
  rewrite not_elem_of_app, not_elem_of_cons. intros (Hl & Hb & Hr).
  destruct (decide (a = b)); [contradiction|].
  now rewrite (IHl Hl), (IHr Hr).
Qed.

Lemma cells_deref node a t :
  NoDup (addrs node) -> (a, t) ∈ cells node ->
  exists m, deref node a = Some m /\ node_task m = Some t.
Proof.
  induction node as [|b u k l IHl r IHr h]; simpl; intros Hnd Hin.
  - now apply elem_of_nil in Hin.
  - unfold addrs in Hnd. simpl in Hnd. rewrite map_app in Hnd. simpl in Hnd.
    apply NoDup_app in Hnd as (Hl & Hlr & Hr).
    apply NoDup_cons in Hr as [Hb Hr].
    assert (Hfst : forall n x, (a, x) ∈ cells n -> a ∈ addrs n).
    { intros n x Hx. unfold addrs. apply list_elem_of_fmap. exists (a, x). auto. }
    destruct (decide (a = b)) as [->|Hne].
    + eexists. split; [reflexivity|]. simpl.
      apply elem_of_app in Hin as [Hin|Hin].
      * exfalso. apply (Hlr b); [eapply Hfst; eauto|left].
      * apply elem_of_cons in Hin as [[= ->]|Hin]; [reflexivity|].
        exfalso. apply Hb. eapply Hfst; eauto.
    + apply elem_of_app in Hin as [Hin|Hin].
      * destruct (IHl Hl Hin) as (m & -> & Hm). eauto.
      * apply elem_of_cons in Hin as [[= -> ->]|Hin]; [congruence|].
        rewrite deref_outside.
        -- now apply IHr.
        -- intros Ha. apply (Hlr a Ha). right. eapply Hfst; eauto.
Qed.

Lemma map_inv_empty n : map_inv (mkAVLTree nullptr ∅ n).
Proof.
  split; simpl; try constructor.
  intros i a H. now rewrite lookup_empty in H.
Qed.

Lemma assign_root_insertHelper_map_inv task tree :
  map_inv tree ->
  map_inv (snd (assign_root (insertHelper (root tree) task) tree)).
Proof.
  intros [Hnd Hb Hl]. unfold assign_root.
  destruct (insertHelper _ _ _) as [[n'|e] st'] eqn:E; simpl.
  - apply insertHelper_cells in E as [Hp ->]. simpl in *.
    assert (Ha : addrs n' ≡ₚ next tree :: addrs (root tree)).
    { unfold addrs. now rewrite Hp. }
    split; simpl.
    + rewrite Ha. apply NoDup_cons. split; [|exact Hnd].
      intros Hin. rewrite Forall_forall in Hb. specialize (Hb _ Hin). lia.
    + rewrite Ha. constructor; [lia|].
      eapply Forall_impl; [exact Hb|]. simpl; lia.
    + intros i a H. destruct (decide (i = id task)) as [->|Hne].
      * rewrite lookup_insert_eq in H. injection H as <-.
        exists task. split; [|reflexivity]. rewrite Hp. left.
      * rewrite lookup_insert_ne in H by congruence.
        destruct (Hl _ _ H) as (t & Ht & Hi). exists t. split; [|exact Hi].
        rewrite Hp. now right.
  - apply insertHelper_throw in E as (_ & -> & _). simpl.
    split; simpl; assumption.
Qed.

Lemma insert_each_map_inv tasks tree :
  map_inv tree -> map_inv (snd (insert_each tasks tree)).
Proof.
  revert tree. induction tasks as [|t rest IH]; intros tree Hinv; simpl.
  - exact Hinv.
  - pose proof (assign_root_insertHelper_map_inv t tree Hinv) as H.
    destruct (assign_root _ _) as [[[]|e] tree']; simpl in *.
    + now apply IH.
    + exact H.
Qed.

Lemma deleteTask_map_inv i tree :
  map_inv tree -> map_inv (snd (deleteTask i tree)).
Proof.
  intros Hinv. unfold deleteTask.
  destruct (idMap tree !! i); [|exact Hinv].
  destruct (deref _ _) as [[|b t key l r h]|]; try exact Hinv.
  unfold assign_root.
  destruct (deleteHelper _ _ _) as [[n'|e] st'] eqn:E; simpl.
  - destruct Hinv as [Hnd Hb Hl].
    apply deleteHelper_cells in E as (Hs & Hn & Hm & Hc). simpl in *.
    split; simpl.
    + eapply sublist_NoDup; eauto.
    + rewrite Hn. rewrite Forall_forall in *. intros a Ha. apply Hb.
      eapply elem_of_sublist; eauto.
    + intros j a H. destruct (Hl _ _ (Hm _ _ H)) as (u & Hu & Hi).
      exists u. split; [|exact Hi]. apply Hc; [|exact Hu]. now rewrite Hi.
  - destruct (deleteHelper_returns (root tree) key
                (mkStore (idMap tree) (next tree))) as (n & s & Hd).
    rewrite Hd in E. discriminate.
Qed.

Lemma reachable_map_inv tree : reachable tree -> map_inv tree.
Proof.
  induction 1 as [|task tree _ IH|tasks tree _ IH|i tree _ IH].
  - apply map_inv_empty.
  - unfold insert. destruct (idMap tree !! id task); [exact IH|].
    now apply assign_root_insertHelper_map_inv.
  - unfold rebuild. apply insert_each_map_inv. apply map_inv_empty.
  - now apply deleteTask_map_inv.
Qed.

(** No reachable index has a dangling pointer in [idMap]: every entry
    leads to a node of the tree, and that node holds a task with the
    entry's id. *)
Lemma idMap_points_to_live_nodes tree i a :
  reachable tree -> idMap tree !! i = Some a ->
  exists n t, deref (root tree) a = Some n /\ node_task n = Some t
              /\ id t = i /\ t ∈ listTasks tree.
Proof.
  intros Hr Hm. destruct (reachable_map_inv _ Hr) as [Hnd _ Hl].
  destruct (Hl _ _ Hm) as (t & Hc & Hi).
  destruct (cells_deref _ _ _ Hnd Hc) as (n & Hd & Ht).
  exists n, t. repeat split; auto.
  unfold listTasks. rewrite inOrder_cells.
  apply list_elem_of_fmap. exists (a, t). auto.
Qed.

Lemma search_reachable tree i :
  reachable tree ->
  match search i tree with
  | Some t => id t = i /\ t ∈ listTasks tree /\ is_Some (idMap tree !! i)
  | None => idMap tree !! i = None
  end.
Proof.
  intros Hr. unfold search. destruct (idMap tree !! i) as [a|] eqn:Hm; [|reflexivity].
  destruct (idMap_points_to_live_nodes _ _ _ Hr Hm) as (n & t & -> & Ht & Hi & Hin).
  rewrite Ht. eauto.
Qed.

(** ** What the three choices do to the list of tasks *)

Lemma run_choice_reachable std_sort c tree :
  reachable tree -> reachable (snd (run_choice std_sort c tree)).
Proof.
  intros Hr. destruct c as [inp|i a|i]; simpl.
  - unfold insert_task. destruct (search _ _); [exact Hr|].
    now apply reach_rebuild.
  - unfold update_status. destruct (search _ _); [|exact Hr].
    destruct (set_first_status _ _ _); [|exact Hr].
    now apply reach_rebuild.
  - now apply reach_deleteTask.
Qed.

Lemma session_reachable std_sort tree : session std_sort tree -> reachable tree.
Proof.
  induction 1 as [|c tree tree' _ IH Hrun]; [apply reach_empty|].
  apply (run_choice_reachable std_sort c) in IH. now rewrite Hrun in IH.
Qed.

Lemma filter_entries_tasks key (l : list (Z * Task)) :
  Forall (fun e => fst e = priority (snd e)) l ->
  map snd (filter (key_is_not key) l) = filter (priority_is_not key) (map snd l).
Proof.
  induction 1 as [|e l He _ IH]; [reflexivity|]. simpl.
  destruct (decide (fst e = key)) as [Heq|Hne].
  - rewrite filter_cons_False by (unfold key_is_not; tauto).
    rewrite filter_cons_False by (unfold priority_is_not; rewrite <- He; tauto).
    exact IH.
  - rewrite filter_cons_True by exact Hne.
    rewrite filter_cons_True by (unfold priority_is_not; now rewrite <- He).
    simpl. now rewrite IH.
Qed.

(** Choice 3 on an index in search-tree order: the task with the key of
    the addressed node leaves the list, every other task stays as it is,
    priority included. *)
Lemma deleteTask_effect i tree :
  shell_inv tree ->
  shell_inv (snd (deleteTask i tree))
  /\ (snd (deleteTask i tree) = tree
      \/ exists key, listTasks (snd (deleteTask i tree))
                     = filter (priority_is_not key) (listTasks tree)).
Proof.
  intros Hinv. unfold deleteTask.
  destruct (idMap tree !! i); [|auto].
  destruct (deref _ _) as [[|b t key l r h]|]; auto.
  destruct Hinv as [Hb Hk Hp]. unfold assign_root.
  destruct (deleteHelper_entries (root tree) key
              (mkStore (idMap tree) (next tree)) Hb) as (n' & st' & Hd & He & _).
  rewrite Hd. simpl.
  assert (Hl : inOrder n' = filter (priority_is_not key) (listTasks tree)).
  { unfold listTasks. rewrite !inOrder_entries, He. now apply filter_entries_tasks. }
  split; [|right; exists key; exact Hl].
  split; simpl.
  - eapply deleteHelper_bst; eauto.
  - eapply deleteHelper_keyed; eauto.
  - unfold listTasks at 1. simpl. rewrite Hl. rewrite Forall_forall in *.
    intros x Hx. apply Hp. now apply list_elem_of_filter in Hx as [_ Hx].
Qed.

Section Session.

Variable std_sort : list Task -> (Task -> Task -> bool) -> list Task.
Hypothesis std_sort_contract : sort_contract std_sort.

Lemma insert_task_effect inp tree :
  shell_inv tree -> search (in_id inp) tree = None ->
  exists tree' pre post,
    insert_task std_sort inp tree = (Ok tt, tree')
    /\ listTasks tree = pre ++ post
    /\ listTasks tree'
       = pre ++ fst (insertion_list std_sort inp (listTasks tree))
             :: map increment_priority post
    /\ rank_gap (priority (fst (insertion_list std_sort inp (listTasks tree))))
                pre post
    /\ shell_inv tree'.
Proof.
  intros Hinv Hsearch. unfold insert_task. rewrite Hsearch.
  pose proof (shell_inv_ascending _ Hinv) as Hs.
  destruct (insertion_list_result std_sort std_sort_contract inp
              (listTasks tree) Hs (shell_positive _ Hinv))
    as (pre & post & Hsplit & Hres & Hgap).
  pose proof Hgap as (Hpre & Hpost & Hp & _).
  set (newTask := fst (insertion_list std_sort inp (listTasks tree))) in *.
  assert (Hasc : StronglySorted Z.lt
                   (map priority (pre ++ newTask :: map increment_priority post))).
  { rewrite Hsplit, map_app in Hs. rewrite map_app.
    apply StronglySorted_app. split; [|split].
    - intros x1 x2 Hx1 Hx2.
      apply list_elem_of_fmap in Hx1 as (t1 & -> & Ht1).
      rewrite Forall_forall in Hpre, Hpost. specialize (Hpre _ Ht1).
      simpl in Hx2. apply elem_of_cons in Hx2 as [->|Hx2]; [exact Hpre|].
      apply list_elem_of_fmap in Hx2 as (t2 & -> & Ht2).
      apply list_elem_of_fmap in Ht2 as (t3 & -> & Ht3).
      specialize (Hpost _ Ht3). simpl. lia.
    - eapply StronglySorted_app_1_l; exact Hs.
    - simpl. apply StronglySorted_cons. split.
      + rewrite map_map, Forall_map. simpl.
        eapply Forall_impl; [exact Hpost|]. simpl; intros; lia.
      + apply StronglySorted_app_1_r in Hs.
        replace (map priority (map increment_priority post))
          with (map (fun x => x + 1) (map priority post))
          by (rewrite !map_map; reflexivity).
        apply (StronglySorted_fmap (fun x => x + 1) Z.lt Z.lt);
          [intros; lia|exact Hs]. }
  rewrite Hres.
  destruct (rebuild_ascending_entries _ tree Hasc) as (tree' & Hr & He).
  exists tree', pre, post. split; [exact Hr|]. split; [exact Hsplit|].
  cut (listTasks tree' = pre ++ newTask :: map increment_priority post
       /\ shell_inv tree'); [tauto|].
  apply shell_inv_of_entries; [exact He|exact Hasc|].
  pose proof (shell_positive _ Hinv) as Hpos. rewrite Hsplit in Hpos.
  apply Forall_app in Hpos as [Hpos1 Hpos2].
  apply Forall_app. split; [exact Hpos1|]. constructor; [exact Hp|].
  rewrite Forall_map. eapply Forall_impl; [exact Hpos2|]. simpl; intros; lia.
Qed.

Lemma renumbered_positive tasks :
  Forall (fun t => 1 <= priority t) (renumberOnStatusChange std_sort tasks).
Proof. unfold renumberOnStatusChange. apply assign_priorities_bounds. Qed.

Lemma renumbered_ascending tasks :
  StronglySorted Z.lt (map priority (renumberOnStatusChange std_sort tasks)).
Proof. unfold renumberOnStatusChange. apply assign_priorities_ascending. Qed.

Lemma update_status_effect i a tree t tasks :
  search i tree = Some t ->
  set_first_status i (new_status a) (listTasks tree) = Some tasks ->
  exists tree',
    update_status std_sort i a tree = (Ok tt, tree')
    /\ listTasks tree' = renumberOnStatusChange std_sort tasks
    /\ shell_inv tree'.
Proof.
  intros Hsearch Hset. unfold update_status. rewrite Hsearch, Hset.
  destruct (rebuild_ascending_entries _ tree (renumbered_ascending tasks))
    as (tree' & Hr & He).
  exists tree'. split; [exact Hr|].
  apply shell_inv_of_entries;
    [exact He|apply renumbered_ascending|apply renumbered_positive].
Qed.

Lemma run_choice_shell_inv c tree r tree' :
  shell_inv tree -> run_choice std_sort c tree = (r, tree') -> shell_inv tree'.
Proof.
  intros Hinv. destruct c as [inp|i a|i]; simpl.
  - destruct (search (in_id inp) tree) as [t|] eqn:Hs.
    + unfold insert_task. rewrite Hs. now intros [= <- <-].
    + destruct (insert_task_effect inp tree Hinv Hs)
        as (tree1 & pre & post & -> & _ & _ & _ & Hinv').
      now intros [= <- <-].
  - destruct (search i tree) as [t|] eqn:Hs.
    + destruct (set_first_status i (new_status a) (listTasks tree))
        as [tasks|] eqn:Hset.
      * destruct (update_status_effect i a tree t tasks Hs Hset)
          as (tree1 & -> & _ & Hinv').
        now intros [= <- <-].
      * unfold update_status. rewrite Hs, Hset. now intros [= <- <-].
    + unfold update_status. rewrite Hs. now intros [= <- <-].
  - unfold delete_task. intros [= <- <-]. now apply deleteTask_effect.
Qed.

Lemma session_shell_inv tree : session std_sort tree -> shell_inv tree.
Proof.
  induction 1 as [|c tree tree' _ IH Hrun].
  - split; constructor.
  - eapply run_choice_shell_inv; eauto.
Qed.

(** No choice ends in an uncaught exception. *)
Lemma run_choice_returns c tree :
  session std_sort tree -> fst (run_choice std_sort c tree) = Ok tt.
Proof.
  intros Hs. pose proof (session_shell_inv _ Hs) as Hinv.
  destruct c as [inp|i a|i]; simpl; [| |reflexivity].
  - destruct (search (in_id inp) tree) as [t|] eqn:Hsr.
    + unfold insert_task. now rewrite Hsr.
    + destruct (insert_task_effect inp tree Hinv Hsr)
        as (tree1 & pre & post & -> & _). reflexivity.
  - destruct (search i tree) as [t|] eqn:Hsr.
    + destruct (set_first_status i (new_status a) (listTasks tree))
        as [tasks|] eqn:Hset.
      * destruct (update_status_effect i a tree t tasks Hsr Hset)
          as (tree1 & -> & _). reflexivity.
      * unfold update_status. now rewrite Hsr, Hset.
    + unfold update_status. now rewrite Hsr.
Qed.

End Session.

(** ** Dense priorities *)

Lemma dense_lookup tasks i t :
  dense tasks -> tasks !! i = Some t -> priority t = rank_of i.
Proof.
  unfold dense. intros Hd Ht.
  assert (H : map priority tasks !! i = Some (priority t)).
  { change (map priority tasks) with (priority <$> tasks).
    rewrite list_lookup_fmap, Ht. reflexivity. }
  rewrite Hd in H.
  change (map rank_of (seq 0 (length tasks)))
    with (rank_of <$> seq 0 (length tasks)) in H.
  rewrite list_lookup_fmap in H.
  destruct (seq 0 (length tasks) !! i) as [j|] eqn:Hj; [|discriminate].
  apply lookup_seq in Hj as [-> _]. simpl in H. now injection H as <-.
Qed.

Lemma dense_app_inv pre post :
  dense (pre ++ post) ->
  map priority pre = map rank_of (seq 0 (length pre))
  /\ map priority post = map rank_of (seq (length pre) (length post)).
Proof.
  unfold dense. rewrite map_app, length_app, seq_app, map_app. simpl.
  intros H. apply app_inj_1 in H; [exact H|].
  now rewrite !length_map, length_seq.
Qed.

Lemma map_rank_of_shift a n :
  map (fun x => x + 1) (map rank_of (seq a n)) = map rank_of (seq (S a) n).
Proof.
  rewrite <- seq_shift, !map_map. apply map_ext. intros i. unfold rank_of. lia.
Qed.

(** Putting a task into the gap of a dense list gives a dense list. *)
Lemma dense_insert pre post newTask :
  dense (pre ++ post) ->
  rank_gap (priority newTask) pre post ->
  dense (pre ++ newTask :: map increment_priority post).
Proof.
  intros Hd (Hpre & Hpost & Hp & Hlast).
  pose proof (dense_app_inv _ _ Hd) as [Hd1 Hd2].
  assert (Hrank : priority newTask = rank_of (length pre)).
  { unfold rank_of.
    assert (Hlow : Z.of_nat (length pre) < priority newTask).
    { destruct (last pre) as [b|] eqn:Hb.
      - rewrite Forall_forall in Hpre.
        assert (Hbin : b ∈ pre).
        { apply last_Some in Hb as [init ->]. apply elem_of_app. right. left. }
        specialize (Hpre _ Hbin).
        rewrite last_lookup in Hb.
        assert (Hb' : (pre ++ post) !! pred (length pre) = Some b)
          by (apply lookup_app_l_Some; exact Hb).
        rewrite (dense_lookup _ _ _ Hd Hb') in Hpre. unfold rank_of in Hpre.
        assert (length pre <> 0%nat)
          by (destruct pre; [discriminate|simpl; lia]).
        lia.
      - apply last_None in Hb. subst pre. simpl. lia. }
    destruct post as [|x post].
    - rewrite (Hlast eq_refl). unfold last_priority.
      destruct (last pre) as [b|] eqn:Hb.
      + rewrite last_lookup in Hb.
        assert (Hb' : (pre ++ []) !! pred (length pre) = Some b)
          by (apply lookup_app_l_Some; exact Hb).
        rewrite (dense_lookup _ _ _ Hd Hb'). unfold rank_of.
        assert (length pre <> 0%nat)
          by (destruct pre; [discriminate|simpl; lia]).
        lia.
      + apply last_None in Hb. subst pre. reflexivity.
    - apply Forall_cons in Hpost as [Hx _].
      assert (Hx' : (pre ++ x :: post) !! length pre = Some x)
        by (apply list_lookup_middle; reflexivity).
      rewrite (dense_lookup _ _ _ Hd Hx') in Hx. unfold rank_of in Hx. lia. }
  unfold dense. rewrite map_app, length_app. cbn [map length].
  rewrite length_map, seq_app, map_app. cbn [seq map Nat.add].
  fold rank_of. f_equal; [exact Hd1|]. f_equal; [exact Hrank|].
  replace (map priority (map increment_priority post))
    with (map (fun x => x + 1) (map priority post))
    by (rewrite !map_map; reflexivity).
  rewrite Hd2. apply map_rank_of_shift.
Qed.

(** ** Status changes *)

Lemma set_first_status_split i s tasks :
  (exists t, t ∈ tasks /\ id t = i) ->
  exists pre t post,
    tasks = pre ++ t :: post
    /\ id t = i
    /\ Forall (fun u => id u <> i) pre
    /\ set_first_status i s tasks = Some (pre ++ set_status s t :: post).
Proof.
  induction tasks as [|x l IH]; intros (t & Hin & Hid).
  - now apply elem_of_nil in Hin.
  - simpl. destruct (String.eqb (id x) i) eqn:E.
    + apply String.eqb_eq in E. exists [], x, l. repeat split; auto.
    + apply String.eqb_neq in E.
      apply elem_of_cons in Hin as [->|Hin]; [contradiction|].
      destruct IH as (pre & u & post & -> & Hu & Hpre & ->); [eauto|].
      exists (x :: pre), u, post. repeat split; auto.
Qed.

Lemma insertion_list_new_task std_sort inp tasks :
  status (fst (insertion_list std_sort inp tasks)) = "incomplete"%string
  /\ id (fst (insertion_list std_sort inp tasks)) = in_id inp.
Proof.
  unfold insertion_list.
  change (new_task_fields inp)
    with ("incomplete"%string,
          computeRemainingHours (in_years inp) (in_months inp) (in_days inp) (in_hours inp),
          deadlineString (in_years inp) (in_months inp) (in_days inp) (in_hours inp)).
  cbv iota beta.
  destruct (rankForInsertion tasks "incomplete" _) as [p tasks'].
  split; reflexivity.
Qed.

Lemma forget_increment_priority l :
  map forget_priority (map increment_priority l) = map forget_priority l.
Proof. rewrite map_map. apply map_ext. reflexivity. Qed.

(** C5, as the code has it.  In a run of the menu, a stored status changes
    only in choice 2, and there the first task with the given id receives
    the status the answer selects, ["complete"] for 'y' and ["incomplete"]
    for any other answer, whatever its status was; all other tasks keep
    every field but the priority.  Choice 1 adds one incomplete task and
    choice 3 removes tasks; neither changes a stored status. *)
Theorem status_changes_only_by_update
    (std_sort : list Task -> (Task -> Task -> bool) -> list Task)
    (c : choice) (tree : AVLTree) (r : outcome unit) (tree' : AVLTree) :
  sort_contract std_sort ->
  session std_sort tree ->
  run_choice std_sort c tree = (r, tree') ->
  r = Ok tt /\ status_effect c tree tree'.
Proof.
  intros Hsort Hses Hrun.
  pose proof (run_choice_returns std_sort Hsort c tree Hses) as Hr.
  rewrite Hrun in Hr. simpl in Hr. split; [exact Hr|].
  pose proof (session_shell_inv std_sort Hsort tree Hses) as Hinv.
  pose proof (session_reachable std_sort tree Hses) as Hreach.
  destruct c as [inp|i a|i]; simpl in *.
  - destruct (search (in_id inp) tree) as [t|] eqn:Hs.
    + unfold insert_task in Hrun. rewrite Hs in Hrun. congruence.
    + destruct (insert_task_effect std_sort Hsort inp tree Hinv Hs)
        as (tree1 & pre & post & Hrun1 & Hsplit & Hres & _).
      rewrite Hrun1 in Hrun. injection Hrun as _ <-.
      exists (fst (insertion_list std_sort inp (listTasks tree))).
      destruct (insertion_list_new_task std_sort inp (listTasks tree)) as [H1 H2].
      split; [exact H1|]. split; [exact H2|].
      rewrite Hres, Hsplit. rewrite !map_app. cbn [map].
      rewrite forget_increment_priority.
      now rewrite <- Permutation_middle.
  - pose proof (search_reachable tree i Hreach) as Hsr.
    destruct (search i tree) as [t|] eqn:Hs.
    + destruct Hsr as (Hid & Hin & _).
      destruct (set_first_status_split i (new_status a) (listTasks tree))
        as (pre & u & post & Hsplit & Hu & Hpre & Hset); [eauto|].
      destruct (update_status_effect std_sort i a tree t _ Hs Hset)
        as (tree1 & Hrun1 & Hres & _).
      rewrite Hrun1 in Hrun. injection Hrun as _ <-.
      exists pre, u, post. repeat split; auto.
      rewrite Hres. now apply renumberOnStatusChange_perm.
    + unfold update_status in Hrun. rewrite Hs in Hrun. congruence.
  - unfold delete_task in Hrun. injection Hrun as _ <-.
    now apply deleteTask_effect.
Qed.

Lemma complete_task_becomes_incomplete :
  map (fun t => (id t, status t)) (listTasks one_task_done)
    = [("t10", "complete")]%string
  /\ map (fun t => (id t, status t)) (listTasks one_task_reopened)
    = [("t10", "incomplete")]%string.
Proof. split; vm_compute; reflexivity. Qed.

Lemma one_task_done_session : session insertion_sort one_task_done.
Proof.
  apply (session_step insertion_sort (ChoiceUpdate "t10" "y") one_task);
    [|vm_compute; reflexivity].
  apply (session_step insertion_sort
           (ChoiceInsert (mkInsertInput "t10" "report" "work" 0 0 0 10)) empty_tree);
    [apply session_start|vm_compute; reflexivity].
Defined.

Lemma status_changes_only_by_update_witness :
  Ok tt = Ok tt
  /\ status_effect (ChoiceUpdate "t10" "n") one_task_done one_task_reopened.
Proof.
  apply (status_changes_only_by_update insertion_sort
           (ChoiceUpdate "t10" "n") one_task_done (Ok tt) one_task_reopened).
  - exact insertion_sort_contract.
  - exact one_task_done_session.
  - vm_compute. reflexivity.
Defined.

(** ** The scenarios of the specification *)

(** C1 on the code: choice 3 removes the task and keeps every other
    priority, so deleting the 20h task of Scenario B leaves priorities 1
    and 3. *)
Theorem deletion_leaves_priority_gap :
  summary scenario_A
    = [("t5", 1, "incomplete"); ("t10", 2, "incomplete"); ("t20", 3, "incomplete")]%string
  /\ summary scenario_B
    = [("t5", 1, "incomplete"); ("t20", 2, "incomplete"); ("t10", 3, "complete")]%string
  /\ dense (listTasks scenario_B)
  /\ summary scenario_C
    = [("t5", 1, "incomplete"); ("t10", 3, "complete")]%string
  /\ ~ dense (listTasks scenario_C).
Proof.
  split; [vm_compute; reflexivity|].
  split; [vm_compute; reflexivity|].
  split; [vm_compute; reflexivity|].
  split; [vm_compute; reflexivity|].
  unfold dense. vm_compute. discriminate.
Qed.

(** C2 on the code: in Scenario B the 20h task sits at the root with two
    children and the 10h task is its in-order successor.  Deleting the 20h
    task moves the 10h task into the root node and erases its id from
    [idMap]; the task is still listed, and [search] no longer finds it. *)
Theorem two_child_deletion_forgets_successor :
  node_key (root scenario_B) = Some 2
  /\ has_left (root scenario_B) /\ has_right (root scenario_B)
  /\ (id <$> search "t10" scenario_B) = Some "t10"%string
  /\ map id (listTasks scenario_C) = ["t5"; "t10"]%string
  /\ idMap scenario_C !! "t10"%string = None
  /\ search "t10" scenario_C = None
  /\ search "t20" scenario_C = None
  /\ (id <$> search "t5" scenario_C) = Some "t5"%string.
Proof.
  split; [vm_compute; reflexivity|].
  split; [vm_compute; exact I|].
  split; [vm_compute; exact I|].
  split; [vm_compute; reflexivity|].
  split; [vm_compute; reflexivity|].
  split; [vm_compute; reflexivity|].
  split; [vm_compute; reflexivity|].
  split; vm_compute; reflexivity.
Qed.

(** C3 on the code: with a complete task of 10 frozen hours at the end of
    the list, a new incomplete task of 20 hours is ranked after it. *)
Theorem insertion_breaks_partition :
  summary complete_then_insert_before
    = [("t5", 1, "incomplete"); ("t10", 2, "complete")]%string
  /\ partitioned (listTasks complete_then_insert_before)
  /\ summary complete_then_insert_after
    = [("t5", 1, "incomplete"); ("t10", 2, "complete"); ("t20", 3, "incomplete")]%string
  /\ ~ partitioned (listTasks complete_then_insert_after).
Proof.
  split; [vm_compute; reflexivity|].
  split; [apply (bool_decide_eq_true_1 (partitioned _)); vm_compute; reflexivity|].
  split; [vm_compute; reflexivity|].
  apply (bool_decide_eq_false_1 (partitioned _)). vm_compute. reflexivity.
Qed.

(** * Further properties *)

(** ** Rotations and rebalancing *)

(** X1.  Rebalancing never moves a task: [balance] and the four rotations
    return a tree with the same keys and tasks in the same in-order
    sequence, every task still in the node (address) it was in. *)
Theorem balance_keeps_contents (node : Node) :
  (entries (balance node) = entries node
   /\ cells (balance node) = cells node
   /\ inOrder (balance node) = inOrder node)
  /\ (entries (rotateLeft node) = entries node
      /\ cells (rotateLeft node) = cells node)
  /\ (entries (rotateRight node) = entries node
      /\ cells (rotateRight node) = cells node)
  /\ entries (rotateLeftRight node) = entries node
  /\ entries (rotateRightLeft node) = entries node.
Proof.
  split; [|split; [|split; [|split]]].
  - split; [apply entries_balance|]. split; [apply cells_balance|].
    now rewrite !inOrder_entries, entries_balance.
  - split; [apply entries_rotateLeft|apply cells_rotateLeft].
  - split; [apply entries_rotateRight|apply cells_rotateRight].
  - apply entries_rotateLeftRight.
  - apply entries_rotateRightLeft.
Qed.

(** X2.  No null pointer is dereferenced in [balance]: after
    [updateHeight] on a node with balanced children, every rotation that
    [balance] calls finds the child it reads ([node->left] for
    [rotateRight], [node->right] for [rotateLeft], and the grandchild for
    the two double rotations). *)
Theorem balance_never_dereferences_null a t k l r h :
  avl l -> avl r -> balance_safe (updateHeight (mkNode a t k l r h)).
Proof.
  intros Hl Hr. unfold balance_safe, updateHeight. cbn [node_left node_right].
  destruct (balance_rotates_nodes a t k l r
              (1 + Z.max (getHeight l) (getHeight r)) Hl Hr) as [H1 H2].
  split; [exact H1|exact H2].
Qed.

Lemma balance_never_dereferences_null_witness :
  balance_safe
    (updateHeight
       (mkNode 3%nat (mkTask "c" "" "" 3 "" "incomplete" 0) 3
          (mkNode 2%nat (mkTask "b" "" "" 2 "" "incomplete" 0) 2
             (mkNode 1%nat (mkTask "a" "" "" 1 "" "incomplete" 0) 1
                nullptr nullptr 1)
             nullptr 2)
          nullptr 2)).
Proof.
  apply balance_never_dereferences_null; simpl; repeat split; lia.
Defined.

Lemma balance_identity a t k l r h :
  avl (mkNode a t k l r h) ->
  balance (updateHeight (mkNode a t k l r h)) = mkNode a t k l r h.
Proof.
  intros (Hl & Hr & Hh & Hb). unfold updateHeight, balance.
  cbn [getBalance]. rewrite <- Hh.
  destruct (Z.ltb_spec 1 (getHeight l - getHeight r)); [lia|].
  destruct (Z.ltb_spec (getHeight l - getHeight r) (-1)); [lia|]. reflexivity.
Qed.

(** X3.  Deleting a key that is not in a balanced tree changes nothing:
    [deleteHelper] returns the very same tree and leaves [idMap] alone. *)
Theorem deleteHelper_absent_key node key st :
  avl node -> key ∉ keys node -> deleteHelper node key st = (Ok node, st).
Proof.
  revert st. induction node as [|a t k l IHl r IHr h]; intros st Ha Hn.
  - reflexivity.
  - pose proof Ha as (Hl & Hr & _ & _).
    rewrite keys_node, not_elem_of_app, not_elem_of_cons in Hn.
    destruct Hn as (Hnl & Hne & Hnr). cbn [deleteHelper].
    destruct (Z.ltb_spec key k).
    + unfold bind. rewrite (IHl st Hl Hnl). unfold ret.
      now rewrite balance_identity.
    + destruct (Z.ltb_spec k key); [|lia].
      unfold bind. rewrite (IHr st Hr Hnr). unfold ret.
      now rewrite balance_identity.
Qed.

Lemma deleteHelper_absent_key_witness :
  deleteHelper (root sample_tree) 7 (mkStore (idMap sample_tree) (next sample_tree))
  = (Ok (root sample_tree), mkStore (idMap sample_tree) (next sample_tree)).
Proof.
  apply deleteHelper_absent_key.
  - vm_compute. repeat split; discriminate.
  - replace (keys (root sample_tree)) with [1; 2; 3] by (vm_compute; reflexivity).
    rewrite !not_elem_of_cons. repeat split; try lia. apply not_elem_of_nil.
Defined.

(** X4.  [findMin] of a non-empty search tree is its leftmost node: it has
    no left child and holds the smallest key of the tree; [findMin] of the
    empty tree is the null pointer. *)
Theorem findMin_is_minimum (node : Node) :
  bst node ->
  match node with
  | nullptr => findMin node = nullptr
  | mkNode _ _ _ _ _ _ =>
      exists b tm km mr hm,
        findMin node = mkNode b tm km nullptr mr hm
        /\ (km, tm) ∈ entries node
        /\ Forall (fun k => km <= k) (keys node)
  end.
Proof.
  intros Hb. destruct node as [|a t k l r h]; [reflexivity|].
  destruct (findMin_head a t k l r h) as (b & tm & km & mr & hm & rest & Hf & He).
  exists b, tm, km, mr, hm. split; [exact Hf|].
  split; [rewrite He; left|].
  unfold bst, keys in *. rewrite He in *. cbn [map fst] in *.
  apply StronglySorted_cons in Hb as [Hlt _].
  constructor; [lia|]. eapply Forall_impl; [exact Hlt|]. simpl; intros; lia.
Qed.

Lemma findMin_is_minimum_witness :
  exists b tm km mr hm,
    findMin (mkNode 2%nat (mkTask "b" "" "" 2 "" "incomplete" 0) 2
               (mkNode 1%nat (mkTask "a" "" "" 1 "" "incomplete" 0) 1
                  nullptr nullptr 1)
               nullptr 2)
    = mkNode b tm km nullptr mr hm
    /\ (km, tm) ∈ entries
          (mkNode 2%nat (mkTask "b" "" "" 2 "" "incomplete" 0) 2
             (mkNode 1%nat (mkTask "a" "" "" 1 "" "incomplete" 0) 1
                nullptr nullptr 1)
             nullptr 2)
    /\ Forall (fun k => km <= k)
          (keys
             (mkNode 2%nat (mkTask "b" "" "" 2 "" "incomplete" 0) 2
                (mkNode 1%nat (mkTask "a" "" "" 1 "" "incomplete" 0) 1
                   nullptr nullptr 1)
                nullptr 2)).
Proof.
  apply (findMin_is_minimum
           (mkNode 2%nat (mkTask "b" "" "" 2 "" "incomplete" 0) 2
              (mkNode 1%nat (mkTask "a" "" "" 1 "" "incomplete" 0) 1
                 nullptr nullptr 1)
              nullptr 2)).
  unfold bst, keys. simpl. repeat constructor.
Defined.

(** ** The public operations of the index *)

(** X5.  In every state of the index, [listTasks()] is in strictly
    ascending priority order: no two listed tasks have the same priority,
    and every node's key is the priority of its task. *)
Theorem listTasks_strictly_ascending (tree : AVLTree) :
  reachable tree ->
  StronglySorted Z.lt (map priority (listTasks tree))
  /\ map priority (listTasks tree) = keys (root tree).
Proof.
  intros Hr. destruct (reachable_inv _ Hr) as [Hb Hk _].
  unfold listTasks. rewrite (keyed_priorities _ Hk). auto.
Qed.

Lemma listTasks_strictly_ascending_witness :
  StronglySorted Z.lt (map priority (listTasks sample_tree))
  /\ map priority (listTasks sample_tree) = keys (root sample_tree).
Proof.
  apply (listTasks_strictly_ascending sample_tree).
  apply reach_rebuild, reach_empty.
Defined.

(** X6.  [search] never follows a dangling pointer and never returns a
    stale record: in every state of the index, a task returned by
    [search(id)] has that id and is one of the listed tasks, and [search]
    returns the null pointer exactly when the id is not in [idMap]. *)
Theorem search_returns_live_task (tree : AVLTree) (i : string) :
  reachable tree ->
  (forall t, search i tree = Some t -> id t = i /\ t ∈ listTasks tree)
  /\ (search i tree = None <-> idMap tree !! i = None).
Proof.
  intros Hr. pose proof (search_reachable tree i Hr) as H.
  destruct (search i tree) as [t|] eqn:Hs.
  - destruct H as (Hi & Hin & Hm). split.
    + intros u [= <-]. auto.
    + split; [discriminate|]. intros Hn. rewrite Hn in Hm.
      now destruct Hm.
  - split; [discriminate|]. tauto.
Qed.

Lemma search_returns_live_task_witness :
  (forall t, search "b" sample_tree = Some t ->
     id t = "b"%string /\ t ∈ listTasks sample_tree)
  /\ (search "b" sample_tree = None <-> idMap sample_tree !! "b"%string = None).
Proof.
  apply (search_returns_live_task sample_tree "b").
  apply reach_rebuild, reach_empty.
Defined.

(** X7.  One insertion makes the tree at most one level higher and one
    deletion at most one level lower; neither ever changes the height by
    more. *)
Theorem height_changes_by_one (tree : AVLTree) :
  reachable tree ->
  (forall task tree', insert task tree = (Ok tt, tree') ->
     (tree_height (root tree) <= tree_height (root tree')
      <= S (tree_height (root tree)))%nat)
  /\ (forall i,
     (tree_height (root (snd (deleteTask i tree))) <= tree_height (root tree)
      <= S (tree_height (root (snd (deleteTask i tree)))))%nat).
Proof.
  intros Hr. destruct (reachable_inv _ Hr) as [_ _ Ha]. split.
  - intros task tree'. unfold insert.
    destruct (idMap tree !! id task); [discriminate|].
    unfold assign_root.
    destruct (insertHelper _ _ _) as [[n'|e] st'] eqn:E; [|discriminate].
    intros [= <-]. simpl.
    destruct (insertHelper_avl _ _ _ _ _ Ha E) as [Ha' Hh].
    rewrite (avl_stored_height _ Ha), (avl_stored_height _ Ha') in Hh. lia.
  - intros i. unfold deleteTask.
    destruct (idMap tree !! i); [|simpl; lia].
    destruct (deref _ _) as [[|b t key l r h]|]; try (simpl; lia).
    unfold assign_root.
    destruct (deleteHelper _ _ _) as [[n'|e] st'] eqn:E; [|simpl; lia].
    cbn [snd root].
    destruct (deleteHelper_avl _ _ _ _ _ Ha E) as [Ha' Hh].
    rewrite (avl_stored_height _ Ha), (avl_stored_height _ Ha') in Hh. lia.
Qed.

Lemma height_changes_by_one_witness :
  (forall task tree', insert task sample_tree = (Ok tt, tree') ->
     (tree_height (root sample_tree) <= tree_height (root tree')
      <= S (tree_height (root sample_tree)))%nat)
  /\ (forall i,
     (tree_height (root (snd (deleteTask i sample_tree)))
      <= tree_height (root sample_tree)
      <= S (tree_height (root (snd (deleteTask i sample_tree)))))%nat).
Proof.
  apply (height_changes_by_one sample_tree).
  apply reach_rebuild, reach_empty.
Defined.

Lemma search_of_cell tree i a t :
  map_inv tree -> idMap tree !! i = Some a -> (a, t) ∈ cells (root tree) ->
  search i tree = Some t.
Proof.
  intros [Hnd _ _] Hm Hc. unfold search. rewrite Hm.
  destruct (cells_deref _ _ _ Hnd Hc) as (m & -> & Hm'). exact Hm'.
Qed.

(** X8.  [insert] of a task whose id is not in [idMap] and whose priority
    is not a key returns normally; afterwards the task is listed at its
    place in ascending priority order next to all the old tasks,
    [search] finds it under its id, and [search] answers for every other
    id as it did before. *)
Theorem insert_adds_task (task : Task) (tree : AVLTree) :
  reachable tree ->
  idMap tree !! id task = None ->
  priority task ∉ keys (root tree) ->
  exists tree',
    insert task tree = (Ok tt, tree')
    /\ listTasks tree' ≡ₚ task :: listTasks tree
    /\ StronglySorted Z.lt (map priority (listTasks tree'))
    /\ search (id task) tree' = Some task
    /\ (forall j, j <> id task -> search j tree' = search j tree).
Proof.
  intros Hr Hid Hkey.
  destruct (reachable_inv _ Hr) as [Hb Hk Ha].
  pose proof (reachable_map_inv _ Hr) as Hm.
  pose proof (assign_root_insertHelper_map_inv task tree Hm) as Hm'.
  unfold insert. rewrite Hid. unfold assign_root in *.
  destruct (insertHelper_fresh_key (root tree) task
              (mkStore (idMap tree) (next tree)) Hkey) as (n' & st' & E).
  rewrite E in *. cbn [snd] in Hm'.
  destruct (insertHelper_ok _ _ _ _ _ Hb E) as (He & _ & _).
  destruct (insertHelper_cells _ _ _ _ _ E) as (Hc & ->).
  cbn [st_idMap st_next] in *.
  eexists. split; [reflexivity|].
  split; [|split; [|split]].
  - unfold listTasks; cbn [root]. rewrite !inOrder_entries, He.
    now rewrite (entry_insert_perm _ _).
  - unfold listTasks; cbn [root].
    rewrite (keyed_priorities n'); [eapply insertHelper_bst; eauto|].
    eapply insertHelper_keyed; eauto.
  - apply (search_of_cell _ _ (next tree)); [exact Hm'| |].
    + cbn [idMap]. apply lookup_insert_eq.
    + cbn [root]. rewrite Hc. left.
  - intros j Hj.
    assert (Hlk : <[id task := next tree]> (idMap tree) !! j = idMap tree !! j)
      by (apply lookup_insert_ne; congruence).
    destruct (idMap tree !! j) as [a|] eqn:Hja.
    + destruct (map_live _ Hm _ _ Hja) as (t & Ht & _).
      rewrite (search_of_cell tree j a t Hm Hja Ht).
      apply (search_of_cell _ j a t Hm'); [exact Hlk|].
      cbn [root]. rewrite Hc. now right.
    + unfold search. cbn [idMap]. now rewrite Hlk, Hja.
Qed.

Lemma insert_adds_task_witness :
  exists tree',
    insert (mkTask "d" "fourth" "N/A" 7 "home" "incomplete" 30) sample_tree
      = (Ok tt, tree')
    /\ listTasks tree'
       ≡ₚ mkTask "d" "fourth" "N/A" 7 "home" "incomplete" 30 :: listTasks sample_tree
    /\ StronglySorted Z.lt (map priority (listTasks tree'))
    /\ search "d" tree' = Some (mkTask "d" "fourth" "N/A" 7 "home" "incomplete" 30)
    /\ (forall j, j <> "d"%string -> search j tree' = search j sample_tree).
Proof.
  apply (insert_adds_task (mkTask "d" "fourth" "N/A" 7 "home" "incomplete" 30)
           sample_tree).
  - apply reach_rebuild, reach_empty.
  - vm_compute. reflexivity.
  - replace (keys (root sample_tree)) with [1; 2; 3] by (vm_compute; reflexivity).
    cbn [priority]. rewrite !not_elem_of_cons. repeat split; try lia.
    apply not_elem_of_nil.
Defined.

Lemma deref_entries node a b t k l r h :
  deref node a = Some (mkNode b t k l r h) -> (k, t) ∈ entries node.
Proof.
  induction node as [|b' t' k' l' IHl r' IHr h']; simpl; [discriminate|].
  destruct (decide (a = b')) as [Heq|Hne].
  - intros [= -> -> -> -> -> ->]. apply elem_of_app. right. left.
  - destruct (deref l' a) as [m|] eqn:El.
    + intros [= ->]. apply elem_of_app. left. now apply IHl.
    + intros H. apply elem_of_app. right. right. now apply IHr.
Qed.

(** [deleteHelper] erases from [idMap] the id of the task that is stored
    under the key it deletes. *)
Lemma deleteHelper_erases node key t st n' st' :
  bst node -> (key, t) ∈ entries node ->
  deleteHelper node key st = (Ok n', st') ->
  st_idMap st' !! id t = None.
Proof.
  revert st n' st'.
  induction node as [|a u k l IHl r IHr h]; intros st n' st' Hb Hin.
  - now apply elem_of_nil in Hin.
  - apply bst_node in Hb as (Hbl & Hbr & Hl & Hr).
    assert (Hkl : forall x, (key, x) ∈ entries l -> key < k).
    { intros x Hx. rewrite Forall_forall in Hl. apply Hl.
      unfold keys. apply list_elem_of_fmap. exists (key, x). auto. }
    assert (Hkr : forall x, (key, x) ∈ entries r -> k < key).
    { intros x Hx. rewrite Forall_forall in Hr. apply Hr.
      unfold keys. apply list_elem_of_fmap. exists (key, x). auto. }
    cbn [entries] in Hin. rewrite elem_of_app, elem_of_cons in Hin.
    cbn [deleteHelper].
    destruct (Z.ltb_spec key k) as [H1|H1].
    + unfold bind. destruct (deleteHelper l key st) as [[l'|e'] st1] eqn:El;
        [|discriminate].
      unfold ret. intros [= <- <-].
      destruct Hin as [Hin|[[= -> ->]|Hin]];
        [eapply IHl; eauto|lia|apply Hkr in Hin; lia].
    + destruct (Z.ltb_spec k key) as [H2|H2].
      * unfold bind. destruct (deleteHelper r key st) as [[r'|e'] st1] eqn:Er;
          [|discriminate].
        unfold ret. intros [= <- <-].
        destruct Hin as [Hin|[[= -> ->]|Hin]];
          [apply Hkl in Hin; lia|lia|eapply IHr; eauto].
      * assert (t = u) as ->.
        { destruct Hin as [Hin|[[= _ ->]|Hin]];
            [apply Hkl in Hin; lia|reflexivity|apply Hkr in Hin; lia]. }
        unfold bind, idMap_erase.
        assert (He : delete (id u) (st_idMap st) !! id u = None)
          by apply lookup_delete_eq.
        destruct l as [|al tl kl ll rl hl];
          [unfold ret; now intros [= <- <-]|].
        destruct r as [|ar tr kr lr rr hr];
          [unfold ret; now intros [= <- <-]|].
        destruct (findMin_head ar tr kr lr rr hr)
          as (b & tm & km & mr & hm & rest & Hf & _).
        rewrite Hf.
        match goal with |- context [deleteHelper ?n km ?s] =>
          destruct (deleteHelper n km s) as [[r'|e'] st1] eqn:Er end;
          [|discriminate].
        unfold ret. intros [= <- <-].
        apply deleteHelper_cells in Er as (_ & _ & Hm & _). cbn [st_idMap] in Hm.
        destruct (st_idMap st1 !! id u) as [c|] eqn:Hc; [|reflexivity].
        apply Hm in Hc. congruence.
Qed.

Lemma filter_keeps_other_priorities key (l : list Task) :
  Forall (fun y => priority y <> key) l -> filter (priority_is_not key) l = l.
Proof.
  induction 1 as [|y l Hy _ IH]; [reflexivity|].
  rewrite filter_cons_True by exact Hy. now rewrite IH.
Qed.

Lemma filter_removes_one (l : list Task) t :
  StronglySorted Z.lt (map priority l) -> t ∈ l ->
  S (length (filter (priority_is_not (priority t)) l)) = length l.
Proof.
  induction l as [|x l IH]; intros Hs Hin; [now apply elem_of_nil in Hin|].
  cbn [map] in Hs. apply StronglySorted_cons in Hs as [Hx Hs].
  rewrite Forall_map in Hx. rewrite Forall_forall in Hx.
  apply elem_of_cons in Hin as [->|Hin].
  - rewrite filter_cons_False by (unfold priority_is_not; tauto).
    rewrite filter_keeps_other_priorities; [reflexivity|].
    apply Forall_forall. intros y Hy.
    specialize (Hx y Hy). simpl in Hx. lia.
  - rewrite filter_cons_True
      by (unfold priority_is_not; specialize (Hx t Hin); simpl in Hx; lia).
    simpl. now rewrite IH.
Qed.

(** X9.  [deleteTask(id)] for an id that [search] finds returns normally
    and removes exactly the task that [search] returned: the task is no
    longer listed, every other listed task stays, with its priority and in
    its place, the list is one shorter, and [search(id)] returns the null
    pointer. *)
Theorem deleteTask_removes_task (i : string) (t : Task) (tree : AVLTree) :
  reachable tree ->
  search i tree = Some t ->
  exists tree',
    deleteTask i tree = (Ok tt, tree')
    /\ id t = i
    /\ listTasks tree' = filter (priority_is_not (priority t)) (listTasks tree)
    /\ (t ∉ listTasks tree')
    /\ S (length (listTasks tree')) = length (listTasks tree)
    /\ search i tree' = None.
Proof.
  intros Hr Hs.
  destruct (reachable_inv _ Hr) as [Hb Hk Ha].
  pose proof (search_reachable tree i Hr) as Hsr. rewrite Hs in Hsr.
  destruct Hsr as (Hid & Hin & _).
  unfold search in Hs. unfold deleteTask.
  destruct (idMap tree !! i) as [a|] eqn:Hm; [|discriminate].
  destruct (deref (root tree) a) as [[|b u key l r h]|] eqn:Hd; try discriminate.
  injection Hs as ->.
  assert (Hkey : key = priority t).
  { apply deref_entries in Hd. unfold keyed in Hk. rewrite Forall_forall in Hk.
    apply (Hk _ Hd). }
  subst key.
  destruct (deleteHelper_entries (root tree) (priority t)
              (mkStore (idMap tree) (next tree)) Hb) as (n' & st' & Hdel & He & _).
  unfold assign_root. rewrite Hdel.
  eexists. split; [reflexivity|]. split; [exact Hid|].
  assert (Hl : inOrder n'
               = filter (priority_is_not (priority t)) (listTasks tree)).
  { unfold listTasks. rewrite !inOrder_entries, He.
    now apply filter_entries_tasks. }
  change (inOrder n')
    with (listTasks (mkAVLTree n' (st_idMap st') (st_next st'))) in Hl.
  rewrite !Hl.
  split; [reflexivity|]. split; [|split].
  - intros Hx. apply list_elem_of_filter in Hx as [Hx _]. now apply Hx.
  - apply filter_removes_one; [|exact Hin].
    unfold listTasks. now rewrite (keyed_priorities _ Hk).
  - unfold search. cbn [idMap].
    apply deref_entries in Hd.
    rewrite <- Hid.
    now rewrite (deleteHelper_erases _ _ _ _ _ _ Hb Hd Hdel).
Qed.

Lemma deleteTask_removes_task_witness :
  exists tree',
    deleteTask "a" sample_tree = (Ok tt, tree')
    /\ id (mkTask "a" "first" "N/A" 1 "home" "incomplete" 5) = "a"%string
    /\ listTasks tree'
       = filter (priority_is_not
                   (priority (mkTask "a" "first" "N/A" 1 "home" "incomplete" 5)))
                (listTasks sample_tree)
    /\ (mkTask "a" "first" "N/A" 1 "home" "incomplete" 5 ∉ listTasks tree')
    /\ S (length (listTasks tree')) = length (listTasks sample_tree)
    /\ search "a" tree' = None.
Proof.
  apply (deleteTask_removes_task "a"
           (mkTask "a" "first" "N/A" 1 "home" "incomplete" 5) sample_tree).
  - apply reach_rebuild, reach_empty.
  - vm_compute. reflexivity.
Defined.

(** ** Rebuilding from any list *)

Lemma ascending_NoDup (l : list Z) : StronglySorted Z.lt l -> NoDup l.
Proof.
  induction 1 as [|x l _ IH Hx]; constructor; [|exact IH].
  intros Hin. rewrite Forall_forall in Hx. specialize (Hx _ Hin). lia.
Qed.

Lemma insert_each_distinct tasks tree :
  bst (root tree) ->
  NoDup (keys (root tree) ++ map priority tasks) ->
  exists tree',
    insert_each tasks tree = (Ok tt, tree')
    /\ entries (root tree') ≡ₚ entries (root tree) ++ map entry_of tasks.
Proof.
  revert tree. induction tasks as [|t rest IH]; intros tree Hb Hnd.
  - exists tree. split; [reflexivity|]. simpl. now rewrite app_nil_r.
  - assert (Hn : priority t ∉ keys (root tree)).
    { apply NoDup_app in Hnd as (_ & Hd & _). intros Hin.
      apply (Hd _ Hin). left. }
    cbn [insert_each]. unfold assign_root.
    destruct (insertHelper_fresh_key (root tree) t
                (mkStore (idMap tree) (next tree)) Hn) as (n' & st' & Hi).
    rewrite Hi.
    destruct (insertHelper_ok _ _ _ _ _ Hb Hi) as (He & _ & _).
    assert (Hp : entries n' ≡ₚ entry_of t :: entries (root tree))
      by (rewrite He; apply entry_insert_perm).
    destruct (IH (mkAVLTree n' (st_idMap st') (st_next st'))) as (tree' & Hr & He').
    + cbn [root]. eapply insertHelper_bst; eauto.
    + cbn [root]. unfold keys. rewrite Hp. cbn [map fst entry_of].
      cbn [map] in Hnd. fold (keys (root tree)).
      rewrite <- Permutation_middle in Hnd. exact Hnd.
    + exists tree'. split; [exact Hr|]. rewrite He'. cbn [root map].
      rewrite Hp. simpl. now rewrite <- Permutation_middle.
Qed.

Lemma rebuild_distinct tasks tree :
  NoDup (map priority tasks) ->
  exists tree',
    rebuild tasks tree = (Ok tt, tree')
    /\ listTasks tree' ≡ₚ tasks
    /\ StronglySorted Z.lt (map priority (listTasks tree')).
Proof.
  intros Hnd. unfold rebuild.
  destruct (insert_each_distinct tasks (clear tree)) as (tree' & Hr & He);
    [constructor|exact Hnd|].
  exists tree'. split; [exact Hr|].
  pose proof (rebuild_inv tasks tree) as [Hb Hk _].
  unfold rebuild in Hb, Hk. rewrite Hr in Hb, Hk. cbn [snd] in Hb, Hk.
  split.
  - unfold listTasks. rewrite inOrder_entries, He. cbn [clear root entries app].
    now rewrite map_snd_entry_of.
  - unfold listTasks. now rewrite (keyed_priorities _ Hk).
Qed.

(** X10.  [rebuild] of a list whose priorities are pairwise different
    returns normally, whatever the order of the list; afterwards
    [listTasks()] holds exactly the tasks of the list in strictly ascending
    priority order, so two lists with the same tasks in different orders
    give the same [listTasks()]. *)
Theorem rebuild_sorts_any_order (tasks : list Task) (tree : AVLTree) :
  NoDup (map priority tasks) ->
  exists tree',
    rebuild tasks tree = (Ok tt, tree')
    /\ listTasks tree' ≡ₚ tasks
    /\ StronglySorted Z.lt (map priority (listTasks tree'))
    /\ (forall tasks2 tree2,
          tasks2 ≡ₚ tasks ->
          listTasks (snd (rebuild tasks2 tree2)) = listTasks tree').
Proof.
  intros Hnd.
  destruct (rebuild_distinct tasks tree Hnd) as (tree' & Hr & Hp & Hs).
  exists tree'. split; [exact Hr|]. split; [exact Hp|]. split; [exact Hs|].
  intros tasks2 tree2 Hperm.
  assert (Hnd2 : NoDup (map priority tasks2)) by now rewrite Hperm.
  destruct (rebuild_distinct tasks2 tree2 Hnd2) as (tree2' & Hr2 & Hp2 & Hs2).
  rewrite Hr2. cbn [snd].
  apply sorted_by_priority_unique; [|
    |exact Hs].
  - now rewrite Hp2, Hperm, Hp.
  - apply sorted_map_priority in Hs2.
    eapply strongly_sorted_weaken; [|exact Hs2]. simpl. intros; lia.
Qed.

Lemma rebuild_sorts_any_order_witness :
  exists tree',
    rebuild (rev sample_tasks) empty_tree = (Ok tt, tree')
    /\ listTasks tree' ≡ₚ rev sample_tasks
    /\ StronglySorted Z.lt (map priority (listTasks tree'))
    /\ (forall tasks2 tree2,
          tasks2 ≡ₚ rev sample_tasks ->
          listTasks (snd (rebuild tasks2 tree2)) = listTasks tree').
Proof.
  apply (rebuild_sorts_any_order (rev sample_tasks) empty_tree).
  simpl. repeat constructor; rewrite ?elem_of_cons, ?elem_of_nil; lia.
Defined.

(** X11.  [rebuild] throws exactly when two tasks of the list have the
    same priority, and then with "Duplicate priority encountered."; ids
    are not checked. *)
Theorem rebuild_throws_iff_duplicate_priority (tasks : list Task) (tree : AVLTree) :
  (NoDup (map priority tasks) -> fst (rebuild tasks tree) = Ok tt)
  /\ (~ NoDup (map priority tasks) ->
      fst (rebuild tasks tree) = Throw DuplicatePriorityKey).
Proof.
  split.
  - intros Hnd. destruct (rebuild_distinct tasks tree Hnd) as (tree' & -> & _).
    reflexivity.
  - intros Hdup. unfold rebuild.
    destruct (insert_each tasks (clear tree)) as [[[]|e] tree'] eqn:E.
    + exfalso. apply Hdup.
      apply insert_each_keys in E as [Hb Hp]; [|constructor].
      cbn [clear root] in Hp. unfold keys at 2 in Hp. cbn [entries map app] in Hp.
      rewrite <- Hp. now apply ascending_NoDup.
    + apply insert_each_throw in E as (-> & _). reflexivity.
Qed.

Lemma rebuild_throws_iff_duplicate_priority_witness :
  fst (rebuild sample_tasks empty_tree) = Ok tt
  /\ fst (rebuild duplicate_priority_tasks empty_tree) = Throw DuplicatePriorityKey.
Proof.
  split.
  - apply (rebuild_throws_iff_duplicate_priority sample_tasks empty_tree).
    simpl. repeat constructor; rewrite ?elem_of_cons, ?elem_of_nil; lia.
  - apply (rebuild_throws_iff_duplicate_priority duplicate_priority_tasks empty_tree).
    simpl. intros H. apply NoDup_cons in H as [H _]. apply H. left.
Defined.

Lemma insert_each_app l1 l2 tree :
  insert_each (l1 ++ l2) tree
  = match insert_each l1 tree with
    | (Ok _, tree1) => insert_each l2 tree1
    | (Throw e, tree1) => (Throw e, tree1)
    end.
Proof.
  revert tree. induction l1 as [|t l1 IH]; intros tree; [reflexivity|].
  cbn [app insert_each].
  destruct (assign_root _ _) as [[[]|e] tree1]; [apply IH|reflexivity].
Qed.

(** The insertion loop of [rebuild] keeps every node it has made and
    touches no [idMap] entry but those of the ids it inserts. *)
Lemma insert_each_keeps l tree tree' :
  insert_each l tree = (Ok tt, tree') ->
  (forall c, c ∈ cells (root tree) -> c ∈ cells (root tree'))
  /\ (forall i, i ∉ map id l -> idMap tree' !! i = idMap tree !! i).
Proof.
  revert tree. induction l as [|t l IH]; intros tree.
  - intros [= <-]. auto.
  - cbn [insert_each]. unfold assign_root.
    destruct (insertHelper _ _ _) as [[n'|e] st'] eqn:E; [|discriminate].
    intros H. apply IH in H as [Hc Hm].
    apply insertHelper_cells in E as [Hp ->]. cbn [root idMap st_idMap] in *.
    split.
    + intros c Hin. apply Hc. rewrite Hp. now right.
    + intros i Hi. cbn [map] in Hi. apply not_elem_of_cons in Hi as [Hne Hi].
      rewrite (Hm i Hi). apply lookup_insert_ne. congruence.
Qed.

(** X12.  After a [rebuild] that returns, [search(id)] finds the task of
    the list with that id, the last one if several tasks of the list share
    the id ([rebuild] does not check ids), and returns the null pointer
    for an id that no task of the list has.  With pairwise different ids
    every task of the list is found under its id. *)
Theorem rebuild_then_search (tasks : list Task) (tree : AVLTree) :
  NoDup (map priority tasks) ->
  (forall pre t post,
     tasks = pre ++ t :: post -> id t ∉ map id post ->
     search (id t) (snd (rebuild tasks tree)) = Some t)
  /\ (forall j, j ∉ map id tasks -> search j (snd (rebuild tasks tree)) = None)
  /\ (NoDup (map id tasks) ->
      forall t, t ∈ tasks -> search (id t) (snd (rebuild tasks tree)) = Some t).
Proof.
  intros Hnd.
  destruct (rebuild_distinct tasks tree Hnd) as (tree' & Hr & _).
  rewrite Hr. cbn [snd]. unfold rebuild in Hr.
  assert (Hinv : map_inv tree').
  { pose proof (insert_each_map_inv tasks (clear tree) (map_inv_empty _)) as H.
    now rewrite Hr in H. }
  assert (Hlast : forall pre t post,
            tasks = pre ++ t :: post -> id t ∉ map id post ->
            search (id t) tree' = Some t).
  { intros pre t post -> Hpost.
    rewrite insert_each_app in Hr.
    destruct (insert_each pre (clear tree)) as [[[]|e] tree1]; [|discriminate].
    cbn [insert_each] in Hr. unfold assign_root in Hr.
    destruct (insertHelper _ _ _) as [[n2|e] st2] eqn:E; [|discriminate].
    apply insert_each_keeps in Hr as [Hc Hm].
    apply insertHelper_cells in E as [Hp ->]. cbn [root idMap st_idMap st_next] in *.
    apply (search_of_cell tree' (id t) (next tree1) t Hinv).
    - rewrite (Hm _ Hpost). apply lookup_insert_eq.
    - apply Hc. rewrite Hp. left. }
  split; [exact Hlast|]. split.
  - intros j Hj. apply insert_each_keeps in Hr as [_ Hm].
    unfold search. rewrite (Hm j Hj). cbn [clear idMap].
    now rewrite lookup_empty.
  - intros Hids t Hin.
    apply list_elem_of_split in Hin as (pre & post & Heq).
    apply (Hlast pre t post Heq).
    rewrite Heq, map_app in Hids. cbn [map] in Hids.
    apply NoDup_app in Hids as (_ & _ & Hids).
    now apply NoDup_cons in Hids as [Hids _].
Qed.

Lemma rebuild_then_search_witness :
  search "a" (snd (rebuild shared_id_tasks empty_tree))
    = Some (mkTask "a" "second" "N/A" 2 "home" "incomplete" 20)
  /\ search "zz" (snd (rebuild sample_tasks empty_tree)) = None
  /\ search "b" (snd (rebuild sample_tasks empty_tree))
     = Some (mkTask "b" "second" "N/A" 2 "home" "incomplete" 20).
Proof.
  assert (H1 : NoDup (map priority shared_id_tasks)).
  { simpl. repeat constructor; rewrite ?elem_of_cons, ?elem_of_nil; lia. }
  assert (H2 : NoDup (map priority sample_tasks)).
  { simpl. repeat constructor; rewrite ?elem_of_cons, ?elem_of_nil; lia. }
  split; [|split].
  - apply (proj1 (rebuild_then_search shared_id_tasks empty_tree H1)
             [mkTask "a" "first" "N/A" 1 "home" "incomplete" 5]
             (mkTask "a" "second" "N/A" 2 "home" "incomplete" 20) []).
    + reflexivity.
    + apply not_elem_of_nil.
  - apply (proj1 (proj2 (rebuild_then_search sample_tasks empty_tree H2))).
    simpl. rewrite !not_elem_of_cons. repeat split; try discriminate.
    apply not_elem_of_nil.
  - assert (H3 : NoDup (map id sample_tasks)).
    { apply (bool_decide_eq_true_1 (NoDup (map id sample_tasks))).
      vm_compute. reflexivity. }
    apply (proj2 (proj2 (rebuild_then_search sample_tasks empty_tree H2)) H3
             (mkTask "b" "second" "N/A" 2 "home" "incomplete" 20)).
    right. left.
Defined.

(** ** The choices of the menu *)

Lemma ranked_partitioned (l : list Task) :
  StronglySorted ranked_before l -> partitioned l /\ deadline_ordered l.
Proof.
  intros Hs. split.
  - unfold partitioned. apply Forall_forall. intros a Ha.
    apply Forall_forall. intros b Hb Hia Hib.
    destruct (strongly_sorted_pairs _ _ a b Hs Ha Hb)
      as [->|[[H _]|[_ [H _]]]]; [contradiction|exact H|].
    exfalso. apply Hib, H, Hia.
  - intros a b Ha Hb Hia Hib Hlt.
    destruct (strongly_sorted_pairs _ _ a b Hs Ha Hb)
      as [->|[[_ [_ H]]|[H _]]]; [lia|auto|lia].
Qed.

Lemma first_later_prefix total tasks d :
  Exists (fun t => total < remainingHours t) tasks ->
  exists pre t post,
    tasks = pre ++ t :: post
    /\ first_later total tasks d = priority t
    /\ total < remainingHours t
    /\ Forall (fun x => remainingHours x <= total) pre.
Proof.
  induction tasks as [|x l IH]; intros H; [now apply Exists_nil in H|].
  simpl. destruct (total <? remainingHours x) eqn:E.
  - apply Z.ltb_lt in E. exists [], x, l. auto.
  - apply Z.ltb_ge in E. apply Exists_cons in H as [H|H]; [lia|].
    destruct (IH H) as (pre & t & post & -> & Hf & Ht & Hpre).
    exists (x :: pre), t, post. repeat split; auto.
Qed.

(** On a list that is also in ascending order of remaining hours, the rank
    computed by lines 124-147 separates the tasks with at most the new
    remaining hours from those with more. *)
Lemma rankForInsertion_hours tasks total p tasks' :
  StronglySorted Z.lt (map priority tasks) ->
  Forall (fun t => 1 <= priority t) tasks ->
  StronglySorted (fun a b => remainingHours a <= remainingHours b) tasks ->
  rankForInsertion tasks "incomplete" total = (p, tasks') ->
  exists pre post,
    tasks = pre ++ post
    /\ Forall (fun t => priority t < p) pre
    /\ Forall (fun t => p <= priority t) post
    /\ Forall (fun t => remainingHours t <= total) pre
    /\ Forall (fun t => total < remainingHours t) post.
Proof.
  intros Hs Hpos Hh. unfold rankForInsertion.
  change (String.eqb "incomplete" "complete") with false. cbv iota.
  destruct tasks as [|f rest] eqn:Htasks.
  { cbn [head]. intros [= <- <-]. exists [], []. repeat split; constructor. }
  rewrite <- Htasks in *. assert (Hf : head tasks = Some f) by now subst.
  rewrite Hf.
  destruct (last tasks) as [b|] eqn:Hb.
  2:{ apply last_None in Hb. subst tasks. discriminate. }
  apply last_Some in Hb as [init Hinit].
  assert (Hfirst : Forall (fun x => remainingHours f <= remainingHours x) tasks).
  { rewrite Htasks in Hh |- *. apply StronglySorted_cons in Hh as [Hh _].
    constructor; [lia|exact Hh]. }
  assert (Hlast : Forall (fun x => remainingHours x <= remainingHours b) tasks).
  { rewrite Hinit in Hh |- *. apply Forall_app. split; [|repeat constructor; lia].
    apply Forall_forall. intros x Hx.
    apply (StronglySorted_app_1_elem_of _ init [b] x b Hh Hx). left. }
  assert (Hmax : Forall (fun x => priority x < priority b + 1) tasks).
  { rewrite Hinit in Hs |- *. rewrite map_app in Hs. simpl in Hs.
    apply Forall_app. split; [|repeat constructor; lia].
    apply Forall_forall. intros x Hx.
    assert (priority x < priority b); [|lia].
    eapply StronglySorted_app_1_elem_of; [exact Hs| |left].
    apply list_elem_of_fmap. eauto. }
  assert (Hbin : b ∈ tasks).
  { rewrite Hinit. apply elem_of_app. right. left. }
  clear Hinit init Htasks.
  destruct (Z.ltb_spec total (remainingHours f)) as [E1|E1].
  - intros [= <- <-]. exists [], tasks.
    split; [reflexivity|]. split; [constructor|]. split; [exact Hpos|].
    split; [constructor|].
    eapply Forall_impl; [exact Hfirst|]. simpl; intros; lia.
  - destruct (Z.leb_spec (remainingHours b) total) as [E2|E2].
    + intros [= <- <-]. exists tasks, []. rewrite app_nil_r.
      split; [reflexivity|]. split; [exact Hmax|]. split; [constructor|].
      split; [|constructor].
      eapply Forall_impl; [exact Hlast|]. simpl; intros; lia.
    + destruct (first_later_prefix total tasks 1)
        as (pre & t & post & Ht & Hfl & Hlt & Hpre).
      { apply Exists_exists. exists b. split; [exact Hbin|exact E2]. }
      rewrite Hfl. intros [= <- <-].
      exists pre, (t :: post). split; [exact Ht|].
      rewrite Ht in Hs, Hh. rewrite map_app in Hs.
      split; [|split; [|split; [exact Hpre|]]].
      * apply Forall_forall. intros x Hx.
        eapply StronglySorted_app_1_elem_of; [exact Hs| |simpl; left].
        apply list_elem_of_fmap. eauto.
      * apply StronglySorted_app_1_r in Hs.
        simpl in Hs. apply StronglySorted_cons in Hs as [Hs _].
        constructor; [lia|]. rewrite Forall_map in Hs.
        eapply Forall_impl; [exact Hs|]. simpl; intros; lia.
      * apply StronglySorted_app_1_r in Hh.
        apply StronglySorted_cons in Hh as [Hh _].
        constructor; [exact Hlt|].
        eapply Forall_impl; [exact Hh|]. simpl; intros; lia.
Qed.

Lemma gap_split_unique p (pre post pre' post' : list Task) :
  pre ++ post = pre' ++ post' ->
  Forall (fun t => priority t < p) pre -> Forall (fun t => p <= priority t) post ->
  Forall (fun t => priority t < p) pre' -> Forall (fun t => p <= priority t) post' ->
  pre = pre' /\ post = post'.
Proof.
  revert pre'. induction pre as [|x pre IH]; intros pre' Heq H1 H2 H3 H4.
  - destruct pre' as [|y pre']; [auto|].
    simpl in Heq. subst post.
    apply Forall_cons in H2 as [H2 _]. apply Forall_cons in H3 as [H3 _]. lia.
  - destruct pre' as [|y pre'].
    + simpl in Heq. subst post'.
      apply Forall_cons in H1 as [H1 _]. apply Forall_cons in H4 as [H4 _]. lia.
    + simpl in Heq. injection Heq as -> Heq.
      apply Forall_cons in H1 as [_ H1]. apply Forall_cons in H3 as [_ H3].
      destruct (IH pre' Heq H1 H2 H3 H4) as [-> ->]. auto.
Qed.

Lemma insertion_list_rank std_sort inp tasks :
  priority (fst (insertion_list std_sort inp tasks))
    = fst (rankForInsertion tasks "incomplete"
             (computeRemainingHours (in_years inp) (in_months inp)
                                    (in_days inp) (in_hours inp)))
  /\ remainingHours (fst (insertion_list std_sort inp tasks))
    = computeRemainingHours (in_years inp) (in_months inp)
                            (in_days inp) (in_hours inp).
Proof.
  unfold insertion_list.
  change (new_task_fields inp)
    with ("incomplete"%string,
          computeRemainingHours (in_years inp) (in_months inp) (in_days inp) (in_hours inp),
          deadlineString (in_years inp) (in_months inp) (in_days inp) (in_hours inp)).
  cbv iota beta.
  destruct (rankForInsertion tasks "incomplete" _) as [p tasks'].
  split; reflexivity.
Qed.

Lemma one_task_session : session insertion_sort one_task.
Proof.
  apply (session_step insertion_sort
           (ChoiceInsert (mkInsertInput "t10" "report" "work" 0 0 0 10))
           empty_tree one_task); [apply session_start|].
  vm_compute. reflexivity.
Qed.

Section Menu.

Variable std_sort : list Task -> (Task -> Task -> bool) -> list Task.
Hypothesis std_sort_contract : sort_contract std_sort.

(** X13.  In a run of [main] that starts with an empty table no choice
    ends in an exception: the lists that choices 1 and 2 hand to
    [rebuild] never repeat a priority, and the exception of [deleteTask]
    is caught.  After every choice the priorities are strictly ascending
    in [listTasks()] and at least 1. *)
Theorem session_choice_never_throws c tree :
  session std_sort tree ->
  exists tree',
    run_choice std_sort c tree = (Ok tt, tree')
    /\ session std_sort tree'
    /\ StronglySorted Z.lt (map priority (listTasks tree'))
    /\ Forall (fun t => 1 <= priority t) (listTasks tree').
Proof.
  intros Hs.
  pose proof (run_choice_returns std_sort std_sort_contract c tree Hs) as Hr.
  destruct (run_choice std_sort c tree) as [r tree'] eqn:E.
  simpl in Hr. subst r. exists tree'. split; [reflexivity|].
  assert (Hs' : session std_sort tree') by (eapply session_step; eauto).
  split; [exact Hs'|].
  pose proof (session_shell_inv std_sort std_sort_contract tree' Hs') as Hinv.
  split; [now apply shell_inv_ascending|now apply shell_positive].
Qed.

(** X14.  Choice 2 on an id that [search] finds restores the ordering
    policy, whatever the state of the index was (gaps left by deletions,
    incomplete tasks ranked behind complete ones): it returns, keeps the
    number of tasks, and afterwards the priorities are exactly 1..N, every
    incomplete task ranks before every complete one, and incomplete tasks
    are ranked by remaining hours. *)
Theorem update_status_restores_order i a tree t :
  reachable tree ->
  search i tree = Some t ->
  exists tree',
    update_status std_sort i a tree = (Ok tt, tree')
    /\ length (listTasks tree') = length (listTasks tree)
    /\ dense (listTasks tree')
    /\ partitioned (listTasks tree')
    /\ deadline_ordered (listTasks tree').
Proof.
  intros Hr Hs.
  pose proof (search_reachable tree i Hr) as Hsr. rewrite Hs in Hsr.
  destruct Hsr as (Hid & Hin & _).
  destruct (set_first_status_split i (new_status a) (listTasks tree))
    as (pre & u & post & Hsplit & Hu & Hpre & Hset); [eauto|].
  destruct (update_status_effect std_sort i a tree t _ Hs Hset)
    as (tree' & Hrun & Hres & _).
  exists tree'. split; [exact Hrun|]. rewrite Hres.
  split; [|split].
  - rewrite (renumberOnStatusChange_length std_sort std_sort_contract), Hsplit.
    rewrite !length_app. reflexivity.
  - unfold dense, renumberOnStatusChange.
    rewrite assign_priorities_priority.
    rewrite <- (length_map forget_priority (assign_priorities _ _)).
    now rewrite assign_priorities_forget, length_map.
  - apply ranked_partitioned.
    apply (renumberOnStatusChange_ranked std_sort std_sort_contract).
Qed.

(** X15.  Choice 1 on a list that is in ascending order of remaining hours
    keeps it so: the new task goes behind every task with at most its
    remaining hours (behind its equals, too) and before every task with
    more; the tasks before it keep their priority and the tasks behind it
    get theirs raised by one. *)
Theorem insert_task_places_by_hours inp tree :
  session std_sort tree ->
  search (in_id inp) tree = None ->
  StronglySorted (fun a b => remainingHours a <= remainingHours b)
    (listTasks tree) ->
  exists tree' newTask pre post,
    insert_task std_sort inp tree = (Ok tt, tree')
    /\ id newTask = in_id inp
    /\ remainingHours newTask
       = computeRemainingHours (in_years inp) (in_months inp)
                               (in_days inp) (in_hours inp)
    /\ listTasks tree = pre ++ post
    /\ listTasks tree' = pre ++ newTask :: map increment_priority post
    /\ Forall (fun t => remainingHours t <= remainingHours newTask) pre
    /\ Forall (fun t => remainingHours newTask < remainingHours t) post
    /\ StronglySorted (fun a b => remainingHours a <= remainingHours b)
         (listTasks tree').
Proof.
  intros Hses Hs Hh.
  pose proof (session_shell_inv std_sort std_sort_contract tree Hses) as Hinv.
  destruct (insert_task_effect std_sort std_sort_contract inp tree Hinv Hs)
    as (tree' & pre & post & Hrun & Hsplit & Hres & (Hpre & Hpost & _) & _).
  destruct (insertion_list_rank std_sort inp (listTasks tree)) as [Hp Hrh].
  destruct (insertion_list_new_task std_sort inp (listTasks tree)) as [_ Hid].
  set (newTask := fst (insertion_list std_sort inp (listTasks tree))) in *.
  set (total := computeRemainingHours (in_years inp) (in_months inp)
                  (in_days inp) (in_hours inp)) in *.
  destruct (rankForInsertion (listTasks tree) "incomplete" total)
    as [p tasks'] eqn:Hrank.
  simpl in Hp.
  destruct (rankForInsertion_hours _ _ _ _
              (shell_inv_ascending _ Hinv) (shell_positive _ Hinv) Hh Hrank)
    as (pre2 & post2 & Hsplit2 & Hpre2 & Hpost2 & Hle & Hgt).
  rewrite Hp in Hpre, Hpost.
  destruct (gap_split_unique p pre post pre2 post2) as [-> ->]; auto.
  { now rewrite <- Hsplit, <- Hsplit2. }
  exists tree', newTask, pre2, post2.
  split; [exact Hrun|]. split; [exact Hid|]. split; [exact Hrh|].
  split; [exact Hsplit|]. split; [exact Hres|].
  rewrite Hrh. split; [exact Hle|]. split; [exact Hgt|].
  rewrite Hres. rewrite Hsplit in Hh.
  apply StronglySorted_app. split; [|split].
  - intros x1 x2 Hx1 Hx2. rewrite Forall_forall in Hle, Hgt.
    specialize (Hle _ Hx1).
    apply elem_of_cons in Hx2 as [->|Hx2]; [now rewrite Hrh|].
    apply list_elem_of_fmap in Hx2 as (y & -> & Hy).
    specialize (Hgt _ Hy). simpl. lia.
  - eapply StronglySorted_app_1_l; exact Hh.
  - apply StronglySorted_cons. split.
    + rewrite Forall_map. eapply Forall_impl; [exact Hgt|].
      simpl. intros; lia.
    + apply StronglySorted_app_1_r in Hh.
      apply (StronglySorted_fmap increment_priority
               (fun a b => remainingHours a <= remainingHours b)
               (fun a b => remainingHours a <= remainingHours b));
        [intros x y Hxy; exact Hxy|exact Hh].
Qed.

(** X16.  In a run of [main], choices 1 and 2 keep the priorities exactly
    1..N: choice 1 puts the new task into the gap it opens by raising the
    later priorities, and a choice that finds the id taken (choice 1) or
    unknown (choice 2) changes nothing.  Choice 3 is the one that does not
    renumber. *)
Theorem insert_and_update_keep_dense c tree :
  session std_sort tree ->
  dense (listTasks tree) ->
  (forall i, c <> ChoiceDelete i) ->
  dense (listTasks (snd (run_choice std_sort c tree))).
Proof.
  intros Hses Hd Hc.
  pose proof (session_shell_inv std_sort std_sort_contract tree Hses) as Hinv.
  destruct c as [inp|i a|i]; simpl.
  - destruct (search (in_id inp) tree) as [t|] eqn:Hs.
    + unfold insert_task. now rewrite Hs.
    + destruct (insert_task_effect std_sort std_sort_contract inp tree Hinv Hs)
        as (tree1 & pre & post & Hrun & Hsplit & Hres & Hgap & _).
      rewrite Hrun. simpl. rewrite Hres.
      rewrite Hsplit in Hd. now apply dense_insert.
  - unfold update_status.
    destruct (search i tree) as [t|] eqn:Hs; [|exact Hd].
    destruct (set_first_status i (new_status a) (listTasks tree))
      as [tasks|] eqn:Hset; [|exact Hd].
    destruct (update_status_effect std_sort i a tree t tasks Hs Hset)
      as (tree1 & Hrun & Hres & _).
    unfold update_status in Hrun. rewrite Hs, Hset in Hrun. rewrite Hrun.
    simpl. rewrite Hres. unfold dense, renumberOnStatusChange.
    rewrite assign_priorities_priority.
    rewrite <- (length_map forget_priority (assign_priorities _ _)).
    now rewrite assign_priorities_forget, length_map.
  - now destruct (Hc i).
Qed.

End Menu.

Lemma session_run_all std_sort choices tree :
  sort_contract std_sort ->
  session std_sort tree -> session std_sort (run_all std_sort choices tree).
Proof.
  intros Hc. unfold run_all. revert tree.
  induction choices as [|c choices IH]; intros tree Hs; simpl; [exact Hs|].
  apply IH.
  pose proof (run_choice_returns std_sort Hc c tree Hs) as Hr.
  destruct (run_choice std_sort c tree) as [r tree'] eqn:E.
  simpl in Hr. subst r. simpl. eapply session_step; eauto.
Qed.

Lemma scenario_A_session : session insertion_sort scenario_A.
Proof.
  exact (session_run_all insertion_sort
           [ChoiceInsert (hours_input "t10" 10);
            ChoiceInsert (hours_input "t5" 5);
            ChoiceInsert (hours_input "t20" 20)]
           empty_tree insertion_sort_contract (session_start insertion_sort)).
Qed.

Lemma session_choice_never_throws_witness :
  (exists tree',
     run_choice insertion_sort (ChoiceInsert (hours_input "t7" 7)) scenario_A
     = (Ok tt, tree')
     /\ session insertion_sort tree'
     /\ StronglySorted Z.lt (map priority (listTasks tree'))
     /\ Forall (fun t => 1 <= priority t) (listTasks tree'))
  /\ (exists tree',
     run_choice insertion_sort (ChoiceUpdate "t5" "y") scenario_A = (Ok tt, tree')
     /\ session insertion_sort tree'
     /\ StronglySorted Z.lt (map priority (listTasks tree'))
     /\ Forall (fun t => 1 <= priority t) (listTasks tree'))
  /\ (exists tree',
     run_choice insertion_sort (ChoiceDelete "t99") scenario_A = (Ok tt, tree')
     /\ session insertion_sort tree'
     /\ StronglySorted Z.lt (map priority (listTasks tree'))
     /\ Forall (fun t => 1 <= priority t) (listTasks tree')).
Proof.
  split; [|split].
  - exact (session_choice_never_throws insertion_sort insertion_sort_contract
             (ChoiceInsert (hours_input "t7" 7)) scenario_A scenario_A_session).
  - exact (session_choice_never_throws insertion_sort insertion_sort_contract
             (ChoiceUpdate "t5" "y") scenario_A scenario_A_session).
  - exact (session_choice_never_throws insertion_sort insertion_sort_contract
             (ChoiceDelete "t99") scenario_A scenario_A_session).
Defined.

Lemma update_status_restores_order_witness :
  reachable scenario_C
  /\ exists tree',
       update_status insertion_sort "t5" "n" scenario_C = (Ok tt, tree')
       /\ length (listTasks tree') = length (listTasks scenario_C)
       /\ dense (listTasks tree')
       /\ partitioned (listTasks tree')
       /\ deadline_ordered (listTasks tree').
Proof.
  assert (Hr : reachable scenario_C).
  { unfold scenario_C, scenario_B, scenario_A, run.
    repeat apply run_choice_reachable. apply reach_empty. }
  split; [exact Hr|].
  apply (update_status_restores_order insertion_sort insertion_sort_contract
           "t5" "n" scenario_C
           (mkTask "t5" "task" "0 year(s), 0 month(s), 0 day(s), 5 hour(s)"
                   1 "work" "incomplete" 5) Hr).
  vm_compute. reflexivity.
Defined.

Lemma insert_task_places_by_hours_witness :
  exists tree' newTask pre post,
    insert_task insertion_sort (hours_input "t10b" 10) one_task = (Ok tt, tree')
    /\ id newTask = "t10b"%string
    /\ remainingHours newTask = computeRemainingHours 0 0 0 10
    /\ listTasks one_task = pre ++ post
    /\ listTasks tree' = pre ++ newTask :: map increment_priority post
    /\ Forall (fun t => remainingHours t <= remainingHours newTask) pre
    /\ Forall (fun t => remainingHours newTask < remainingHours t) post
    /\ StronglySorted (fun a b => remainingHours a <= remainingHours b)
         (listTasks tree').
Proof.
  apply (insert_task_places_by_hours insertion_sort insertion_sort_contract
           (hours_input "t10b" 10) one_task one_task_session).
  - vm_compute. reflexivity.
  - replace (listTasks one_task)
      with [mkTask "t10" "report" "0 year(s), 0 month(s), 0 day(s), 10 hour(s)"
                   1 "work" "incomplete" 10] by (vm_compute; reflexivity).
    repeat constructor.
Defined.

Lemma insert_and_update_keep_dense_witness :
  dense (listTasks (snd (run_choice insertion_sort
                           (ChoiceInsert (hours_input "t5" 5)) one_task))).
Proof.
  apply (insert_and_update_keep_dense insertion_sort insertion_sort_contract
           (ChoiceInsert (hours_input "t5" 5)) one_task one_task_session).
  - vm_compute. reflexivity.
  - intros i. discriminate.
Defined.

(** ** [updateTaskStatus] *)

Lemma cells_entries_length node : length (entries node) = length (cells node).
Proof.
  induction node as [|b t k l IHl r IHr h]; simpl; [reflexivity|].
  rewrite !length_app. simpl. now rewrite IHl, IHr.
Qed.

(** The write changes the task at one position of the in-order contents
    and nothing else. *)
Lemma set_status_at_contents a s node n :
  deref node a = Some n ->
  exists (m : nat) t k,
    node_task n = Some t
    /\ cells node !! m = Some (a, t)
    /\ entries node !! m = Some (k, t)
    /\ cells (set_status_at a s node) = <[m := (a, set_status s t)]> (cells node)
    /\ entries (set_status_at a s node)
       = <[m := (k, set_status s t)]> (entries node).
Proof.
  revert n.
  induction node as [|b t k l IHl r IHr h]; intros n; simpl; [discriminate|].
  destruct (decide (a = b)) as [->|Hne].
  - intros [= <-]. exists (length (cells l)), t, k. simpl.
    split; [reflexivity|].
    split; [now apply list_lookup_middle|].
    split; [apply list_lookup_middle; symmetry; apply cells_entries_length|].
    split.
    + rewrite <- (Nat.add_0_r (length (cells l))) at 1.
      now rewrite insert_app_r.
    + rewrite <- cells_entries_length.
      rewrite <- (Nat.add_0_r (length (entries l))) at 1.
      now rewrite insert_app_r.
  - destruct (deref l a) as [n'|] eqn:El.
    + intros [= <-].
      destruct (IHl _ eq_refl) as (m & u & ku & Hu & Hc & He & Hcs & Hes).
      exists m, u, ku. simpl.
      split; [exact Hu|].
      split; [now apply lookup_app_l_Some|].
      split; [now apply lookup_app_l_Some|].
      apply lookup_lt_Some in Hc. apply lookup_lt_Some in He.
      rewrite Hcs, Hes. now rewrite !insert_app_l.
    + intros Hr.
      destruct (IHr _ Hr) as (m & u & ku & Hu & Hc & He & Hcs & Hes).
      exists (length (cells l) + S m)%nat, u, ku. simpl.
      split; [exact Hu|].
      split; [rewrite lookup_app_r by lia;
              now replace (length (cells l) + S m - length (cells l))%nat
                with (S m) by lia|].
      split; [rewrite lookup_app_r by (rewrite cells_entries_length; lia);
              now replace (length (cells l) + S m - length (entries l))%nat
                with (S m) by (rewrite cells_entries_length; lia)|].
      rewrite Hcs, Hes. split.
      * now rewrite insert_app_r.
      * rewrite <- cells_entries_length. now rewrite insert_app_r.
Qed.

Lemma set_status_at_height a s node :
  getHeight (set_status_at a s node) = getHeight node.
Proof.
  destruct node as [|b t k l r h]; simpl; [reflexivity|].
  destruct (decide (a = b)); [reflexivity|].
  destruct (deref l a); reflexivity.
Qed.

Lemma set_status_at_avl a s node : avl node -> avl (set_status_at a s node).
Proof.
  induction node as [|b t k l IHl r IHr h]; simpl; [auto|].
  intros (Hl & Hr & Hh & Hb).
  destruct (decide (a = b)); [simpl; auto|].
  destruct (deref l a); simpl; rewrite ?set_status_at_height; auto.
Qed.

Lemma map_insert_same {A B} (f : A -> B) (l : list A) (m : nat) (x y : A) :
  l !! m = Some x -> f y = f x -> map f (<[m := y]> l) = map f l.
Proof.
  intros Hl Hf. change (f <$> <[m := y]> l = f <$> l).
  rewrite list_fmap_insert. apply list_insert_id.
  rewrite list_lookup_fmap, Hl. simpl. now rewrite Hf.
Qed.

(** X17.  [updateTaskStatus(id, newStatus)] on an index that the other
    operations have built: for an id that [search] does not find it throws
    "Task ID not found." and changes nothing; otherwise it returns, the
    task has the new status in [listTasks()] at the place it had and under
    [search], every other task and every other [search] result is as
    before, and keys, tree shape invariants and the soundness of [idMap]
    are kept.  No priority is reassigned. *)
Theorem updateTaskStatus_effect i s tree :
  reachable tree ->
  match search i tree with
  | None => updateTaskStatus i s tree = (Throw NotFound, tree)
  | Some t =>
      exists tree' pre post,
        updateTaskStatus i s tree = (Ok tt, tree')
        /\ listTasks tree = pre ++ t :: post
        /\ listTasks tree' = pre ++ set_status s t :: post
        /\ search i tree' = Some (set_status s t)
        /\ (forall j, j <> i -> search j tree' = search j tree)
        /\ keys (root tree') = keys (root tree)
        /\ tree_inv (root tree')
        /\ map_inv tree'
  end.
Proof.
  intros Hr. pose proof (search_reachable tree i Hr) as Hsr.
  pose proof (reachable_map_inv _ Hr) as Hmap.
  pose proof (reachable_inv _ Hr) as [Hbst Hkeyed Havl].
  destruct (search i tree) as [t|] eqn:Hs.
  2:{ unfold updateTaskStatus. now rewrite Hsr. }
  destruct Hsr as (Hid & _ & [a Ha]).
  unfold updateTaskStatus. rewrite Ha.
  unfold search in Hs. rewrite Ha in Hs.
  destruct (deref (root tree) a) as [n|] eqn:Hd; [|discriminate].
  destruct (set_status_at_contents a s _ n Hd)
    as (m & u & k & Hu & Hc & He & Hcs & Hes).
  assert (u = t) by congruence. subst u. clear Hu.
  set (tree' := mkAVLTree (set_status_at a s (root tree)) (idMap tree) (next tree)).
  assert (Haddrs : addrs (root tree') = addrs (root tree)).
  { unfold addrs. simpl. rewrite Hcs. now apply (map_insert_same fst _ m (a, t)). }
  assert (Hkeys : keys (root tree') = keys (root tree)).
  { unfold keys. simpl. rewrite Hes. now apply (map_insert_same fst _ m (k, t)). }
  assert (Hother : forall b u, (b, u) ∈ cells (root tree) -> id u <> i ->
                     (b, u) ∈ cells (root tree')).
  { intros b u Hin Hne. apply list_elem_of_lookup in Hin as [m0 Hm0].
    simpl. rewrite Hcs. apply (list_elem_of_lookup_2 _ m0).
    rewrite list_lookup_insert_ne; [exact Hm0|].
    intros ->. rewrite Hc in Hm0. injection Hm0 as _ <-. contradiction. }
  assert (Hself : (a, set_status s t) ∈ cells (root tree')).
  { simpl. rewrite Hcs. apply list_elem_of_insert.
    now apply lookup_lt_Some in Hc. }
  assert (Hmap' : map_inv tree').
  { destruct Hmap as [Hnd Hbelow Hlive]. split.
    - now rewrite Haddrs.
    - now rewrite Haddrs.
    - intros j b Hj. simpl in Hj.
      destruct (Hlive _ _ Hj) as (u & Hin & Hu).
      destruct (decide (j = i)) as [->|Hne].
      + assert (b = a) by congruence. subst b.
        exists (set_status s t). split; [exact Hself|exact Hid].
      + exists u. split; [|exact Hu]. apply Hother; [exact Hin|congruence]. }
  exists tree', (map snd (take m (cells (root tree)))),
    (map snd (drop (S m) (cells (root tree)))).
  split; [reflexivity|]. split; [|split; [|split; [|split; [|split; [|split]]]]].
  - unfold listTasks. rewrite inOrder_cells.
    rewrite <- (take_drop_middle _ _ _ Hc) at 1.
    now rewrite map_app.
  - unfold listTasks. rewrite inOrder_cells. simpl. rewrite Hcs.
    rewrite insert_take_drop by (now apply lookup_lt_Some in Hc).
    now rewrite map_app.
  - now apply (search_of_cell tree' i a).
  - intros j Hne. unfold search at 2.
    destruct (idMap tree !! j) as [b|] eqn:Hj.
    + destruct (map_live _ Hmap _ _ Hj) as (u & Hin & Hu).
      destruct (cells_deref _ _ _ (map_nodup _ Hmap) Hin) as (n0 & -> & ->).
      apply (search_of_cell tree' j b); [exact Hmap'|exact Hj|].
      apply Hother; [exact Hin|congruence].
    + unfold search. simpl. now rewrite Hj.
  - exact Hkeys.
  - split.
    + unfold bst. now rewrite Hkeys.
    + unfold keyed. simpl. rewrite Hes. apply Forall_insert; [exact Hkeyed|].
      simpl. unfold keyed in Hkeyed. rewrite Forall_forall in Hkeyed.
      apply (Hkeyed (k, t)). now apply (list_elem_of_lookup_2 _ m).
    + now apply set_status_at_avl.
  - exact Hmap'.
Qed.

Lemma updateTaskStatus_effect_witness :
  exists tree' pre post,
    updateTaskStatus "b" "complete" sample_tree = (Ok tt, tree')
    /\ listTasks sample_tree
       = pre ++ mkTask "b" "second" "N/A" 2 "home" "incomplete" 20 :: post
    /\ listTasks tree'
       = pre ++ mkTask "b" "second" "N/A" 2 "home" "complete" 20 :: post
    /\ search "b" tree'
       = Some (mkTask "b" "second" "N/A" 2 "home" "complete" 20)
    /\ (forall j, j <> "b"%string -> search j tree' = search j sample_tree)
    /\ keys (root tree') = keys (root sample_tree)
    /\ tree_inv (root tree')
    /\ map_inv tree'.
Proof.
  exact (updateTaskStatus_effect "b" "complete" sample_tree
           (reach_rebuild sample_tasks empty_tree reach_empty)).
Defined.

(** ** Which [std::sort] is linked does not matter without ties *)

Lemma map_injective_on {A} (f : A -> Z) (l : list A) x y :
  NoDup (map f l) -> x ∈ l -> y ∈ l -> f x = f y -> x = y.
Proof.
  induction l as [|z l IH]; simpl; intros Hnd Hx Hy Hf.
  - now apply elem_of_nil in Hx.
  - apply NoDup_cons in Hnd as [Hz Hnd].
    apply elem_of_cons in Hx as [->|Hx]; apply elem_of_cons in Hy as [->|Hy].
    + reflexivity.
    + exfalso. apply Hz. rewrite Hf. apply list_elem_of_fmap. eauto.
    + exfalso. apply Hz. rewrite <- Hf. apply list_elem_of_fmap. eauto.
    + now apply IH.
Qed.

Lemma sorted_unique_by (f : Task -> Z) (l1 l2 : list Task) :
  l1 ≡ₚ l2 -> NoDup (map f l1) ->
  StronglySorted (fun a b => f a <= f b) l1 ->
  StronglySorted (fun a b => f a <= f b) l2 ->
  l1 = l2.
Proof.
  intros Hp Hnd H1 H2.
  apply (StronglySorted_unique_strong (fun a b => f a <= f b));
    [|exact H1|exact H2|exact Hp].
  intros x1 x2 Hx1 Hx2 Hle Hge. rewrite <- Hp in Hx2.
  apply (map_injective_on f l1); auto. lia.
Qed.

Lemma set_first_status_keeps i s l l' :
  set_first_status i s l = Some l' ->
  map priority l' = map priority l
  /\ map remainingHours l' = map remainingHours l.
Proof.
  revert l'. induction l as [|x l IH]; simpl; intros l'; [discriminate|].
  destruct (String.eqb (id x) i).
  - intros [= <-]. split; reflexivity.
  - destruct (set_first_status i s l) as [rest|]; [|discriminate].
    intros [= <-]. simpl. destruct (IH _ eq_refl) as [-> ->]. split; reflexivity.
Qed.

Lemma filter_map_NoDup (f : Task -> Z) (P : Task -> Prop)
    `{forall t, Decision (P t)} (l : list Task) :
  NoDup (map f l) -> NoDup (map f (filter P l)).
Proof.
  intros Hnd. eapply sublist_NoDup; [exact Hnd|].
  apply (fmap_sublist f). apply sublist_filter.
Qed.

Lemma renumberOnStatusChange_determined sort1 sort2 tasks :
  sort_contract sort1 -> sort_contract sort2 ->
  NoDup (map remainingHours tasks) -> NoDup (map priority tasks) ->
  renumberOnStatusChange sort1 tasks = renumberOnStatusChange sort2 tasks.
Proof.
  intros H1 H2 Hh Hp. unfold renumberOnStatusChange. f_equal. f_equal.
  - set (l := filter (fun t => is_incomplete t = true) tasks).
    destruct (H1 remainingHours l) as [Hp1 Hs1].
    destruct (H2 remainingHours l) as [Hp2 Hs2].
    apply (sorted_unique_by remainingHours); [| |exact Hs1|exact Hs2].
    + etransitivity; [exact Hp1|symmetry; exact Hp2].
    + eapply NoDup_Permutation_proper;
        [apply (fmap_Permutation remainingHours); exact Hp1|].
      now apply filter_map_NoDup.
  - set (l := filter (fun t => is_incomplete t <> true) tasks).
    destruct (H1 priority l) as [Hp1 Hs1].
    destruct (H2 priority l) as [Hp2 Hs2].
    apply (sorted_unique_by priority); [| |exact Hs1|exact Hs2].
    + etransitivity; [exact Hp1|symmetry; exact Hp2].
    + eapply NoDup_Permutation_proper;
        [apply (fmap_Permutation priority); exact Hp1|].
      now apply filter_map_NoDup.
Qed.

Lemma gap_insert_ascending pre post newTask :
  StronglySorted Z.lt (map priority (pre ++ post)) ->
  rank_gap (priority newTask) pre post ->
  StronglySorted Z.lt
    (map priority (pre ++ newTask :: map increment_priority post)).
Proof.
  intros Hs (Hpre & Hpost & _). rewrite map_app in Hs |- *.
  apply StronglySorted_app. split; [|split].
  - intros x1 x2 Hx1 Hx2.
    apply list_elem_of_fmap in Hx1 as (t1 & -> & Ht1).
    rewrite Forall_forall in Hpre, Hpost. specialize (Hpre _ Ht1).
    simpl in Hx2. apply elem_of_cons in Hx2 as [->|Hx2]; [exact Hpre|].
    apply list_elem_of_fmap in Hx2 as (t2 & -> & Ht2).
    apply list_elem_of_fmap in Ht2 as (t3 & -> & Ht3).
    specialize (Hpost _ Ht3). simpl. lia.
  - eapply StronglySorted_app_1_l; exact Hs.
  - simpl. apply StronglySorted_cons. split.
    + rewrite map_map, Forall_map. simpl.
      eapply Forall_impl; [exact Hpost|]. simpl; intros; lia.
    + apply StronglySorted_app_1_r in Hs.
      replace (map priority (map increment_priority post))
        with (map (fun x => x + 1) (map priority post))
        by (rewrite !map_map; reflexivity).
      apply (StronglySorted_fmap (fun x => x + 1) Z.lt Z.lt);
        [intros; lia|exact Hs].
Qed.

Lemma insertion_list_determined sort1 sort2 inp tasks :
  sort_contract sort1 -> sort_contract sort2 ->
  StronglySorted Z.lt (map priority tasks) ->
  Forall (fun t => 1 <= priority t) tasks ->
  snd (insertion_list sort1 inp tasks) = snd (insertion_list sort2 inp tasks).
Proof.
  intros H1 H2 Hs Hp.
  destruct (insertion_list_result sort1 H1 inp tasks Hs Hp)
    as (pre & post & Hsplit & Hres & Hgap).
  assert (Hasc : StronglySorted Z.lt
                   (map priority (snd (insertion_list sort1 inp tasks)))).
  { rewrite Hres. apply gap_insert_ascending; [now rewrite <- Hsplit|exact Hgap]. }
  clear Hres Hgap Hsplit. symmetry.
  revert Hasc. unfold insertion_list.
  change (new_task_fields inp)
    with ("incomplete"%string,
          computeRemainingHours (in_years inp) (in_months inp) (in_days inp) (in_hours inp),
          deadlineString (in_years inp) (in_months inp) (in_days inp) (in_hours inp)).
  cbv iota beta.
  destruct (rankForInsertion tasks "incomplete" _) as [p tasks'].
  cbn [snd]. intros Hasc.
  apply sorted_by_priority_unique; [| |exact Hasc].
  - etransitivity; [exact (proj1 (H2 priority _))|].
    symmetry. exact (proj1 (H1 priority _)).
  - exact (proj2 (H2 priority _)).
Qed.

(** X18.  [std::sort] is not stable, but without ties that cannot show:
    in a run of [main] in which no two tasks have the same remaining
    hours, every choice gives the same outcome and the same index for
    every implementation of [std::sort] that sorts. *)
Theorem choices_independent_of_sort sort1 sort2 c tree :
  sort_contract sort1 -> sort_contract sort2 ->
  session sort1 tree ->
  NoDup (map remainingHours (listTasks tree)) ->
  run_choice sort1 c tree = run_choice sort2 c tree.
Proof.
  intros H1 H2 Hses Hh.
  pose proof (session_shell_inv sort1 H1 tree Hses) as Hinv.
  pose proof (shell_inv_ascending _ Hinv) as Hasc.
  destruct c as [inp|i a|i]; simpl; [| |reflexivity].
  - unfold insert_task. destruct (search (in_id inp) tree); [reflexivity|].
    now rewrite (insertion_list_determined sort1 sort2 inp _ H1 H2 Hasc
                   (shell_positive _ Hinv)).
  - unfold update_status. destruct (search i tree); [|reflexivity].
    destruct (set_first_status i (new_status a) (listTasks tree))
      as [tasks|] eqn:Hset; [|reflexivity].
    destruct (set_first_status_keeps _ _ _ _ Hset) as [Hp' Hh'].
    rewrite (renumberOnStatusChange_determined sort1 sort2 tasks H1 H2);
      [reflexivity|now rewrite Hh'|rewrite Hp'; now apply ascending_NoDup].
Qed.

Lemma eighteen_tasks_session : session insertion_sort eighteen_tasks.
Proof.
  apply session_run_all; [exact insertion_sort_contract|apply session_start].
Qed.

Lemma eighteen_tasks_hours :
  NoDup (map remainingHours (listTasks eighteen_tasks)).
Proof.
  replace (map remainingHours (listTasks eighteen_tasks))
    with [3; 5; 8; 12; 16; 21; 27; 34; 40; 48; 55; 60; 63; 70; 77; 82; 90; 95]
    by (vm_compute; reflexivity).
  apply (bool_decide_eq_true_1 (NoDup _)). vm_compute. reflexivity.
Qed.

Lemma choices_independent_of_sort_witness :
  run_choice insertion_sort (ChoiceUpdate "h" "y") eighteen_tasks
  = run_choice libstdcxx_sort (ChoiceUpdate "h" "y") eighteen_tasks
  /\ run_choice insertion_sort (ChoiceInsert (hours_input "s" 50)) eighteen_tasks
     = run_choice libstdcxx_sort (ChoiceInsert (hours_input "s" 50)) eighteen_tasks.
Proof.
  split.
  - exact (choices_independent_of_sort insertion_sort libstdcxx_sort
             (ChoiceUpdate "h" "y") eighteen_tasks
             insertion_sort_contract libstdcxx_sort_contract
             eighteen_tasks_session eighteen_tasks_hours).
  - exact (choices_independent_of_sort insertion_sort libstdcxx_sort
             (ChoiceInsert (hours_input "s" 50)) eighteen_tasks
             insertion_sort_contract libstdcxx_sort_contract
             eighteen_tasks_session eighteen_tasks_hours).
Defined.

(** ** Choices 2 and 3 on any index *)

(** X19.  The scan of choice 2 over the list always finds the id that
    [search] found, so the branch "Task not found in list." is never
    taken; the task it changes is the first one in priority order that
    has the id. *)
Theorem update_scan_finds_task i s tree t :
  reachable tree ->
  search i tree = Some t ->
  exists pre u post,
    listTasks tree = pre ++ u :: post
    /\ id u = i
    /\ Forall (fun v => id v <> i) pre
    /\ set_first_status i s (listTasks tree) = Some (pre ++ set_status s u :: post).
Proof.
  intros Hr Hs.
  pose proof (search_reachable tree i Hr) as Hsr. rewrite Hs in Hsr.
  destruct Hsr as (Hid & Hin & _).
  apply set_first_status_split. eauto.
Qed.

Lemma update_scan_finds_task_witness :
  exists pre u post,
    listTasks sample_tree = pre ++ u :: post
    /\ id u = "b"%string
    /\ Forall (fun v => id v <> "b"%string) pre
    /\ set_first_status "b" "complete" (listTasks sample_tree)
       = Some (pre ++ set_status "complete" u :: post).
Proof.
  apply (update_scan_finds_task "b" "complete" sample_tree
           (mkTask "b" "second" "N/A" 2 "home" "incomplete" 20)
           (reach_rebuild sample_tasks empty_tree reach_empty)).
  vm_compute. reflexivity.
Defined.

(** X20.  Choice 3 never reorders: whatever the id, the tasks listed
    afterwards are a sublist of those listed before, with every field as
    it was, so a list in which incomplete tasks rank first and by
    remaining hours stays so.  Only the absence of gaps can be lost. *)
Theorem delete_task_keeps_order i tree :
  reachable tree ->
  partitioned (listTasks tree) ->
  deadline_ordered (listTasks tree) ->
  listTasks (snd (delete_task i tree)) `sublist_of` listTasks tree
  /\ partitioned (listTasks (snd (delete_task i tree)))
  /\ deadline_ordered (listTasks (snd (delete_task i tree))).
Proof.
  intros Hr Hpart Hdl.
  assert (Hsub : listTasks (snd (delete_task i tree)) `sublist_of` listTasks tree).
  { unfold delete_task, deleteTask. cbn [snd].
    destruct (idMap tree !! i); [|reflexivity].
    destruct (deref _ _) as [[|b t key l r h]|]; try reflexivity.
    unfold assign_root.
    destruct (deleteHelper_entries (root tree) key
                (mkStore (idMap tree) (next tree))
                (inv_bst _ (reachable_inv _ Hr))) as (n' & st' & Hd & He & _).
    rewrite Hd. unfold listTasks. cbn [snd root].
    rewrite !inOrder_entries, He.
    apply (fmap_sublist snd). apply sublist_filter. }
  split; [exact Hsub|]. split.
  - unfold partitioned in *. rewrite Forall_forall in Hpart.
    apply Forall_forall. intros a Ha. apply Forall_forall. intros b Hb.
    specialize (Hpart a (elem_of_sublist _ _ _ Ha Hsub)).
    rewrite Forall_forall in Hpart.
    exact (Hpart b (elem_of_sublist _ _ _ Hb Hsub)).
  - intros a b Ha Hb. apply Hdl; eapply elem_of_sublist; eauto.
Qed.

Lemma delete_task_keeps_order_witness :
  listTasks (snd (delete_task "b" sample_tree)) `sublist_of` listTasks sample_tree
  /\ partitioned (listTasks (snd (delete_task "b" sample_tree)))
  /\ deadline_ordered (listTasks (snd (delete_task "b" sample_tree))).
Proof.
  apply (delete_task_keeps_order "b" sample_tree
           (reach_rebuild sample_tasks empty_tree reach_empty)).
  - apply (bool_decide_eq_true_1 (partitioned (listTasks sample_tree))).
    vm_compute. reflexivity.
  - replace (listTasks sample_tree) with sample_tasks by (vm_compute; reflexivity).
    intros a b Ha Hb Hia Hib Hlt. unfold sample_tasks in Ha, Hb.
    repeat (apply elem_of_cons in Ha as [->|Ha]);
      repeat (apply elem_of_cons in Hb as [->|Hb]);
      try (now apply elem_of_nil in Ha); try (now apply elem_of_nil in Hb);
      simpl in *; try lia; try discriminate.
Defined.
